(** * Single-position trading environment (trade_environment.py)

    A shallow embedding of [TradingEnv]: the feature pipeline
    ([_preprocess_data]), the position and trade ledger
    ([_execute_trade], [_close_position], [_manage_position]), the
    [step] / [reset] state machine, and the properties of the
    natural-language specification that concern them.

    Numbers.  Python floats are idealised as exact rationals ([Q]):
    rounding error and overflow are not modelled.  The special values
    the pipeline relies on (NaN from warm-up windows and 0/0, the
    infinities of a division by zero) are kept, in the type [fl].
    Exceptions are modelled by the [result] type. *)

From Stdlib Require Import ZArith QArith Qround Qabs Qminmax List Bool Lia Lqa.
Import ListNotations.

Set Implicit Arguments.

(** ** Exceptions *)

Inductive PyError : Type :=
| IndexError                       (* list / array index out of range *)
| ZeroDivisionError                (* float division by zero *)
| InsufficientData (bars : nat)    (* ValueError of _preprocess_data *)
| InvalidIndexError                (* pandas: get_indexer on a non-unique index *)
| RandintError.                    (* ValueError: low >= high *)

Inductive result (A : Type) : Type :=
| Ok (a : A)
| Raise (e : PyError).
Arguments Ok {A} a.
Arguments Raise {A} e.

Definition bind {A B : Type} (m : result A) (k : A -> result B) : result B :=
  match m with
  | Ok a => k a
  | Raise e => Raise e
  end.

Declare Scope py_scope.
Delimit Scope py_scope with py.
Notation "x <- m ;; k" := (bind m (fun x => k))
  (at level 61, m at next level, right associativity) : py_scope.
Notation "' pat <- m ;; k" := (bind m (fun x => match x with pat => k end))
  (at level 61, pat pattern, m at next level, right associativity) : py_scope.

(** [xs[i]] for a non-negative index. *)
Definition getitem {A : Type} (xs : list A) (i : nat) : result A :=
  match nth_error xs i with
  | Some x => Ok x
  | None => Raise IndexError
  end.

(** ** Numbers *)

Open Scope Q_scope.

Definition Qltb (a b : Q) : bool :=
  match a ?= b with Lt => true | _ => false end.
Definition Qleb (a b : Q) : bool :=
  match a ?= b with Gt => false | _ => true end.
Definition Qeqb (a b : Q) : bool :=
  match a ?= b with Eq => true | _ => false end.

(** Python's builtin [max(a, b)] and [min(a, b)]: the first argument is
    kept unless the second is strictly better. *)
Definition py_max (a b : Q) : Q := if Qltb a b then b else a.
Definition py_min (a b : Q) : Q := if Qltb b a then b else a.

(** Float division; a zero divisor raises. *)
Definition py_div (a b : Q) : result Q :=
  if Qeqb b 0 then Raise ZeroDivisionError else Ok (a / b).

(** [round(x)] to the nearest integer, ties to even. *)
Definition round_half_even (x : Q) : Z :=
  let f := Qfloor x in
  let r := x - inject_Z f in
  if Qltb r (1 # 2) then f
  else if Qltb (1 # 2) r then (f + 1)%Z
  else if Z.even f then f else (f + 1)%Z.

(** [round(x, 2)] of the exact value, halves to even.  Python rounds
    the double nearest to [x], which can lie on the other side of a tie
    (2675 / 1000 gives 2.67 there and 2.68 here); the two agree
    wherever [x * 100] is not within a rounding error of a
    half-integer. *)
Definition py_round2 (x : Q) : Q :=
  Qred (inject_Z (round_half_even (x * 100)) / 100).

(** [np.clip(x, lo, hi)] on finite values. *)
Definition Qclip (x lo hi : Q) : Q := Qmin (Qmax x lo) hi.

(** Extended values of the feature pipeline. *)
Inductive fl : Type :=
| Fin (q : Q)
| PInf
| NInf
| NaN.

Definition isnan (x : fl) : bool :=
  match x with NaN => true | _ => false end.

(** ** Data model *)

Module Env.

(** Trading constants of [__init__]. *)
Definition POINT_VALUE : Q := 1 # 100.
Definition PIP_VALUE : Q := 1 # 10000.
Definition MIN_LOTS : Q := 1 # 100.
Definition MAX_LOTS : Q := 100.
Definition MAX_DRAWDOWN : Q := 1 # 2.

(** [self.prices]: parallel arrays indexed like the feature matrix. *)
Record Prices : Type := mkPrices {
  p_close : list Q;
  p_high : list Q;
  p_low : list Q;
  p_spread : list Q;
  p_atr : list fl
}.

(** [self.current_position]: the dictionary of the open position. *)
Record Position : Type := mkPosition {
  direction : Z;
  entry_price : Q;
  lot_size : Q;
  entry_time : Z;
  entry_step : nat;
  entry_atr : fl;
  current_profit_pips : Q
}.

(** A closed trade: the position dictionary after [update] with the exit
    fields. *)
Record Trade : Type := mkTrade {
  t_position : Position;
  exit_price : Q;
  exit_step : nat;
  exit_time : Z;
  profit_pips : Q;
  pnl : Q;
  hold_time : Z
}.

Record TradeMetrics : Type := mkMetrics {
  win_rate : Q;
  avg_profit : Q;
  avg_loss : Q;
  current_direction : Z
}.

(** The attributes of a [TradingEnv] instance. *)
Record TradingEnv : Type := mkEnv {
  raw_data : list (list fl);
  prices : Prices;
  original_index : list Z;
  data_length : nat;
  BALANCE_PER_LOT : Q;
  random_start : bool;
  initial_balance : Q;
  current_step : nat;
  balance : Q;
  max_balance : Q;
  previous_balance : Q;
  trades : list Trade;
  current_position : option Position;
  win_count : nat;
  loss_count : nat;
  reward : Q;
  completed_episodes : nat;
  episode_steps : nat;
  trade_metrics : TradeMetrics
}.

(** Attribute assignments. *)
Definition set_current_step (v : nat) (s : TradingEnv) : TradingEnv :=
  mkEnv (raw_data s) (prices s) (original_index s) (data_length s)
    (BALANCE_PER_LOT s) (random_start s) (initial_balance s)
    v (balance s) (max_balance s) (previous_balance s) (trades s)
    (current_position s) (win_count s) (loss_count s) (reward s)
    (completed_episodes s) (episode_steps s) (trade_metrics s).
Definition set_balance (v : Q) (s : TradingEnv) : TradingEnv :=
  mkEnv (raw_data s) (prices s) (original_index s) (data_length s)
    (BALANCE_PER_LOT s) (random_start s) (initial_balance s)
    (current_step s) v (max_balance s) (previous_balance s) (trades s)
    (current_position s) (win_count s) (loss_count s) (reward s)
    (completed_episodes s) (episode_steps s) (trade_metrics s).
Definition set_max_balance (v : Q) (s : TradingEnv) : TradingEnv :=
  mkEnv (raw_data s) (prices s) (original_index s) (data_length s)
    (BALANCE_PER_LOT s) (random_start s) (initial_balance s)
    (current_step s) (balance s) v (previous_balance s) (trades s)
    (current_position s) (win_count s) (loss_count s) (reward s)
    (completed_episodes s) (episode_steps s) (trade_metrics s).
Definition set_previous_balance (v : Q) (s : TradingEnv) : TradingEnv :=
  mkEnv (raw_data s) (prices s) (original_index s) (data_length s)
    (BALANCE_PER_LOT s) (random_start s) (initial_balance s)
    (current_step s) (balance s) (max_balance s) v (trades s)
    (current_position s) (win_count s) (loss_count s) (reward s)
    (completed_episodes s) (episode_steps s) (trade_metrics s).
Definition set_trades (v : list Trade) (s : TradingEnv) : TradingEnv :=
  mkEnv (raw_data s) (prices s) (original_index s) (data_length s)
    (BALANCE_PER_LOT s) (random_start s) (initial_balance s)
    (current_step s) (balance s) (max_balance s) (previous_balance s) v
    (current_position s) (win_count s) (loss_count s) (reward s)
    (completed_episodes s) (episode_steps s) (trade_metrics s).
Definition set_current_position (v : option Position) (s : TradingEnv)
  : TradingEnv :=
  mkEnv (raw_data s) (prices s) (original_index s) (data_length s)
    (BALANCE_PER_LOT s) (random_start s) (initial_balance s)
    (current_step s) (balance s) (max_balance s) (previous_balance s)
    (trades s) v (win_count s) (loss_count s) (reward s)
    (completed_episodes s) (episode_steps s) (trade_metrics s).
Definition set_win_count (v : nat) (s : TradingEnv) : TradingEnv :=
  mkEnv (raw_data s) (prices s) (original_index s) (data_length s)
    (BALANCE_PER_LOT s) (random_start s) (initial_balance s)
    (current_step s) (balance s) (max_balance s) (previous_balance s)
    (trades s) (current_position s) v (loss_count s) (reward s)
    (completed_episodes s) (episode_steps s) (trade_metrics s).
Definition set_loss_count (v : nat) (s : TradingEnv) : TradingEnv :=
  mkEnv (raw_data s) (prices s) (original_index s) (data_length s)
    (BALANCE_PER_LOT s) (random_start s) (initial_balance s)
    (current_step s) (balance s) (max_balance s) (previous_balance s)
    (trades s) (current_position s) (win_count s) v (reward s)
    (completed_episodes s) (episode_steps s) (trade_metrics s).
Definition set_reward (v : Q) (s : TradingEnv) : TradingEnv :=
  mkEnv (raw_data s) (prices s) (original_index s) (data_length s)
    (BALANCE_PER_LOT s) (random_start s) (initial_balance s)
    (current_step s) (balance s) (max_balance s) (previous_balance s)
    (trades s) (current_position s) (win_count s) (loss_count s) v
    (completed_episodes s) (episode_steps s) (trade_metrics s).
Definition set_completed_episodes (v : nat) (s : TradingEnv) : TradingEnv :=
  mkEnv (raw_data s) (prices s) (original_index s) (data_length s)
    (BALANCE_PER_LOT s) (random_start s) (initial_balance s)
    (current_step s) (balance s) (max_balance s) (previous_balance s)
    (trades s) (current_position s) (win_count s) (loss_count s) (reward s)
    v (episode_steps s) (trade_metrics s).
Definition set_episode_steps (v : nat) (s : TradingEnv) : TradingEnv :=
  mkEnv (raw_data s) (prices s) (original_index s) (data_length s)
    (BALANCE_PER_LOT s) (random_start s) (initial_balance s)
    (current_step s) (balance s) (max_balance s) (previous_balance s)
    (trades s) (current_position s) (win_count s) (loss_count s) (reward s)
    (completed_episodes s) v (trade_metrics s).
Definition set_trade_metrics (v : TradeMetrics) (s : TradingEnv)
  : TradingEnv :=
  mkEnv (raw_data s) (prices s) (original_index s) (data_length s)
    (BALANCE_PER_LOT s) (random_start s) (initial_balance s)
    (current_step s) (balance s) (max_balance s) (previous_balance s)
    (trades s) (current_position s) (win_count s) (loss_count s) (reward s)
    (completed_episodes s) (episode_steps s) v.

Definition set_current_direction (d : Z) (m : TradeMetrics) : TradeMetrics :=
  mkMetrics (win_rate m) (avg_profit m) (avg_loss m) d.
Definition set_current_profit_pips (v : Q) (p : Position) : Position :=
  mkPosition (direction p) (entry_price p) (lot_size p) (entry_time p)
    (entry_step p) (entry_atr p) v.

End Env.
Import Env.

(** ** Position and trade accounting *)

Open Scope py_scope.

Definition Qsum (xs : list Q) : Q := fold_left Qplus xs 0.
Definition Qlen {A : Type} (xs : list A) : Q := inject_Z (Z.of_nat (length xs)).

(** [action = int(action) % 4]: Python's remainder takes the sign of the
    divisor, as [Z.modulo] does. *)
Definition _process_action (action : Z) : Z := (action mod 4)%Z.

(** [_execute_trade(direction, raw_spread)].  Returns the new state and
    the returned float (always 0). *)
Definition _execute_trade (s : TradingEnv) (dir : Z) (raw_spread : Q)
  : result (TradingEnv * Q) :=
  match current_position s with
  | Some _ => Ok (s, 0)
  | None =>
      current_price <- getitem (p_close (prices s)) (current_step s) ;;
      current_atr <- getitem (p_atr (prices s)) (current_step s) ;;
      ratio <- py_div (balance s) (BALANCE_PER_LOT s) ;;
      let lots := py_max MIN_LOTS (py_min MAX_LOTS (py_round2 ratio)) in
      time <- getitem (original_index s) (current_step s) ;;
      let pos :=
        {| direction := if (dir =? 1)%Z then 1%Z else (-1)%Z;
           entry_price :=
             current_price + (if (dir =? 1)%Z then raw_spread else - raw_spread);
           lot_size := lots;
           entry_time := time;
           entry_step := current_step s;
           entry_atr := current_atr;
           current_profit_pips := 0 |} in
      let s := set_current_position (Some pos) s in
      let s :=
        set_trade_metrics
          (set_current_direction (direction pos) (trade_metrics s)) s in
      Ok (s, 0)
  end.

(** Price move in the position's favour at price [current_price]. *)
Definition profit_points_of (p : Position) (current_price : Q) : Q :=
  if (direction p =? 1)%Z then current_price - entry_price p
  else entry_price p - current_price.

Definition winning_trades (ts : list Trade) : list Trade :=
  filter (fun t => Qltb 0 (pnl t)) ts.
Definition losing_trades (ts : list Trade) : list Trade :=
  filter (fun t => Qleb (pnl t) 0) ts.

(** The three aggregates recomputed after a close ([if self.trades:]). *)
Definition win_rate_of (ts : list Trade) : Q :=
  match ts with
  | [] => 0
  | _ => Qlen (winning_trades ts) / Qlen ts
  end.
Definition avg_profit_of (ts : list Trade) : Q :=
  match winning_trades ts with
  | [] => 0
  | w => Qsum (map pnl w) / Qlen w
  end.
Definition avg_loss_of (ts : list Trade) : Q :=
  match losing_trades ts with
  | [] => 0
  | l => Qsum (map pnl l) / Qlen l
  end.

Definition update_trade_metrics (s : TradingEnv) : TradingEnv :=
  match trades s with
  | [] => s
  | ts =>
      set_trade_metrics
        (mkMetrics (win_rate_of ts) (avg_profit_of ts) (avg_loss_of ts)
           (current_direction (trade_metrics s))) s
  end.

(** [_close_position()].  Returns the new state and the returned float:
    the fixed penalty with no position, else the hold-time-scaled
    normalised P/L. *)
Definition _close_position (s : TradingEnv) : result (TradingEnv * Q) :=
  match current_position s with
  | None => Ok (s, - (1 # 10))
  | Some pos =>
      current_price <- getitem (p_close (prices s)) (current_step s) ;;
      let profit_points := profit_points_of pos current_price in
      let pnl := profit_points * lot_size pos in
      let profit_pips := profit_points / PIP_VALUE in
      time <- getitem (original_index s) (current_step s) ;;
      let hold := (Z.of_nat (current_step s) - Z.of_nat (entry_step pos))%Z in
      let trade :=
        {| t_position := pos;
           exit_price := current_price;
           exit_step := current_step s;
           exit_time := time;
           profit_pips := profit_pips;
           pnl := pnl;
           hold_time := hold |} in
      let s :=
        if Qltb 0 pnl then set_win_count (win_count s + 1) s
        else set_loss_count (loss_count s + 1) s in
      let s := set_trades (trades s ++ [trade]) s in
      let s := set_balance (balance s + pnl) s in
      let s := set_current_position None s in
      let s :=
        set_trade_metrics (set_current_direction 0 (trade_metrics s)) s in
      let s := update_trade_metrics s in
      let hold_factor := py_min 1 (inject_Z hold / 20) in
      ratio <- py_div pnl (initial_balance s) ;;
      let normalized_pnl := ratio * 100 in
      Ok (s, normalized_pnl * hold_factor)
  end.

(** [_manage_position()]: unrealised P/L; refreshes the running pip
    figure of the open position. *)
Definition _manage_position (s : TradingEnv) : result (TradingEnv * Q) :=
  match current_position s with
  | None => Ok (s, 0)
  | Some pos =>
      current_price <- getitem (p_close (prices s)) (current_step s) ;;
      let profit_points := profit_points_of pos current_price in
      let unrealized_pnl := profit_points * lot_size pos in
      let profit_pips := profit_points / PIP_VALUE in
      Ok (set_current_position
            (Some (set_current_profit_pips profit_pips pos)) s,
          unrealized_pnl)
  end.

(** [calculate_reward(unrealized_pnl)]: the argument is not used. *)
Definition calculate_reward (s : TradingEnv) (unrealized_pnl : Q) : result Q :=
  py_div (balance s - previous_balance s) (initial_balance s).

(** ** The step / reset state machine *)

(** [get_history()]: the feature row at the cursor with the normalised
    unrealised P/L appended. *)
Definition get_history (s : TradingEnv) : result (TradingEnv * list fl) :=
  features <- getitem (raw_data s) (current_step s) ;;
  match current_position s with
  | Some _ =>
      '(s, unrealized_pnl) <- _manage_position s ;;
      ratio <- py_div unrealized_pnl (initial_balance s) ;;
      Ok (s, features ++ [Fin (Qclip ratio (-1) 1)])
  | None => Ok (s, features ++ [Fin 0])
  end.

Record PositionInfo : Type := mkPositionInfo {
  pi_long : bool;
  pi_entry_price : Q;
  pi_lot_size : Q;
  pi_unrealized_pnl : Q;
  pi_profit_pips : Q;
  pi_hold_time : Z
}.

Record Info : Type := mkInfo {
  info_balance : Q;
  info_total_pnl : Q;
  info_drawdown : Q;
  info_position : option PositionInfo;
  info_trade_metrics : TradeMetrics
}.

(** The tuple returned by [step]. *)
Record StepResult : Type := mkStepResult {
  obs : list fl;
  step_reward : Q;
  terminated : bool;
  truncated : bool;
  info : Info
}.

(** [self.current_step >= self.data_length - 1] *)
Definition end_of_data (s : TradingEnv) : bool :=
  (Z.of_nat (data_length s) - 1 <=? Z.of_nat (current_step s))%Z.

(** First half of [step]: balance snapshot, peak update, cursor advance,
    the action, and the unrealised P/L refresh.  Returns the state on
    which the terminal conditions are evaluated, with the unrealised
    P/L. *)
Definition step_apply (s : TradingEnv) (action : Z) : result (TradingEnv * Q) :=
  let action := _process_action action in
  raw <- getitem (p_spread (prices s)) (current_step s) ;;
  let current_spread := raw * POINT_VALUE in
  let s := set_previous_balance (balance s) s in
  let s := set_max_balance (py_max (balance s) (max_balance s)) s in
  let s := set_episode_steps (episode_steps s + 1) s in
  let s := set_current_step (current_step s + 1) s in
  s <- (if (action =? 1)%Z then
          '(s, _) <- _execute_trade s 1 current_spread ;; Ok s
        else if (action =? 2)%Z then
          '(s, _) <- _execute_trade s 2 current_spread ;; Ok s
        else if (action =? 3)%Z then
          '(s, _) <- _close_position s ;; Ok s
        else Ok s) ;;
  _manage_position s.

(** [(self.max_balance - self.balance) / self.max_balance] *)
Definition drawdown (s : TradingEnv) : result Q :=
  py_div (max_balance s - balance s) (max_balance s).

(** [end_of_data or self.balance <= 0 or max_drawdown >= MAX_DRAWDOWN] *)
Definition is_done (s : TradingEnv) (max_drawdown : Q) : bool :=
  end_of_data s || Qleb (balance s) 0 || Qleb MAX_DRAWDOWN max_drawdown.

Definition position_info (s : TradingEnv) (unrealized_pnl : Q)
  : option PositionInfo :=
  match current_position s with
  | None => None
  | Some p =>
      Some (mkPositionInfo (direction p =? 1)%Z (entry_price p) (lot_size p)
              unrealized_pnl (current_profit_pips p)
              (Z.of_nat (current_step s) - Z.of_nat (entry_step p))%Z)
  end.

(** [step(action)] *)
Definition step (s : TradingEnv) (action : Z)
  : result (TradingEnv * StepResult) :=
  '(s, unrealized_pnl) <- step_apply s action ;;
  max_drawdown <- drawdown s ;;
  let done := is_done s max_drawdown in
  s <- (match current_position s with
        | Some _ => if done then '(s, _) <- _close_position s ;; Ok s else Ok s
        | None => Ok s
        end) ;;
  reward <- calculate_reward s unrealized_pnl ;;
  let s := set_reward reward s in
  '(s, obs) <- get_history s ;;
  let truncated := end_of_data s in
  Ok (s, mkStepResult obs reward done truncated
           (mkInfo (balance s) (balance s - initial_balance s)
              (max_drawdown * 100) (position_info s unrealized_pnl)
              (trade_metrics s))).

(** [np.random.randint(low, high)]: an integer of the half-open interval
    [low, high), or ValueError when it is empty.  The generator is not
    modelled: [entropy] is the raw number it supplies, reduced into the
    interval. *)
Definition randint (low high : Z) (entropy : nat) : result Z :=
  if (low <? high)%Z then Ok (low + Z.of_nat entropy mod (high - low))%Z
  else Raise RandintError.

(** [reset(seed, options)].  [entropy] stands for the generator's draw
    (fixed by [seed] when one is given). *)
Definition reset (s : TradingEnv) (entropy : nat)
  : result (TradingEnv * list fl) :=
  start <- (if random_start s then
              let max_start := Z.max 0 (Z.of_nat (data_length s) - 100) in
              k <- randint 0 max_start entropy ;; Ok (Z.to_nat k)
            else Ok 0%nat) ;;
  let s := set_current_step start s in
  let s := set_balance (initial_balance s) s in
  let s := set_max_balance (initial_balance s) s in
  let s := set_previous_balance (initial_balance s) s in
  let s := set_trades [] s in
  let s := set_current_position None s in
  let s := set_win_count 0 s in
  let s := set_loss_count 0 s in
  let s := set_episode_steps 0 s in
  let s := set_trade_metrics (mkMetrics 0 0 0 0) s in
  let s := set_completed_episodes (completed_episodes s + 1) s in
  get_history s.

(** ** Arithmetic on extended values

    IEEE-754 rules for NaN and the infinities over exact rationals; a
    zero has no sign, so [x / 0] takes the sign of [x]. *)

Definition fneg (x : fl) : fl :=
  match x with
  | Fin a => Fin (Qred (- a))
  | PInf => NInf
  | NInf => PInf
  | NaN => NaN
  end.

Definition fadd (x y : fl) : fl :=
  match x, y with
  | NaN, _ | _, NaN => NaN
  | Fin a, Fin b => Fin (Qred (a + b))
  | PInf, NInf | NInf, PInf => NaN
  | PInf, _ | _, PInf => PInf
  | NInf, _ | _, NInf => NInf
  end.

Definition fsub (x y : fl) : fl := fadd x (fneg y).

(** Sign of a product with an infinity: [NaN] when the other factor is 0. *)
Definition inf_times (positive : bool) (a : Q) : fl :=
  if Qeqb a 0 then NaN
  else if Bool.eqb positive (Qltb 0 a) then PInf else NInf.

Definition fmul (x y : fl) : fl :=
  match x, y with
  | NaN, _ | _, NaN => NaN
  | Fin a, Fin b => Fin (Qred (a * b))
  | PInf, Fin a | Fin a, PInf => inf_times true a
  | NInf, Fin a | Fin a, NInf => inf_times false a
  | PInf, PInf | NInf, NInf => PInf
  | PInf, NInf | NInf, PInf => NInf
  end.

Definition fdiv (x y : fl) : fl :=
  match x, y with
  | NaN, _ | _, NaN => NaN
  | Fin a, Fin b =>
      if Qeqb b 0 then
        (if Qeqb a 0 then NaN else if Qltb 0 a then PInf else NInf)
      else Fin (Qred (a / b))
  | Fin _, PInf | Fin _, NInf => Fin 0
  | PInf, Fin b => if Qltb b 0 then NInf else PInf
  | NInf, Fin b => if Qltb b 0 then PInf else NInf
  | PInf, PInf | PInf, NInf | NInf, PInf | NInf, NInf => NaN
  end.

Definition fabs (x : fl) : fl :=
  match x with
  | Fin a => Fin (Qred (Qabs a))
  | PInf | NInf => PInf
  | NaN => NaN
  end.

(** [x < y]: false as soon as one side is NaN. *)
Definition flt (x y : fl) : bool :=
  match x, y with
  | NaN, _ | _, NaN => false
  | Fin a, Fin b => Qltb a b
  | NInf, NInf | PInf, _ | _, NInf => false
  | NInf, _ | _, PInf => true
  end.

(** [x != y]: true as soon as one side is NaN. *)
Definition fne (x y : fl) : bool :=
  match x, y with
  | NaN, _ | _, NaN => true
  | Fin a, Fin b => negb (Qeqb a b)
  | PInf, PInf | NInf, NInf => false
  | _, _ => true
  end.

(** [np.maximum], [np.minimum]: NaN propagates. *)
Definition fmaximum (x y : fl) : fl :=
  match x, y with
  | NaN, _ | _, NaN => NaN
  | _, _ => if flt x y then y else x
  end.
Definition fminimum (x y : fl) : fl :=
  match x, y with
  | NaN, _ | _, NaN => NaN
  | _, _ => if flt y x then y else x
  end.

(** [np.clip(x, lo, hi)] *)
Definition fclip (x lo hi : fl) : fl := fminimum (fmaximum x lo) hi.

(** [Series.fillna(v)] on one cell. *)
Definition fillna (v x : fl) : fl := if isnan x then v else x.

(** [np.nanmin], [np.nanmax]: NaN cells are skipped; NaN when all are. *)
Definition nan_fold (pick : fl -> fl -> fl) (xs : list fl) : fl :=
  fold_left (fun acc x =>
               if isnan x then acc else if isnan acc then x else pick acc x)
    xs NaN.
Definition nanmin : list fl -> fl := nan_fold fminimum.
Definition nanmax : list fl -> fl := nan_fold fmaximum.

Definition fsum (xs : list fl) : fl := fold_left fadd xs (Fin 0).
Definition Fnat (n : nat) : fl := Fin (inject_Z (Z.of_nat n)).

(** ** Columns *)

(** An array of length [n] given cell by cell. *)
Definition col {A : Type} (n : nat) (f : nat -> A) : list A := map f (seq 0 n).
Definition at_ (xs : list fl) (i : nat) : fl := nth i xs NaN.

(** The cells a rolling window of width [w] sees at row [i]. *)
Definition window (w : nat) (xs : list fl) (i : nat) : list fl :=
  firstn (Nat.min w (i + 1)) (skipn (i + 1 - w) xs).

(** The observations of a window: pandas skips NaN cells. *)
Definition observations (w : nat) (xs : list fl) (i : nat) : list fl :=
  filter (fun x => negb (isnan x)) (window w xs i).

(** [Series.rolling(w, min_periods).mean()] *)
Definition rolling_mean (w min_periods : nat) (xs : list fl) : list fl :=
  col (length xs) (fun i =>
    let o := observations w xs i in
    if (length o <? min_periods)%nat then NaN
    else fdiv (fsum o) (Fnat (length o))).

(** ** Feature pipeline *)

(** One row of the input table: the timestamp index and the required
    columns (the optional volume column feeds no indicator). *)
Record Bar : Type := mkBar {
  bar_time : Z;
  bar_open : Q;
  bar_high : Q;
  bar_low : Q;
  bar_close : Q;
  bar_spread : Q
}.

(** What [_preprocess_data] returns and stores: the feature frame, the
    aligned ATR values, [self.prices] and [self.original_index]. *)
Record Preprocessed : Type := mkPreprocessed {
  features_df : list (list fl);
  atr_values : list fl;
  pre_prices : Prices;
  valid_indices : list Z
}.

Definition eps : fl := Fin (1 # 100000000).
Definition atr_period : nat := 14.

Section Pipeline.

(** The square root of [np.sqrt] on a non-negative rational; its value is
    irrational in general, so the pipeline is parametric in it. *)
Variable sqrtQ : Q -> Q.

Definition fsqrt (x : fl) : fl :=
  match x with
  | Fin a => if Qltb a 0 then NaN else Fin (Qred (sqrtQ a))
  | PInf => PInf
  | NInf | NaN => NaN
  end.

(** [Series.rolling(w, min_periods).std()], sample deviation (ddof = 1). *)
Definition rolling_std (w min_periods : nat) (xs : list fl) : list fl :=
  col (length xs) (fun i =>
    let o := observations w xs i in
    if ((length o <? min_periods) || (length o <=? 1))%nat then NaN
    else
      let m := fdiv (fsum o) (Fnat (length o)) in
      let ss := fsum (map (fun x => fmul (fsub x m) (fsub x m)) o) in
      fsqrt (fdiv ss (Fnat (length o - 1)))).

Section Indicators.

Variable data : list Bar.

Let n : nat := length data.
Definition c_close : list fl := map (fun b => Fin (bar_close b)) data.
Definition c_high : list fl := map (fun b => Fin (bar_high b)) data.
Definition c_low : list fl := map (fun b => Fin (bar_low b)) data.
Definition c_open : list fl := map (fun b => Fin (bar_open b)) data.

(** True range; row 0 is [high - low]. *)
Definition c_tr : list fl :=
  let high := c_high in
  let low := c_low in
  let close := c_close in
  col n (fun i =>
    match i with
    | O => fsub (at_ high 0) (at_ low 0)
    | S j =>
        fmaximum (fsub (at_ high i) (at_ low i))
          (fmaximum (fabs (fsub (at_ high i) (at_ close j)))
                    (fabs (fsub (at_ low i) (at_ close j))))
    end).

Definition c_atr : list fl := rolling_mean atr_period atr_period c_tr.

(** [pd.Series(close).diff().fillna(0)] *)
Definition c_delta : list fl :=
  let close := c_close in
  col n (fun i =>
    match i with
    | O => Fin 0
    | S j => fillna (Fin 0) (fsub (at_ close i) (at_ close j))
    end).

Definition c_gain : list fl :=
  rolling_mean 14 14
    (map (fun d => if flt (Fin 0) d then d else Fin 0) c_delta).
Definition c_loss : list fl :=
  rolling_mean 14 14
    (map (fun d => if flt d (Fin 0) then fneg d else Fin 0) c_delta).

(** [rs = zeros; rs[loss != 0] = gain / loss] *)
Definition c_rs : list fl :=
  let gain := c_gain in
  let loss := c_loss in
  col n (fun i =>
    if fne (at_ loss i) (Fin 0) then fdiv (at_ gain i) (at_ loss i)
    else Fin 0).

(** [rsi = 100 - (100 / (1 + rs))] *)
Definition c_rsi : list fl :=
  map (fun rs => fsub (Fin 100) (fdiv (Fin 100) (fadd (Fin 1) rs))) c_rs.

Definition c_returns : list fl :=
  let close := c_close in
  col n (fun i =>
    let r :=
      match i with
      | O => Fin 0
      | S j => fdiv (fsub (at_ close i) (at_ close j)) (at_ close j)
      end in
    fclip r (Fin (- (1 # 10))) (Fin (1 # 10))).

(** Directional movement, a 0 inserted at row 0. *)
Definition c_pdm : list fl :=
  let high := c_high in
  col n (fun i =>
    match i with
    | O => Fin 0
    | S j => fmaximum (fsub (at_ high i) (at_ high j)) (Fin 0)
    end).
Definition c_ndm : list fl :=
  let low := c_low in
  col n (fun i =>
    match i with
    | O => Fin 0
    | S j => fmaximum (fsub (at_ low j) (at_ low i)) (Fin 0)
    end).

Definition c_pdm_smooth : list fl :=
  map (fillna (Fin 0)) (rolling_mean atr_period 1 c_pdm).
Definition c_ndm_smooth : list fl :=
  map (fillna (Fin 0)) (rolling_mean atr_period 1 c_ndm).

(** [np.where(x < 1e-8, 1e-8, x)] *)
Definition floor_eps (x : fl) : fl := if flt x eps then eps else x.

Definition c_atr_safe : list fl := map floor_eps c_atr.
Definition c_pdi : list fl :=
  let pdm_smooth := c_pdm_smooth in
  let atr_safe := c_atr_safe in
  col n (fun i => fmul (fdiv (at_ pdm_smooth i) (at_ atr_safe i)) (Fin 100)).
Definition c_ndi : list fl :=
  let ndm_smooth := c_ndm_smooth in
  let atr_safe := c_atr_safe in
  col n (fun i => fmul (fdiv (at_ ndm_smooth i) (at_ atr_safe i)) (Fin 100)).
Definition c_dx : list fl :=
  let pdi := c_pdi in
  let ndi := c_ndi in
  col n (fun i =>
    let sum_di := floor_eps (fadd (at_ pdi i) (at_ ndi i)) in
    fmul (fdiv (fabs (fsub (at_ pdi i) (at_ ndi i))) sum_di) (Fin 100)).
Definition c_adx : list fl :=
  map (fillna (Fin 0)) (rolling_mean atr_period 1 c_dx).
Definition c_trend_strength : list fl :=
  map (fun a => fclip (fsub (fdiv a (Fin 25)) (Fin 1)) (Fin (-1)) (Fin 1)) c_adx.

(** Bollinger band position. *)
Definition c_boll_std : list fl :=
  map (fillna (Fin 0)) (rolling_std 20 1 c_close).
Definition c_ma20 : list fl :=
  let close := c_close in
  map (fillna (at_ close 0)) (rolling_mean 20 1 close).
Definition c_volatility_breakout : list fl :=
  let close := c_close in
  let ma20 := c_ma20 in
  let boll_std := c_boll_std in
  col n (fun i =>
    let upper_band := fadd (at_ ma20 i) (fmul (at_ boll_std i) (Fin 2)) in
    let lower_band := fsub (at_ ma20 i) (fmul (at_ boll_std i) (Fin 2)) in
    let band_range := floor_eps (fsub upper_band lower_band) in
    let position := fsub (at_ close i) lower_band in
    let ratio :=
      if fne band_range (Fin 0) then fdiv position band_range else Fin 0 in
    fclip ratio (Fin 0) (Fin 1)).

(** Candle body and wick balance. *)
Definition c_candle_pattern : list fl :=
  let close := c_close in
  let opens := c_open in
  let high := c_high in
  let low := c_low in
  col n (fun i =>
    let c := at_ close i in
    let o := at_ opens i in
    let h := at_ high i in
    let l := at_ low i in
    let body := fsub c o in
    let upper_wick := fsub h (fmaximum c o) in
    let lower_wick := fsub (fminimum c o) l in
    let range_ := fadd (fsub h l) eps in
    let wick_ratio :=
      fdiv (fsub upper_wick lower_wick)
           (fadd (fadd upper_wick lower_wick) eps) in
    fclip (fdiv (fadd (fdiv body range_) wick_ratio) (Fin 2))
      (Fin (-1)) (Fin 1)).

(** [atr / close], then min-max normalised over the whole series. *)
Definition c_atr_ratio : list fl :=
  let atr := c_atr in
  let close := c_close in
  col n (fun i => fdiv (at_ atr i) (at_ close i)).
Definition c_atr_norm : list fl :=
  let ratio := c_atr_ratio in
  let lo := nanmin ratio in
  let hi := nanmax ratio in
  map (fun r =>
         fsub (fdiv (fmul (Fin 2) (fsub r lo)) (fadd (fsub hi lo) eps)) (Fin 1))
    ratio.

Definition c_rsi_norm : list fl :=
  map (fun r => fsub (fdiv r (Fin 50)) (Fin 1)) c_rsi.

(** The frame before trimming, each row with its position: the six
    feature columns in frame order. *)
Definition full_frame : list (nat * list fl) :=
  let returns := c_returns in
  let rsi := c_rsi_norm in
  let atr := c_atr_norm in
  let volatility_breakout := c_volatility_breakout in
  let trend_strength := c_trend_strength in
  let candle_pattern := c_candle_pattern in
  col n (fun i =>
    (i, [ at_ returns i; at_ rsi i; at_ atr i; at_ volatility_breakout i;
          at_ trend_strength i; at_ candle_pattern i ])).

End Indicators.

Definition row_defined (r : nat * list fl) : bool :=
  forallb (fun x => negb (isnan x)) (snd r).

(** [features_df.dropna()] *)
Definition dropna (frame : list (nat * list fl)) : list (nat * list fl) :=
  filter row_defined frame.

Definition lookback : nat := Nat.max 20 atr_period.

(** [features_df.dropna().iloc[lookback:]] *)
Definition trimmed_frame (data : list Bar) : list (nat * list fl) :=
  skipn lookback (dropna (full_frame data)).

(** [index.is_unique]: no label occurs twice. *)
Fixpoint is_unique (index : list Z) : bool :=
  match index with
  | [] => true
  | t :: rest => negb (existsb (Z.eqb t) rest) && is_unique rest
  end.

(** Values of a column at the kept positions. *)
Definition take_rows {A : Type} (xs : list A) (d : A) (pos : list nat) : list A :=
  map (fun i => nth i xs d) pos.

(** [_preprocess_data(data)].  The rows are kept by position; pandas
    looks them up by label, [data.index.get_indexer(valid_indices)],
    which raises on a table whose index repeats a timestamp. *)
Definition _preprocess_data (data : list Bar) : result Preprocessed :=
  match data with
  | [] => Raise IndexError
  | b0 :: _ =>
      let kept := trimmed_frame data in
      if (length kept <? 100)%nat then Raise (InsufficientData (length kept))
      else if negb (is_unique (map bar_time data)) then Raise InvalidIndexError
      else
        let valid_positions := map fst kept in
        let atr := take_rows (c_atr data) NaN valid_positions in
        let rows := take_rows data b0 valid_positions in
        Ok (mkPreprocessed (map snd kept) atr
              (mkPrices (map bar_close rows) (map bar_high rows)
                 (map bar_low rows) (map bar_spread rows) atr)
              (map bar_time rows))
  end.

(** [TradingEnv(data, initial_balance, balance_per_lot, random_start)] *)
Definition TradingEnv_init (data : list Bar) (initial_balance : Q)
    (balance_per_lot : Q) (random_start : bool) : result TradingEnv :=
  p <- _preprocess_data data ;;
  Ok (mkEnv (features_df p) (pre_prices p) (valid_indices p)
        (length (features_df p)) balance_per_lot random_start initial_balance
        0 initial_balance initial_balance initial_balance
        [] None 0 0 0 0 0 (mkMetrics 0 0 0 0)).

End Pipeline.

(** A computable stand-in for the square root, exact to eight decimals,
    for running the pipeline on concrete tables. *)
Definition sqrt8 (q : Q) : Q :=
  inject_Z (Z.sqrt (Qfloor (q * 10000000000000000))) / 100000000.

(** * Evaluation and scheduling around the engine (train_ppo.py)

    The callbacks drive the engine through [reset] and [step] and read
    its attributes.  The policy is not modelled: [predict] is any
    function from an observation and a recurrent state to an action
    and a recurrent state.  A [while] loop takes a bound on its
    iterations, [None] standing for a loop that has not ended within
    it. *)

(** The dictionary [_run_eval_episode] returns. *)
Record EvalMetrics : Type := mkEvalMetrics {
  m_return : Q;
  m_max_drawdown : Q;
  m_reward : Q;
  m_win_rate : Q;
  m_avg_profit : Q;
  m_avg_loss : Q;
  m_balance : Q;
  m_trades : list Trade;
  m_current_direction : Z
}.

Section Evaluation.

Variable LstmState : Type.
Variable predict :
  list fl -> option LstmState -> Z * option LstmState.

(** The [while not done] loop of [_run_eval_episode]; returns the
    engine, [max_balance] and [episode_reward] it ends with. *)
Fixpoint eval_loop (fuel : nat) (env : TradingEnv) (last_obs : list fl)
    (lstm_states : option LstmState) (max_balance episode_reward : Q)
  : option (result (TradingEnv * Q * Q)) :=
  match fuel with
  | O => None
  | S fuel =>
      let '(action, lstm_states) := predict last_obs lstm_states in
      match step env action with
      | Raise e => Some (Raise e)
      | Ok (env, r) =>
          let done := terminated r || truncated r in
          let episode_reward := episode_reward + step_reward r in
          let running_balance := balance env in
          let max_balance := py_max max_balance running_balance in
          if done then Some (Ok (env, max_balance, episode_reward))
          else eval_loop fuel env (obs r) lstm_states max_balance
                 episode_reward
      end
  end.

(** [_run_eval_episode(env)]; [entropy] feeds the engine's [reset]. *)
Definition _run_eval_episode (fuel : nat) (env : TradingEnv) (entropy : nat)
  : option (result (TradingEnv * EvalMetrics)) :=
  match reset env entropy with
  | Raise e => Some (Raise e)
  | Ok (env, obs) =>
      match eval_loop fuel env obs None (initial_balance env) 0 with
      | None => None
      | Some (Raise e) => Some (Raise e)
      | Some (Ok (env, max_balance, episode_reward)) =>
          let running_balance := balance env in
          Some
            (total_return <-
               py_div (running_balance - initial_balance env)
                 (initial_balance env) ;;
             max_drawdown <-
               (if Qltb (initial_balance env) max_balance
                then py_div (max_balance - running_balance) max_balance
                else Ok 0) ;;
             let trade_metrics := trade_metrics env in
             Ok (env,
                 mkEvalMetrics total_return max_drawdown episode_reward
                   (win_rate trade_metrics) (avg_profit trade_metrics)
                   (avg_loss trade_metrics) running_balance (trades env)
                   (current_direction trade_metrics)))
      end
  end.

End Evaluation.

(** [_calculate_trade_quality(metrics)] *)
Definition _calculate_trade_quality (metrics : EvalMetrics) : result Q :=
  let win_rate_score := m_win_rate metrics in
  profit_factor <-
    py_div (py_max 0 (m_avg_profit metrics))
      (Qabs (m_avg_loss metrics) + (1 # 100000000)) ;;
  let drawdown_penalty := py_max 0 (1 - m_max_drawdown metrics * 2) in
  Ok (win_rate_score * (35 # 100)
      + py_min profit_factor 4 / 4 * (45 # 100)
      + drawdown_penalty * (2 # 10)).

(** The [scores] and the result of [_evaluate_performance]. *)
Record Scores : Type := mkScores {
  consistency : Q;
  val_quality : Q;
  combined_quality : Q;
  validation_quality : Q
}.

Record Performance : Type := mkPerformance {
  validation : EvalMetrics;
  combined : EvalMetrics;
  scores : Scores
}.

(** [_evaluate_performance()] once the two episodes have been run. *)
Definition performance_of (val_metrics combined_metrics : EvalMetrics)
  : result Performance :=
  consistency_score <-
    py_div (m_return val_metrics)
      (m_return combined_metrics + (1 # 100000000)) ;;
  val_quality <- _calculate_trade_quality val_metrics ;;
  combined_quality <- _calculate_trade_quality combined_metrics ;;
  Ok (mkPerformance val_metrics combined_metrics
        (mkScores consistency_score val_quality combined_quality val_quality)).

Section Performance.

Variable LstmState : Type.
Variable predict :
  list fl -> option LstmState -> Z * option LstmState.

(** [_evaluate_performance()]: an episode on the validation engine,
    one on the combined engine, then the scores. *)
Definition _evaluate_performance (fuel : nat)
    (eval_env combined_env : TradingEnv) (entropy : nat)
  : option (result (TradingEnv * TradingEnv * Performance)) :=
  match _run_eval_episode predict fuel eval_env entropy with
  | None => None
  | Some (Raise e) => Some (Raise e)
  | Some (Ok (eval_env, val_metrics)) =>
      match _run_eval_episode predict fuel combined_env entropy with
      | None => None
      | Some (Raise e) => Some (Raise e)
      | Some (Ok (combined_env, combined_metrics)) =>
          Some (p <- performance_of val_metrics combined_metrics ;;
                Ok (eval_env, combined_env, p))
      end
  end.

End Performance.

(** The composite score of [_should_save_model]. *)
Definition composite_score (metrics : Performance) : Q :=
  m_return (combined metrics) * (4 # 10)
  + - m_max_drawdown (combined metrics) * (3 # 10)
  + consistency (scores metrics) * (2 # 10)
  + combined_quality (scores metrics) * (1 # 10).

(** [self.best_score] and [self.best_metrics]; [None] is the initial
    minus infinity, with the empty dictionary. *)
Definition Best : Type := option (Q * Performance).

(** [_should_save_model(metrics)]: the answer and the new best. *)
Definition _should_save_model (best : Best) (metrics : Performance)
  : bool * Best :=
  let score := composite_score metrics in
  match best with
  | None => (true, Some (score, metrics))
  | Some (best_score, _) =>
      if Qltb best_score score then (true, Some (score, metrics))
      else (false, best)
  end.

(** The drawdown replay of [UnifiedEvalCallback._on_step] over the
    engine's trade history: the running balance, its peak and
    [period_max_drawdown]. *)
Definition replay_step (acc : Q * Q * Q) (trade : Trade) : Q * Q * Q :=
  let '(running_balance, max_balance, period_max_drawdown) := acc in
  let running_balance := running_balance + pnl trade in
  let max_balance := py_max max_balance running_balance in
  if Qltb 0 max_balance then
    let current_drawdown := (max_balance - running_balance) / max_balance in
    (running_balance, max_balance,
     py_max period_max_drawdown current_drawdown)
  else (running_balance, max_balance, period_max_drawdown).

Definition replay_drawdown (eval_env : TradingEnv) : Q * Q * Q :=
  fold_left replay_step (trades eval_env)
    (initial_balance eval_env, initial_balance eval_env, 0).

(** The exploration schedule of [CustomEpsilonCallback]. *)
Record EpsilonCallback : Type := mkEpsilonCallback {
  start_eps : Q;
  end_eps : Q;
  decay_timesteps : Z
}.

(** [CustomEpsilonCallback(start_eps, end_eps, decay_timesteps)] *)
Definition CustomEpsilonCallback (start_eps end_eps : Q) (decay_timesteps : Z)
  : EpsilonCallback :=
  mkEpsilonCallback start_eps end_eps
    (if (40000 <? decay_timesteps)%Z then 40000%Z else decay_timesteps).

(** The rate [_on_step] computes at [num_timesteps], over exact
    rationals: in double arithmetic [start + 1.0 * (end - start)] can
    fall a rounding unit short of [end]. *)
Definition current_eps (cb : EpsilonCallback) (num_timesteps : Z) : result Q :=
  ratio <- py_div (inject_Z num_timesteps) (inject_Z (decay_timesteps cb)) ;;
  let progress := py_min 1 ratio in
  Ok (start_eps cb + progress * (end_eps cb - start_eps cb)).

(** One pass of the [while] loop of [train_walk_forward]: the rows it
    trains and validates on. *)
Record Window : Type := mkWindow {
  w_iteration : Z;
  w_training_start : Z;
  w_train_end : Z;
  w_val_end : Z
}.

(** The windows [train_walk_forward] visits from [training_start] on,
    every pass of the loop body having returned. *)
Fixpoint walk_forward_windows (fuel : nat)
    (total_periods initial_window step_size training_start : Z)
  : option (result (list Window)) :=
  match fuel with
  | O => None
  | S fuel =>
      if (training_start + initial_window + step_size <=? total_periods)%Z
      then
        if (step_size =? 0)%Z then Some (Raise ZeroDivisionError)
        else
          let iteration := (training_start / step_size)%Z in
          let train_end := (training_start + initial_window)%Z in
          let val_end :=
            (if (total_periods <? train_end + step_size)%Z
             then total_periods else train_end + step_size)%Z in
          match walk_forward_windows fuel total_periods initial_window
                  step_size (training_start + step_size)%Z with
          | Some (Ok ws) =>
              Some (Ok (mkWindow iteration training_start train_end val_end
                        :: ws))
          | other => other
          end
      else Some (Ok [])
  end.

(** Closed form of the schedule: [k] windows from [start] on, each
    shifted by [step_size] from the one before. *)
Definition windows_from (initial_window step_size start : Z) (k : nat)
  : list Window :=
  map (fun j =>
         let ts := (start + Z.of_nat j * step_size)%Z in
         mkWindow (ts / step_size)%Z ts (ts + initial_window)%Z
           (ts + initial_window + step_size)%Z)
    (seq 0 k).

(** [data.iloc[start:stop]] for bounds that are not negative. *)
Definition iloc {A : Type} (data : list A) (start stop : Z) : list A :=
  firstn (Z.to_nat (stop - start)) (skipn (Z.to_nat start) data).

(** * One cycle of the live driver (bot.py)

    [TradingBot.process_trading_cycle] calls the data fetcher, the
    model and the trade executor, which are not modelled: a cycle takes
    what each call returns, or the fact that it raised, as its input.
    Times are in seconds, the timeframe in minutes.  The method catches
    every exception and logs it. *)

(** What a call into a collaborator does. *)
Inductive outcome (A : Type) : Type :=
| Returns (a : A)
| Throws.
Arguments Returns {A} a.
Arguments Throws {A}.

Section Bot.

Variables MarketData Prediction LstmStates : Type.

(** [self.last_bar_index] and [self.lstm_states]. *)
Record TradingBot : Type := mkBot {
  last_bar_index : option Q;
  lstm_states : option LstmStates
}.

(** What the cycle logs and to whom it hands a prediction. *)
Inductive BotEvent : Type :=
| NewBarDetected (time : Q)
| FetchFailedWarning
| GapDetected (time_diff : Q)
| PredictionLogged (p : Prediction)
| TradeExecuted (p : Prediction)
| ExceptionLogged.

(** The calls of one cycle: [fetch_current_bar()] (the index of the
    frame it returns, or [None]), [fetch_data()], [predict_single(data)]
    with the model's recurrent states read after it, and
    [execute_trade(prediction)]. *)
Record Collaborators : Type := mkCollaborators {
  fetch_current_bar : outcome (option (list Q));
  fetch_data : outcome (option MarketData);
  predict_single : MarketData -> outcome (Prediction * option LstmStates);
  execute_trade : Prediction -> outcome unit
}.

Definition same_bar (last : option Q) (t : Q) : bool :=
  match last with
  | Some l => Qeqb l t
  | None => false
  end.

(** [process_trading_cycle()], for a timeframe of
    [MT5_TIMEFRAME_MINUTES] minutes. *)
Definition process_trading_cycle (MT5_TIMEFRAME_MINUTES : Q)
    (bot : TradingBot) (c : Collaborators)
  : TradingBot * list BotEvent :=
  match fetch_current_bar c with
  | Throws => (bot, [ExceptionLogged])
  | Returns None => (bot, [])
  | Returns (Some index) =>
      match index with
      | [] => (bot, [ExceptionLogged])
      | _ :: _ =>
          let current := List.last index 0 in
          if same_bar (last_bar_index bot) current then (bot, [])
          else
            let log := [NewBarDetected current] in
            let bot := mkBot (Some current) (lstm_states bot) in
            match fetch_data c with
            | Throws => (bot, log ++ [ExceptionLogged])
            | Returns None => (bot, log ++ [FetchFailedWarning])
            | Returns (Some data) =>
                let '(bot, log) :=
                  match last_bar_index bot with
                  | Some last_bar =>
                      let expected_time :=
                        last_bar + MT5_TIMEFRAME_MINUTES * 60 in
                      let time_diff := Qabs (current - expected_time) in
                      if Qltb (MT5_TIMEFRAME_MINUTES * 2 * 60) time_diff
                      then (mkBot (last_bar_index bot) None,
                            log ++ [GapDetected time_diff])
                      else (bot, log)
                  | None => (bot, log)
                  end in
                match predict_single c data with
                | Throws => (bot, log ++ [ExceptionLogged])
                | Returns (prediction, states) =>
                    let bot := mkBot (last_bar_index bot) states in
                    let log := log ++ [PredictionLogged prediction] in
                    match execute_trade c prediction with
                    | Throws => (bot, log ++ [ExceptionLogged])
                    | Returns _ => (bot, log ++ [TradeExecuted prediction])
                    end
                end
            end
      end
  end.

End Bot.

(** ** Vocabulary of the statements *)

(** The position created by an open on a flat book. *)
Definition opened_position (s : TradingEnv) (dir : Z) (sp : Q)
    (price : Q) (atr : fl) (time : Z) : Position :=
  {| direction := if (dir =? 1)%Z then 1%Z else (-1)%Z;
     entry_price := price + (if (dir =? 1)%Z then sp else - sp);
     lot_size :=
       py_max MIN_LOTS
         (py_min MAX_LOTS (py_round2 (balance s / BALANCE_PER_LOT s)));
     entry_time := time;
     entry_step := current_step s;
     entry_atr := atr;
     current_profit_pips := 0 |}.

(** The record appended when position [pos] is closed at [price], the
    cursor being at [cursor]. *)
Definition closed_trade (cursor : nat) (pos : Position) (price : Q)
    (time : Z) : Trade :=
  {| t_position := pos;
     exit_price := price;
     exit_step := cursor;
     exit_time := time;
     profit_pips := profit_points_of pos price / PIP_VALUE;
     pnl := profit_points_of pos price * lot_size pos;
     hold_time := (Z.of_nat cursor - Z.of_nat (entry_step pos))%Z |}.

(** The float [_close_position] returns for trade [t]. *)
Definition hold_scaled_reward (t : Trade) (initial_balance : Q) : Q :=
  pnl t / initial_balance * 100 * py_min 1 (inject_Z (hold_time t) / 20).

(** State left by closing [pos] as trade [t]. *)
Definition after_close (s : TradingEnv) (t : Trade) : TradingEnv :=
  update_trade_metrics
    (set_trade_metrics (set_current_direction 0 (trade_metrics s))
       (set_current_position None
          (set_balance (balance s + pnl t)
             (set_trades (trades s ++ [t])
                (if Qltb 0 (pnl t) then set_win_count (win_count s + 1) s
                 else set_loss_count (loss_count s + 1) s))))).

(** The bookkeeping [step] does before it looks at the action. *)
Definition advance (s : TradingEnv) : TradingEnv :=
  set_current_step (current_step s + 1)
    (set_episode_steps (episode_steps s + 1)
       (set_max_balance (py_max (balance s) (max_balance s))
          (set_previous_balance (balance s) s))).

(** Every attribute but the open position and the trade metrics. *)
Definition account_of (s : TradingEnv) :=
  (raw_data s, prices s, original_index s, data_length s, BALANCE_PER_LOT s,
   random_start s, initial_balance s, current_step s, balance s,
   max_balance s, previous_balance s, trades s, win_count s, loss_count s,
   reward s, completed_episodes s, episode_steps s).

(** The open position without its running pip figure. *)
Definition position_core (s : TradingEnv) : option Position :=
  option_map (set_current_profit_pips 0) (current_position s).

(** Number of open positions. *)
Definition open_positions (s : TradingEnv) : nat :=
  match current_position s with Some _ => 1 | None => 0 end.

(** The ledger invariant: every closed trade was counted once. *)
Definition ledger_balanced (s : TradingEnv) : Prop :=
  (win_count s + loss_count s = length (trades s))%nat.

(** States an engine can be in: after construction, after a reset, after
    a step that returned. *)
Inductive reachable (sqrtQ : Q -> Q) : TradingEnv -> Prop :=
| reach_init data ib bpl rs s :
    TradingEnv_init sqrtQ data ib bpl rs = Ok s -> reachable sqrtQ s
| reach_reset s entropy s' o :
    reachable sqrtQ s -> reset s entropy = Ok (s', o) -> reachable sqrtQ s'
| reach_step s a s' r :
    reachable sqrtQ s -> step s a = Ok (s', r) -> reachable sqrtQ s'.

(** Sample tables: candles one unit either side of the close. *)
Definition mk_bars (price spread : nat -> Q) (n : nat) : list Bar :=
  col n (fun i =>
    mkBar (Z.of_nat i) (price i) (price i + 1) (price i - 1) (price i)
      (spread i)).

(** A zig-zag market between 100 and 106, spreads of 2 to 4 points. *)
Definition zigzag_price (i : nat) : Q := inject_Z (Z.of_nat (100 + (3 * i) mod 7)).
Definition zigzag_spread (i : nat) : Q := inject_Z (Z.of_nat (2 + i mod 3)).
Definition zigzag (n : nat) : list Bar := mk_bars zigzag_price zigzag_spread n.

(** A steadily rising market. *)
Definition rising (n : nat) : list Bar :=
  mk_bars (fun i => inject_Z (Z.of_nat (100 + i))) (fun _ => 2) n.

(** A market that falls from 150 to 100 at row 35, with no spread. *)
Definition crash (n : nat) : list Bar :=
  mk_bars (fun i => if (i <? 35)%nat then 150 else 100) (fun _ => 0) n.

(** The engine built on a table, or a blank engine when construction
    fails. *)
Definition blank_env : TradingEnv :=
  mkEnv [] (mkPrices [] [] [] [] []) [] 0 0 false 0 0 0 0 0 [] None 0 0 0 0 0
    (mkMetrics 0 0 0 0).
Definition env_of (data : list Bar) (ib bpl : Q) (rs : bool) : TradingEnv :=
  match TradingEnv_init sqrt8 data ib bpl rs with
  | Ok s => s
  | Raise _ => blank_env
  end.

(** The state after a sequence of actions, or the last state reached
    before a step raised. *)
Fixpoint run (s : TradingEnv) (actions : list Z) : TradingEnv :=
  match actions with
  | [] => s
  | a :: rest =>
      match step s a with
      | Ok (s', _) => run s' rest
      | Raise _ => s
      end
  end.

(** The state and the result of one more step (the state itself and an
    empty result when the step raises). *)
Definition blank_result : StepResult :=
  mkStepResult [] 0 false false (mkInfo 0 0 0 None (mkMetrics 0 0 0 0)).
Definition result_of (s : TradingEnv) (a : Z) : StepResult :=
  match step s a with
  | Ok (_, r) => r
  | Raise _ => blank_result
  end.

(** Sample engines, evaluated once. *)
Definition zigzag_env : TradingEnv :=
  Eval vm_compute in env_of (zigzag 133) 10000 1000 false.
Definition crash_env : TradingEnv :=
  Eval vm_compute in env_of (crash 133) 10000 100 false.

(** The attributes no ledger operation assigns. *)
Definition static_of (s : TradingEnv) :=
  (raw_data s, prices s, original_index s, data_length s, BALANCE_PER_LOT s,
   random_start s, initial_balance s, completed_episodes s, current_step s,
   episode_steps s, previous_balance s, max_balance s).

(** The ledger proper. *)
Definition ledger_of (s : TradingEnv) :=
  (trades s, balance s, win_count s, loss_count s).

(** The state on which [step] evaluates the terminal conditions. *)
Definition mid_of (s : TradingEnv) (a : Z) : TradingEnv :=
  match step_apply s a with
  | Ok (sm, _) => sm
  | Raise _ => s
  end.

(** The value of a computation that returned, [d] when it raised. *)
Definition value_of {A : Type} (d : A) (m : result A) : A :=
  match m with
  | Ok x => x
  | Raise _ => d
  end.

(** Zig-zag engines with random starts, on 150 bars and on the 133 bars
    construction needs at least. *)
Definition random_env : TradingEnv :=
  Eval vm_compute in env_of (zigzag 150) 10000 1000 true.
Definition minimal_random_env : TradingEnv :=
  Eval vm_compute in env_of (zigzag 133) 10000 1000 true.

(** Rows of the untrimmed frame holding an undefined value. *)
Definition undefined_rows (sqrtQ : Q -> Q) (data : list Bar) : nat :=
  length (filter (fun r => negb (row_defined r)) (full_frame sqrtQ data)).

(** The arrays cover the cursor and the two divisors are not zero: what
    the ledger operations need in order to return. *)
Definition ready (s : TradingEnv) : Prop :=
  (current_step s < length (raw_data s))%nat /\
  (current_step s < length (p_close (prices s)))%nat /\
  (current_step s < length (p_atr (prices s)))%nat /\
  (current_step s < length (original_index s))%nat /\
  ~ initial_balance s == 0 /\
  ~ BALANCE_PER_LOT s == 0.

(** An engine whose arrays are aligned on [data_length] and whose
    balances are positive. *)
Definition well_formed (s : TradingEnv) : Prop :=
  length (raw_data s) = data_length s /\
  length (p_close (prices s)) = data_length s /\
  length (p_spread (prices s)) = data_length s /\
  length (p_atr (prices s)) = data_length s /\
  length (original_index s) = data_length s /\
  0 < initial_balance s /\
  0 < max_balance s /\
  ~ BALANCE_PER_LOT s == 0.

(** A finite cell whose value satisfies [P]. *)
Definition fsat (P : Q -> Prop) (x : fl) : Prop :=
  exists q, x = Fin q /\ P q.

(** A cell that is undefined or finite with a value satisfying [P]. *)
Definition nan_or (P : Q -> Prop) (x : fl) : Prop :=
  x = NaN \/ fsat P x.

Definition any_value (q : Q) : Prop := True.
Definition nonneg (q : Q) : Prop := 0 <= q.
Definition nonzero (q : Q) : Prop := ~ q == 0.

(** A bar of a well-formed table: a non-zero close inside the candle's
    range, like the open. *)
Definition clean_bar (b : Bar) : Prop :=
  ~ bar_close b == 0 /\
  bar_low b <= bar_open b /\ bar_low b <= bar_close b /\
  bar_open b <= bar_high b /\ bar_close b <= bar_high b.

(** ** Vocabulary of the ledger invariants *)

(** Direction of the open position, 0 on a flat book. *)
Definition open_direction (s : TradingEnv) : Z :=
  match current_position s with
  | Some p => direction p
  | None => 0%Z
  end.

(** The trade metrics a history [ts] determines, for a book whose open
    position has direction [dir]. *)
Definition metrics_of (ts : list Trade) (dir : Z) : TradeMetrics :=
  match ts with
  | [] => mkMetrics 0 0 0 dir
  | _ => mkMetrics (win_rate_of ts) (avg_profit_of ts) (avg_loss_of ts) dir
  end.

(** A position that can have been opened at or before row [cursor]. *)
Definition position_ok (cursor : nat) (p : Position) : Prop :=
  (direction p = 1 \/ direction p = -1)%Z /\
  MIN_LOTS <= lot_size p <= MAX_LOTS /\
  (entry_step p <= cursor)%nat.

(** A closed trade whose exit fields follow from its entry fields. *)
Definition trade_ok (t : Trade) : Prop :=
  position_ok (exit_step t) (t_position t) /\
  hold_time t
  = (Z.of_nat (exit_step t) - Z.of_nat (entry_step (t_position t)))%Z /\
  (0 <= hold_time t)%Z /\
  pnl t ==
    (exit_price t - entry_price (t_position t)) * lot_size (t_position t)
    * inject_Z (direction (t_position t)) /\
  profit_pips t * PIP_VALUE * lot_size (t_position t) == pnl t.

(** What the ledger operations keep true of an engine. *)
Definition book_invariant (s : TradingEnv) : Prop :=
  win_count s = length (winning_trades (trades s)) /\
  loss_count s = length (losing_trades (trades s)) /\
  balance s == initial_balance s + Qsum (map pnl (trades s)) /\
  initial_balance s <= max_balance s /\
  trade_metrics s = metrics_of (trades s) (open_direction s) /\
  Forall trade_ok (trades s) /\
  (forall p, current_position s = Some p -> position_ok (current_step s) p).

(** Trade [t2] was entered after trade [t1] had been closed. *)
Definition follows (t1 t2 : Trade) : Prop :=
  (exit_step t1 < entry_step (t_position t2))%nat.

(** The history is in the order of the rows, without overlap; every
    trade was closed before row [bound], and before the open position
    was entered. *)
Definition history_before (bound : nat) (s : TradingEnv) : Prop :=
  ForallOrdPairs follows (trades s) /\
  Forall (fun t => (exit_step t < bound)%nat) (trades s) /\
  (forall p, current_position s = Some p ->
     Forall (fun t => (exit_step t < entry_step p)%nat) (trades s)).

(** The history lies at or behind the cursor. *)
Definition chronological (s : TradingEnv) : Prop :=
  history_before (S (current_step s)) s.

(** What construction fixes: the tables and the three parameters. *)
Definition config_of (s : TradingEnv) :=
  (raw_data s, prices s, original_index s, data_length s, BALANCE_PER_LOT s,
   random_start s, initial_balance s).

(** Every attribute of an episode: all but the episode counter and the
    last reward. *)
Definition episode_of (s : TradingEnv) :=
  (config_of s, current_step s, balance s, max_balance s,
   previous_balance s, trades s, current_position s, win_count s,
   loss_count s, episode_steps s, trade_metrics s).

(** What a caller of [reset] can see of the outcome. *)
Definition reset_view (m : result (TradingEnv * list fl)) :=
  match m with
  | Ok (s, o) => Ok (episode_of s, o)
  | Raise e => Raise e
  end.

(** A computation that, if it raises, raises IndexError. *)
Definition only_index_error {A : Type} (m : result A) : Prop :=
  match m with
  | Ok _ => True
  | Raise e => e = IndexError
  end.

(** ** Vocabulary of the feature bounds *)

Definition within (lo hi : Q) (q : Q) : Prop := lo <= q <= hi.

(** Order of the extended line, on defined cells. *)
Definition fle (x y : fl) : Prop :=
  match x, y with
  | NaN, _ | _, NaN => False
  | NInf, _ | _, PInf => True
  | Fin a, Fin b => a <= b
  | _, _ => False
  end.

(** A feature row in the bounds its columns are documented with:
    returns, rsi, atr, volatility_breakout, trend_strength,
    candle_pattern. *)
Definition feature_row_ok (row : list fl) : Prop :=
  exists r0 r1 r2 r3 r4 r5,
    row = [Fin r0; Fin r1; Fin r2; Fin r3; Fin r4; Fin r5] /\
    within (- (1 # 10)) (1 # 10) r0 /\
    within (-1) 1 r1 /\
    within (-1) 1 r2 /\
    within 0 1 r3 /\
    within (-1) 1 r4 /\
    within (-1) 1 r5.


(** A sample engine two rows before the end of its table. *)
Definition late_env : TradingEnv :=
  Eval vm_compute in run zigzag_env (repeat 0%Z 98).

(** The answers of successive calls of [_should_save_model], and the
    best it ends with. *)
Fixpoint save_decisions (best : Best) (ms : list Performance)
  : list bool * Best :=
  match ms with
  | [] => ([], best)
  | m :: rest =>
      let '(saved, best) := _should_save_model best m in
      let '(flags, best) := save_decisions best rest in
      (saved :: flags, best)
  end.

(** The score a best stands for; [None] is below every score. *)
Definition below_best (best : Best) (x : Q) : Prop :=
  match best with
  | None => False
  | Some (b, _) => x <= b
  end.

(** A best whose score is that of the metrics stored with it. *)
Definition best_consistent (best : Best) : Prop :=
  match best with
  | None => True
  | Some (b, p) => b = composite_score p
  end.

(** ** Vocabulary of the pricing invariant *)

(** The lot size [_execute_trade] gives for a balance. *)
Definition lots_for (balance bpl : Q) : Q :=
  py_max MIN_LOTS (py_min MAX_LOTS (py_round2 (balance / bpl))).

(** A position entered at the prices of the table: the close of its
    entry row, moved by the scaled spread of the row before. *)
Definition priced_position (pr : Prices) (p : Position) : Prop :=
  (1 <= entry_step p)%nat /\
  exists c sp,
    nth_error (p_close pr) (entry_step p) = Some c /\
    nth_error (p_spread pr) (entry_step p - 1) = Some sp /\
    entry_price p
    = c + (if (direction p =? 1)%Z then sp * POINT_VALUE
           else - (sp * POINT_VALUE)).

(** A trade entered at the prices of the table and closed at the close
    of its exit row. *)
Definition priced_trade (pr : Prices) (t : Trade) : Prop :=
  priced_position pr (t_position t) /\
  nth_error (p_close pr) (exit_step t) = Some (exit_price t).

Definition priced (s : TradingEnv) : Prop :=
  Forall (priced_trade (prices s)) (trades s) /\
  (forall p, current_position s = Some p ->
     priced_position (prices s) p /\
     lot_size p = lots_for (balance s) (BALANCE_PER_LOT s)).

(** The seventh entry of an observation: the unrealised P/L of the open
    position at the close under the cursor, over the initial balance,
    clipped to [-1, 1]; 0 on a flat book. *)
Definition unrealized_norm (s : TradingEnv) : Q :=
  match current_position s with
  | None => 0
  | Some p =>
      Qclip
        (profit_points_of p (nth (current_step s) (p_close (prices s)) 0)
         * lot_size p / initial_balance s)
        (-1) 1
  end.

(** * Properties *)

Unset Implicit Arguments.

(** ** The sample engines are the ones construction builds *)

Lemma zigzag_env_built :
  TradingEnv_init sqrt8 (zigzag 133) 10000 1000 false = Ok zigzag_env.
Proof. vm_compute. reflexivity. Qed.

Lemma crash_env_built :
  TradingEnv_init sqrt8 (crash 133) 10000 100 false = Ok crash_env.
Proof. vm_compute. reflexivity. Qed.

Lemma random_env_built :
  TradingEnv_init sqrt8 (zigzag 150) 10000 1000 true = Ok random_env.
Proof. vm_compute. reflexivity. Qed.

Lemma minimal_random_env_built :
  TradingEnv_init sqrt8 (zigzag 133) 10000 1000 true = Ok minimal_random_env.
Proof. vm_compute. reflexivity. Qed.

(** ** Generic lemmas *)

Lemma bind_Ok {A B : Type} (m : result A) (k : A -> result B) (b : B) :
  bind m k = Ok b -> exists a, m = Ok a /\ k a = Ok b.
Proof.
  destruct m as [a|e]; simpl; intros H; [eauto | discriminate].
Qed.

Lemma getitem_Ok {A : Type} (xs : list A) (i : nat) (x : A) :
  getitem xs i = Ok x -> nth_error xs i = Some x.
Proof.
  unfold getitem. destruct (nth_error xs i); congruence.
Qed.

Lemma getitem_lt {A : Type} (xs : list A) (i : nat) :
  (i < length xs)%nat -> exists x, getitem xs i = Ok x.
Proof.
  intros H. unfold getitem.
  destruct (nth_error xs i) eqn:E; [eauto|].
  apply nth_error_None in E. lia.
Qed.

Lemma Qltb_lt (a b : Q) : Qltb a b = true <-> a < b.
Proof.
  unfold Qltb. rewrite Qlt_alt. destruct (a ?= b); split; congruence.
Qed.

Lemma Qltb_ge (a b : Q) : Qltb a b = false <-> b <= a.
Proof.
  unfold Qltb. rewrite (Qle_alt b a), <- (Qcompare_antisym a b).
  destruct (a ?= b); simpl; split; congruence.
Qed.

Lemma Qleb_le (a b : Q) : Qleb a b = true <-> a <= b.
Proof.
  unfold Qleb. rewrite Qle_alt. destruct (a ?= b); split; congruence.
Qed.

Lemma Qleb_gt (a b : Q) : Qleb a b = false <-> b < a.
Proof.
  unfold Qleb. rewrite (Qlt_alt b a), <- (Qcompare_antisym a b).
  destruct (a ?= b); simpl; split; congruence.
Qed.

Lemma Qeqb_eq (a b : Q) : Qeqb a b = true <-> a == b.
Proof.
  unfold Qeqb. rewrite Qeq_alt. destruct (a ?= b); split; congruence.
Qed.

Lemma Qeqb_neq (a b : Q) : Qeqb a b = false <-> ~ a == b.
Proof.
  rewrite <- Qeqb_eq. destruct (Qeqb a b); split; congruence.
Qed.

Lemma py_div_Ok (a b q : Q) :
  py_div a b = Ok q -> ~ b == 0 /\ q = a / b.
Proof.
  unfold py_div. destruct (Qeqb b 0) eqn:E; [discriminate|].
  intros H. apply Qeqb_neq in E. split; congruence.
Qed.

Lemma py_div_nonzero (a b : Q) : ~ b == 0 -> py_div a b = Ok (a / b).
Proof.
  intros H. unfold py_div. apply Qeqb_neq in H. now rewrite H.
Qed.

(** Inversion of a successful run of the error monad. *)
Ltac inv_ok :=
  repeat match goal with
  | H : bind _ _ = Ok _ |- _ =>
      let a := fresh "a" in
      let Ha := fresh "Ha" in
      apply bind_Ok in H; destruct H as [a [Ha H]]
  | H : Ok _ = Ok _ |- _ => inversion H; subst; clear H
  | H : Raise _ = Ok _ |- _ => discriminate H
  | H : (let '(_, _) := ?p in _) = Ok _ |- _ => destruct p
  | H : match ?p with pair _ _ => _ end = Ok _ |- _ => destruct p
  end.

(** ** The ledger operations, case by case *)

(** Opening while a position exists changes nothing. *)
Lemma execute_trade_open (s : TradingEnv) (dir : Z) (sp : Q) (p : Position) :
  current_position s = Some p -> _execute_trade s dir sp = Ok (s, 0).
Proof.
  intros H. unfold _execute_trade. now rewrite H.
Qed.


Lemma execute_trade_flat (s s' : TradingEnv) (dir : Z) (sp r : Q) :
  current_position s = None ->
  _execute_trade s dir sp = Ok (s', r) ->
  exists price atr time,
    nth_error (p_close (prices s)) (current_step s) = Some price /\
    nth_error (p_atr (prices s)) (current_step s) = Some atr /\
    nth_error (original_index s) (current_step s) = Some time /\
    ~ BALANCE_PER_LOT s == 0 /\
    r = 0 /\
    s' = set_trade_metrics
           (set_current_direction (if (dir =? 1)%Z then 1%Z else (-1)%Z)
              (trade_metrics s))
           (set_current_position
              (Some (opened_position s dir sp price atr time)) s).
Proof.
  intros Hflat H. unfold _execute_trade in H. rewrite Hflat in H.
  inv_ok.
  apply getitem_Ok in Ha, Ha0, Ha2. apply py_div_Ok in Ha1 as [Hb Hq].
  subst. exists a, a0, a2. repeat split; auto.
Qed.

(** Closing with nothing open: the fixed penalty, the state untouched. *)
Lemma close_position_flat (s : TradingEnv) :
  current_position s = None -> _close_position s = Ok (s, - (1 # 10)).
Proof.
  intros H. unfold _close_position. now rewrite H.
Qed.


Lemma close_position_open (s s' : TradingEnv) (pos : Position) (v : Q) :
  current_position s = Some pos ->
  _close_position s = Ok (s', v) ->
  exists price time,
    nth_error (p_close (prices s)) (current_step s) = Some price /\
    nth_error (original_index s) (current_step s) = Some time /\
    ~ initial_balance s == 0 /\
    s' = after_close s (closed_trade (current_step s) pos price time) /\
    v = hold_scaled_reward (closed_trade (current_step s) pos price time)
          (initial_balance s).
Proof.
  intros Hpos H. unfold _close_position in H. rewrite Hpos in H.
  inv_ok.
  apply getitem_Ok in Ha, Ha0. apply py_div_Ok in Ha1 as [Hb Hq].
  subst a1. exists a, a0.
  unfold after_close, closed_trade, hold_scaled_reward, update_trade_metrics
    in *.
  destruct (Qltb 0 _); cbn in *; destruct (trades s ++ _); cbn in *;
    repeat split; auto.
Qed.

Ltac fields H :=
  unfold account_of in H; cbn in H; injection H as ?F ?F ?F ?F ?F ?F ?F ?F ?F
    ?F ?F ?F ?F ?F ?F ?F ?F.

Lemma manage_position_spec (s s' : TradingEnv) (u : Q) :
  _manage_position s = Ok (s', u) ->
  account_of s' = account_of s /\
  trade_metrics s' = trade_metrics s /\
  position_core s' = position_core s /\
  (current_position s = None -> s' = s /\ u = 0).
Proof.
  unfold _manage_position, position_core. intros H.
  destruct (current_position s) as [pos|] eqn:E.
  - inv_ok. cbn. do 3 (split; [reflexivity|]). intros; discriminate.
  - inv_ok. rewrite E. auto.
Qed.

Lemma get_history_spec (s s' : TradingEnv) (o : list fl) :
  get_history s = Ok (s', o) ->
  account_of s' = account_of s /\
  trade_metrics s' = trade_metrics s /\
  position_core s' = position_core s /\
  (exists row, nth_error (raw_data s) (current_step s) = Some row) /\
  length o = S (length (nth (current_step s) (raw_data s) [])).
Proof.
  unfold get_history. intros H. inv_ok.
  pose proof (getitem_Ok _ _ _ Ha) as Hrow.
  assert (Hn : nth (current_step s) (raw_data s) [] = a)
    by now apply nth_error_nth.
  rewrite Hn.
  destruct (current_position s) as [pos|] eqn:E.
  - inv_ok. apply manage_position_spec in Ha0 as (A & B & C & _).
    rewrite length_app, Nat.add_comm. cbn. eauto 10.
  - inv_ok. rewrite length_app, Nat.add_comm. cbn. eauto 10.
Qed.

Lemma process_action_range (a : Z) :
  let k := _process_action a in (k = 0 \/ k = 1 \/ k = 2 \/ k = 3)%Z.
Proof.
  unfold _process_action. pose proof (Z.mod_pos_bound a 4). lia.
Qed.

(** What the action dispatch of [step] does to the advanced state. *)
Inductive dispatched (s : TradingEnv) (a : Z) (raw : Q) (s2 : TradingEnv)
  : Prop :=
| dispatch_hold :
    _process_action a = 0%Z -> s2 = advance s -> dispatched s a raw s2
| dispatch_open (r : Q) :
    (_process_action a = 1 \/ _process_action a = 2)%Z ->
    _execute_trade (advance s) (_process_action a) (raw * POINT_VALUE)
      = Ok (s2, r) ->
    dispatched s a raw s2
| dispatch_close (v : Q) :
    _process_action a = 3%Z ->
    _close_position (advance s) = Ok (s2, v) ->
    dispatched s a raw s2.

Lemma step_apply_spec (s sm : TradingEnv) (a : Z) (u : Q) :
  step_apply s a = Ok (sm, u) ->
  exists raw s2,
    nth_error (p_spread (prices s)) (current_step s) = Some raw /\
    dispatched s a raw s2 /\
    _manage_position s2 = Ok (sm, u).
Proof.
  unfold step_apply. intros H. inv_ok.
  apply getitem_Ok in Ha. exists a0, a1. split; [assumption|]. split; [|assumption].
  fold (advance s) in Ha0.
  destruct (process_action_range a) as [K|[K|[K|K]]]; cbv zeta in K;
    rewrite K in Ha0; cbn in Ha0; inv_ok.
  - now apply dispatch_hold.
  - eapply dispatch_open; [left; exact K|]. rewrite K. eassumption.
  - eapply dispatch_open; [right; exact K|]. rewrite K. eassumption.
  - eapply dispatch_close; eassumption.
Qed.

(** The forced liquidation of [step]. *)
Inductive liquidated (sm : TradingEnv) (d : Q) (sc : TradingEnv) : Prop :=
| liquidate_no :
    is_done sm d = false \/ current_position sm = None ->
    sc = sm -> liquidated sm d sc
| liquidate_yes (pos : Position) (v : Q) :
    is_done sm d = true ->
    current_position sm = Some pos ->
    _close_position sm = Ok (sc, v) ->
    liquidated sm d sc.

Lemma step_spec (s s' : TradingEnv) (a : Z) (r : StepResult) :
  step s a = Ok (s', r) ->
  exists sm u d sc,
    step_apply s a = Ok (sm, u) /\
    drawdown sm = Ok d /\
    terminated r = is_done sm d /\
    liquidated sm d sc /\
    ~ initial_balance sc == 0 /\
    step_reward r = (balance sc - previous_balance sc) / initial_balance sc /\
    account_of s' = account_of (set_reward (step_reward r) sc) /\
    trade_metrics s' = trade_metrics sc /\
    position_core s' = position_core sc.
Proof.
  unfold step. intros H. inv_ok.
  unfold calculate_reward in Ha2. apply py_div_Ok in Ha2 as [Hib ->].
  apply get_history_spec in Ha3 as (A & B & C & _).
  exists t, q, a0, a1. cbn.
  repeat split; try assumption.
  destruct (current_position t) as [pos|] eqn:E.
  - destruct (is_done t a0) eqn:D.
    + inv_ok. eapply liquidate_yes; eauto.
    + inv_ok. apply liquidate_no; auto.
  - inv_ok. apply liquidate_no; auto.
Qed.

(** ** The ledger invariant *)

Lemma after_close_fields (s : TradingEnv) (t : Trade) :
  balance (after_close s t) = balance s + pnl t /\
  trades (after_close s t) = trades s ++ [t] /\
  current_position (after_close s t) = None /\
  (win_count (after_close s t), loss_count (after_close s t)) =
    (if Qltb 0 (pnl t) then (win_count s + 1, loss_count s)
     else (win_count s, loss_count s + 1))%nat /\
  (raw_data (after_close s t), prices (after_close s t),
   original_index (after_close s t), data_length (after_close s t),
   BALANCE_PER_LOT (after_close s t), random_start (after_close s t),
   initial_balance (after_close s t), current_step (after_close s t),
   max_balance (after_close s t), previous_balance (after_close s t),
   reward (after_close s t), completed_episodes (after_close s t),
   episode_steps (after_close s t)) =
  (raw_data s, prices s, original_index s, data_length s,
   BALANCE_PER_LOT s, random_start s, initial_balance s, current_step s,
   max_balance s, previous_balance s, reward s, completed_episodes s,
   episode_steps s) /\
  trade_metrics (after_close s t) =
    mkMetrics (win_rate_of (trades s ++ [t])) (avg_profit_of (trades s ++ [t]))
      (avg_loss_of (trades s ++ [t])) 0.
Proof.
  unfold after_close, update_trade_metrics.
  destruct (Qltb 0 (pnl t)); cbn;
    (destruct (trades s ++ [t]) eqn:E;
     [ now destruct (trades s) | cbn; repeat split; reflexivity ]).
Qed.

Lemma ledger_balanced_account (s s' : TradingEnv) :
  account_of s' = account_of s -> ledger_balanced s -> ledger_balanced s'.
Proof.
  intros H. fields H. unfold ledger_balanced. congruence.
Qed.

Lemma ledger_balanced_advance (s : TradingEnv) :
  ledger_balanced s -> ledger_balanced (advance s).
Proof. exact (fun H => H). Qed.

Lemma ledger_balanced_execute (s s' : TradingEnv) (dir : Z) (sp r : Q) :
  _execute_trade s dir sp = Ok (s', r) ->
  ledger_balanced s -> ledger_balanced s'.
Proof.
  intros H. destruct (current_position s) as [p|] eqn:E.
  - rewrite (execute_trade_open s dir sp p E) in H. now inv_ok.
  - destruct (execute_trade_flat _ _ _ _ _ E H)
      as (? & ? & ? & _ & _ & _ & _ & _ & Hs').
    subst s'. exact (fun H => H).
Qed.

Lemma ledger_balanced_close (s s' : TradingEnv) (v : Q) :
  _close_position s = Ok (s', v) ->
  ledger_balanced s -> ledger_balanced s'.
Proof.
  intros H. destruct (current_position s) as [p|] eqn:E.
  - destruct (close_position_open _ _ _ _ E H)
      as (price & time & _ & _ & _ & Hs' & _).
    subst s'.
    destruct (after_close_fields s (closed_trade (current_step s) p price time))
      as (_ & Ht & _ & Hc & _).
    unfold ledger_balanced. rewrite Ht, length_app. cbn [length].
    destruct (Qltb 0 _); injection Hc as -> ->; lia.
  - rewrite (close_position_flat s E) in H. now inv_ok.
Qed.

Lemma ledger_balanced_step (s s' : TradingEnv) (a : Z) (r : StepResult) :
  step s a = Ok (s', r) -> ledger_balanced s -> ledger_balanced s'.
Proof.
  intros H Hs.
  apply step_spec in H as (sm & u & d & sc & Happ & _ & _ & Hliq & _ & _ & Hacc & _).
  apply step_apply_spec in Happ as (raw & s2 & _ & Hdis & Hman).
  apply (ledger_balanced_account _ _ Hacc).
  change (ledger_balanced sc).
  assert (H2 : ledger_balanced s2).
  { destruct Hdis as [_ ->|r0 _ He|v _ Hc].
    - now apply ledger_balanced_advance.
    - eapply ledger_balanced_execute; [eassumption|].
      now apply ledger_balanced_advance.
    - eapply ledger_balanced_close; [eassumption|].
      now apply ledger_balanced_advance. }
  assert (Hm : ledger_balanced sm).
  { apply manage_position_spec in Hman as (A & _).
    now apply (ledger_balanced_account _ _ A). }
  destruct Hliq as [_ ->|pos v _ _ Hc]; [assumption|].
  eapply ledger_balanced_close; eassumption.
Qed.

Lemma ledger_balanced_reset (s s' : TradingEnv) (e : nat) (o : list fl) :
  reset s e = Ok (s', o) -> ledger_balanced s'.
Proof.
  unfold reset. intros H. inv_ok.
  apply get_history_spec in H as (A & _).
  apply (ledger_balanced_account _ _ A). reflexivity.
Qed.

Lemma ledger_balanced_init (sqrtQ : Q -> Q) (data : list Bar) (ib bpl : Q)
    (rs : bool) (s : TradingEnv) :
  TradingEnv_init sqrtQ data ib bpl rs = Ok s -> ledger_balanced s.
Proof.
  unfold TradingEnv_init. intros H. inv_ok. reflexivity.
Qed.

(** C9.  At every reachable state (after construction, after a reset,
    after any sequence of steps) at most one position is open, and the
    win counter plus the loss counter equals the length of the
    closed-trade history.  The single position slot is never replaced:
    an open issued while a position exists returns 0 and leaves the
    state as it is. *)
Theorem single_position_and_balanced_ledger
    (sqrtQ : Q -> Q) (s : TradingEnv) (H : reachable sqrtQ s) :
  (open_positions s <= 1)%nat /\
  (win_count s + loss_count s = length (trades s))%nat /\
  (forall p dir spread,
     current_position s = Some p ->
     _execute_trade s dir spread = Ok (s, 0)).
Proof.
  split; [|split].
  - unfold open_positions. destruct (current_position s); lia.
  - change (ledger_balanced s). induction H.
    + eapply ledger_balanced_init; eassumption.
    + eapply ledger_balanced_reset; eassumption.
    + eapply ledger_balanced_step; eassumption.
  - intros p dir spread Hp. now apply execute_trade_open with p.
Qed.

(** A reachable state with two closed trades and one of them forced. *)
Lemma single_position_and_balanced_ledger_witness :
  (open_positions (run crash_env [1; 3; 1]%Z) <= 1)%nat /\
  (win_count (run crash_env [1; 3; 1]%Z)
   + loss_count (run crash_env [1; 3; 1]%Z)
   = length (trades (run crash_env [1; 3; 1]%Z)))%nat /\
  (forall p dir spread,
     current_position (run crash_env [1; 3; 1]%Z) = Some p ->
     _execute_trade (run crash_env [1; 3; 1]%Z) dir spread
     = Ok (run crash_env [1; 3; 1]%Z, 0)).
Proof.
  apply (single_position_and_balanced_ledger sqrt8).
  assert (R0 : reachable sqrt8 crash_env)
    by (eapply reach_init; exact crash_env_built).
  cbn [run].
  destruct (step crash_env 1) as [[s1 r1]|] eqn:E1; [|exact R0].
  assert (R1 : reachable sqrt8 s1) by (eapply reach_step; eassumption).
  destruct (step s1 3) as [[s2 r2]|] eqn:E2; [|exact R1].
  assert (R2 : reachable sqrt8 s2) by (eapply reach_step; eassumption).
  destruct (step s2 1) as [[s3 r3]|] eqn:E3; [|exact R2].
  eapply reach_step; eassumption.
Defined.

(** ** One step, seen from the ledger *)

Lemma position_core_None (s s' : TradingEnv) :
  position_core s' = position_core s ->
  current_position s = None -> current_position s' = None.
Proof.
  unfold position_core. intros H E. rewrite E in H.
  now destruct (current_position s').
Qed.

Lemma position_core_Some (s s' : TradingEnv) (p : Position) :
  position_core s' = position_core s ->
  current_position s = Some p ->
  exists v, current_position s' = Some (set_current_profit_pips v p).
Proof.
  unfold position_core. intros H E. rewrite E in H.
  destruct (current_position s') as [p'|]; [|discriminate].
  exists (current_profit_pips p'). f_equal.
  destruct p', p. cbn in H. injection H as -> -> -> -> -> ->. reflexivity.
Qed.

Lemma static_of_account (s s' : TradingEnv) :
  account_of s' = account_of s -> static_of s' = static_of s.
Proof.
  intros H. fields H. unfold static_of. congruence.
Qed.

Lemma static_of_after_close (s : TradingEnv) (t : Trade) :
  static_of (after_close s t) = static_of s.
Proof.
  unfold after_close, update_trade_metrics.
  destruct (Qltb 0 (pnl t)); cbn; now destruct (trades s ++ [t]).
Qed.

Lemma static_of_execute (s s' : TradingEnv) (dir : Z) (sp r : Q) :
  _execute_trade s dir sp = Ok (s', r) -> static_of s' = static_of s.
Proof.
  intros H. destruct (current_position s) as [p|] eqn:E.
  - rewrite (execute_trade_open s dir sp p E) in H. now inv_ok.
  - destruct (execute_trade_flat _ _ _ _ _ E H)
      as (? & ? & ? & _ & _ & _ & _ & _ & Hs').
    now subst s'.
Qed.

Lemma static_of_close (s s' : TradingEnv) (v : Q) :
  _close_position s = Ok (s', v) -> static_of s' = static_of s.
Proof.
  intros H. destruct (current_position s) as [p|] eqn:E.
  - destruct (close_position_open _ _ _ _ E H)
      as (price & time & _ & _ & _ & Hs' & _).
    subst s'. apply static_of_after_close.
  - rewrite (close_position_flat s E) in H. now inv_ok.
Qed.

Lemma static_of_dispatched (s s2 : TradingEnv) (a : Z) (raw : Q) :
  dispatched s a raw s2 -> static_of s2 = static_of (advance s).
Proof.
  intros [_ ->|r0 _ He|v _ Hc].
  - reflexivity.
  - eapply static_of_execute; eassumption.
  - eapply static_of_close; eassumption.
Qed.

Lemma static_of_liquidated (sm sc : TradingEnv) (d : Q) :
  liquidated sm d sc -> static_of sc = static_of sm.
Proof.
  intros [_ ->|pos v _ _ Hc]; [reflexivity|].
  eapply static_of_close; eassumption.
Qed.

(** What a step leaves untouched, and the value it returns. *)
Lemma step_frame (s s' : TradingEnv) (a : Z) (r : StepResult) :
  step s a = Ok (s', r) ->
  (raw_data s', prices s', original_index s', data_length s',
   BALANCE_PER_LOT s', random_start s', initial_balance s',
   completed_episodes s') =
  (raw_data s, prices s, original_index s, data_length s,
   BALANCE_PER_LOT s, random_start s, initial_balance s,
   completed_episodes s) /\
  current_step s' = S (current_step s) /\
  episode_steps s' = S (episode_steps s) /\
  previous_balance s' = balance s /\
  max_balance s' = py_max (balance s) (max_balance s) /\
  reward s' = step_reward r /\
  ~ initial_balance s == 0 /\
  step_reward r = (balance s' - balance s) / initial_balance s.
Proof.
  intros H.
  apply step_spec in H
    as (sm & u & d & sc & Happ & _ & _ & Hliq & Hib & Hr & Hacc & _).
  apply step_apply_spec in Happ as (raw & s2 & _ & Hdis & Hman).
  apply manage_position_spec in Hman as (Hm & _).
  assert (Hst : static_of sc = static_of (advance s)).
  { rewrite (static_of_liquidated _ _ _ Hliq), (static_of_account _ _ Hm).
    eapply static_of_dispatched; eassumption. }
  assert (Hs' : static_of s' = static_of (advance s)).
  { rewrite <- Hst. apply static_of_account in Hacc. exact Hacc. }
  assert (Hb : balance s' = balance sc /\ reward s' = step_reward r).
  { clear - Hacc. fields Hacc. split; assumption. }
  destruct Hb as [Hb Hrw].
  clear Hacc Hm Hdis Hliq.
  unfold static_of in Hst, Hs'. cbn in Hst, Hs'.
  injection Hst as ? ? ? ? ? ? Ei ? ? ? Ep ?.
  injection Hs' as -> -> -> -> -> -> -> -> -> -> -> ->.
  rewrite !Nat.add_1_r. rewrite Ei, Ep in Hr. rewrite Ei in Hib. rewrite Hb.
  repeat split; try reflexivity; assumption.
Qed.

Lemma account_of_execute (s s' : TradingEnv) (dir : Z) (sp r : Q) :
  _execute_trade s dir sp = Ok (s', r) -> account_of s' = account_of s.
Proof.
  intros H. destruct (current_position s) as [p|] eqn:E.
  - rewrite (execute_trade_open s dir sp p E) in H. now inv_ok.
  - destruct (execute_trade_flat _ _ _ _ _ E H)
      as (? & ? & ? & _ & _ & _ & _ & _ & Hs').
    now subst s'.
Qed.

Lemma ledger_of_account (s s' : TradingEnv) :
  account_of s' = account_of s -> ledger_of s' = ledger_of s.
Proof.
  intros H. fields H. unfold ledger_of. congruence.
Qed.

Lemma set_pips_same (p : Position) :
  p = set_current_profit_pips (current_profit_pips p) p.
Proof. now destruct p. Qed.

Lemma set_pips_twice (p : Position) (v w : Q) :
  set_current_profit_pips v (set_current_profit_pips w p)
  = set_current_profit_pips v p.
Proof. reflexivity. Qed.

(** The trade a step closes, if any: at most one, through the Close
    action or through the forced liquidation. *)
Inductive step_close (s s' : TradingEnv) : Prop :=
| step_no_close :
    ledger_of s' = ledger_of s ->
    position_core s' = position_core s \/ current_position s = None ->
    step_close s s'
| step_one_close (pos : Position) (price : Q) (time : Z) :
    nth_error (p_close (prices s)) (S (current_step s)) = Some price ->
    (forall p, current_position s = Some p ->
               exists v, pos = set_current_profit_pips v p) ->
    ledger_of s' =
      ledger_of (after_close s (closed_trade (S (current_step s)) pos price time)) ->
    trade_metrics s' =
      trade_metrics
        (after_close s (closed_trade (S (current_step s)) pos price time)) ->
    current_position s' = None ->
    step_close s s'.

Lemma ledger_of_after_close (s1 s2 : TradingEnv) (t : Trade) :
  ledger_of s1 = ledger_of s2 ->
  ledger_of (after_close s1 t) = ledger_of (after_close s2 t) /\
  trade_metrics (after_close s1 t) = trade_metrics (after_close s2 t).
Proof.
  intros H. unfold ledger_of in H. injection H as Ht Hb Hw Hl.
  destruct (after_close_fields s1 t) as (B1 & T1 & _ & C1 & _ & M1).
  destruct (after_close_fields s2 t) as (B2 & T2 & _ & C2 & _ & M2).
  unfold ledger_of. rewrite B1, B2, T1, T2, M1, M2, Ht, Hb.
  split; [|reflexivity].
  destruct (Qltb 0 (pnl t)); injection C1 as -> ->; injection C2 as -> ->;
    congruence.
Qed.

(** The two ways the action dispatch can end: the Close action closed
    the open position, or the ledger is as it was. *)
Lemma dispatched_cases (s s2 : TradingEnv) (a : Z) (raw : Q) :
  dispatched s a raw s2 ->
  (exists p price time,
      _process_action a = 3%Z /\
      current_position s = Some p /\
      nth_error (p_close (prices s)) (S (current_step s)) = Some price /\
      s2 = after_close (advance s)
             (closed_trade (S (current_step s)) p price time)) \/
  (ledger_of s2 = ledger_of s /\
   (position_core s2 = position_core s \/ current_position s = None) /\
   (_process_action a = 3%Z -> current_position s = None /\ s2 = advance s)).
Proof.
  intros [K ->|r0 K He|v K Hc].
  - right. split; [reflexivity|]. split; [left; reflexivity|].
    intros K'. congruence.
  - right. split; [|split].
    + apply account_of_execute in He. apply ledger_of_account in He.
      exact He.
    + destruct (current_position (advance s)) as [p|] eqn:E.
      * rewrite (execute_trade_open _ _ _ p E) in He. inv_ok.
        left; reflexivity.
      * right. exact E.
    + intros K'. destruct K; congruence.
  - destruct (current_position (advance s)) as [p|] eqn:E.
    + left.
      destruct (close_position_open _ _ _ _ E Hc)
        as (price & time & Hp & _ & _ & Hs2 & _).
      exists p, price, time. cbn in Hp, Hs2. rewrite Nat.add_1_r in Hp, Hs2.
      auto.
    + rewrite (close_position_flat _ E) in Hc. inv_ok.
      right. split; [reflexivity|]. split; [left; reflexivity|].
      intros _. split; [exact E|reflexivity].
Qed.

Lemma step_ledger (s s' : TradingEnv) (a : Z) (r : StepResult) :
  step s a = Ok (s', r) -> step_close s s'.
Proof.
  intros H.
  apply step_spec in H
    as (sm & u & d & sc & Happ & _ & _ & Hliq & _ & _ & Hacc & Hmet & Hcore).
  apply step_apply_spec in Happ as (raw & s2 & _ & Hdis & Hman).
  pose proof (manage_position_spec _ _ _ Hman) as (Hm & Hmm & Hmc & Hmn).
  assert (Hl' : ledger_of s' = ledger_of sc)
    by (apply ledger_of_account in Hacc; exact Hacc).
  assert (Hstm : static_of sm = static_of (advance s)).
  { rewrite (static_of_account _ _ Hm).
    eapply static_of_dispatched; eassumption. }
  assert (Hcur : current_step sm = S (current_step s) /\ prices sm = prices s).
  { unfold static_of in Hstm. cbn in Hstm.
    injection Hstm as ? ? ? ? ? ? ? ? ? ? ? ?.
    split; [rewrite <- Nat.add_1_r|]; assumption. }
  destruct Hcur as [Hcur Hpr].
  destruct (dispatched_cases _ _ _ _ Hdis)
    as [(p & price & time & _ & Hp & Hprice & Hs2)|(Hl2 & Hc2 & _)].
  - set (t := closed_trade (S (current_step s)) p price time) in *.
    assert (E2 : current_position s2 = None).
    { rewrite Hs2. apply after_close_fields. }
    destruct (Hmn E2) as [-> _].
    assert (Hsc : sc = s2).
    { destruct Hliq as [_ ->|pos v _ E _]; [reflexivity|congruence]. }
    subst sc.
    apply step_one_close with p price time.
    + exact Hprice.
    + intros p0 Hp0. exists (current_profit_pips p).
      assert (p0 = p) by congruence. subst p0. apply set_pips_same.
    + fold t. rewrite Hl', Hs2.
      apply (ledger_of_after_close (advance s) s t). reflexivity.
    + fold t. rewrite Hmet, Hs2.
      apply (ledger_of_after_close (advance s) s t). reflexivity.
    + apply (position_core_None _ _ Hcore E2).
  - assert (Hlm : ledger_of sm = ledger_of s).
    { rewrite <- Hl2. apply ledger_of_account. exact Hm. }
    destruct Hliq as [_ ->|pos v _ E Hc].
    + apply step_no_close; [congruence|].
      destruct Hc2 as [Hc2|Hc2]; [left; congruence|right; exact Hc2].
    + destruct (close_position_open _ _ _ _ E Hc)
        as (price & time & Hp & _ & _ & Hsc & _).
      rewrite Hcur in Hp, Hsc. rewrite Hpr in Hp.
      set (t := closed_trade (S (current_step s)) pos price time) in *.
      assert (Ec : current_position sc = None).
      { rewrite Hsc. apply after_close_fields. }
      apply step_one_close with pos price time.
      * exact Hp.
      * intros p0 Hp0.
        destruct Hc2 as [Hc2|Hc2]; [|congruence].
        assert (Hc3 : position_core sm = position_core s) by congruence.
        destruct (position_core_Some _ _ _ Hc3 Hp0) as [v0 Hv0].
        exists v0. congruence.
      * fold t. rewrite Hl', Hsc. now apply ledger_of_after_close.
      * fold t. rewrite Hmet, Hsc. now apply ledger_of_after_close.
      * apply (position_core_None _ _ Hcore Ec).
Qed.

(** A step whose action is Close. *)
Lemma step_close_action (s s' : TradingEnv) (a : Z) (r : StepResult) :
  _process_action a = 3%Z ->
  step s a = Ok (s', r) ->
  current_position s' = None /\
  match current_position s with
  | None => ledger_of s' = ledger_of s
  | Some p =>
      exists price time,
        nth_error (p_close (prices s)) (S (current_step s)) = Some price /\
        ledger_of s' =
          ledger_of
            (after_close s (closed_trade (S (current_step s)) p price time))
  end.
Proof.
  intros K H.
  apply step_spec in H
    as (sm & u & d & sc & Happ & _ & _ & Hliq & _ & _ & Hacc & Hmet & Hcore).
  apply step_apply_spec in Happ as (raw & s2 & _ & Hdis & Hman).
  pose proof (manage_position_spec _ _ _ Hman) as (Hm & Hmm & Hmc & Hmn).
  assert (Hl' : ledger_of s' = ledger_of sc)
    by (apply ledger_of_account in Hacc; exact Hacc).
  assert (E2 : current_position s2 = None /\
               match current_position s with
               | None => ledger_of s2 = ledger_of s
               | Some p =>
                   exists price time,
                     nth_error (p_close (prices s)) (S (current_step s))
                       = Some price /\
                     ledger_of s2 =
                       ledger_of
                         (after_close s
                            (closed_trade (S (current_step s)) p price time))
               end).
  { destruct (dispatched_cases _ _ _ _ Hdis)
      as [(p & price & time & _ & Hp & Hprice & Hs2)|(Hl2 & _ & Hk)].
    - rewrite Hp. split; [rewrite Hs2; apply after_close_fields|].
      exists price, time. split; [exact Hprice|]. rewrite Hs2.
      apply (ledger_of_after_close (advance s) s). reflexivity.
    - destruct (Hk K) as [E ->]. rewrite E. split; [exact E|reflexivity]. }
  destruct E2 as [E2 L2].
  destruct (Hmn E2) as [-> _].
  assert (Hsc : sc = s2).
  { destruct Hliq as [_ ->|pos v _ E _]; [reflexivity|congruence]. }
  subst sc. split; [apply (position_core_None _ _ Hcore E2)|].
  rewrite Hl'. exact L2.
Qed.

(** ** Rewards *)

Lemma ledger_fields (s s' : TradingEnv) :
  ledger_of s' = ledger_of s ->
  trades s' = trades s /\ balance s' = balance s /\
  win_count s' = win_count s /\ loss_count s' = loss_count s.
Proof.
  unfold ledger_of. intros H. injection H as -> -> -> ->. auto.
Qed.

Lemma py_max_le (a b : Q) : a <= b -> py_max a b == b.
Proof.
  intros H. unfold py_max. destruct (Qltb a b) eqn:E; [reflexivity|].
  apply Qltb_ge in E. now apply Qle_antisym.
Qed.

Lemma profit_points_set_pips (p : Position) (v price : Q) :
  profit_points_of (set_current_profit_pips v p) price
  = profit_points_of p price.
Proof. reflexivity. Qed.

(** C2, as the code has it.  On a state with no open position the close
    operation itself signals the fixed penalty -0.1 and changes nothing,
    but [step] does not return that signal: a Close step on a flat book
    returns reward 0, leaves the balance, the trade history and the
    win/loss counters unchanged and the book flat, and sets the peak
    balance to max(balance, peak), which is the old peak whenever the
    balance does not exceed it.  When the flat state was itself produced
    by a Close step on an open position, that first step returned the
    realised P/L over the initial balance; the second returns 0. *)
Theorem close_step_on_flat_book (s s' : TradingEnv) (a : Z) (r : StepResult)
    (Hflat : current_position s = None)
    (Ha : _process_action a = 3%Z)
    (H : step s a = Ok (s', r)) :
  _close_position s = Ok (s, - (1 # 10)) /\
  step_reward r == 0 /\
  balance s' = balance s /\
  trades s' = trades s /\
  win_count s' = win_count s /\
  loss_count s' = loss_count s /\
  current_position s' = None /\
  max_balance s' = py_max (balance s) (max_balance s) /\
  (balance s <= max_balance s -> max_balance s' == max_balance s) /\
  (forall s0 a0 r0 p,
     current_position s0 = Some p ->
     _process_action a0 = 3%Z ->
     step s0 a0 = Ok (s, r0) ->
     exists price,
       nth_error (p_close (prices s0)) (S (current_step s0)) = Some price /\
       balance s == balance s0 + profit_points_of p price * lot_size p /\
       step_reward r0 ==
         profit_points_of p price * lot_size p / initial_balance s0).
Proof.
  destruct (step_close_action _ _ _ _ Ha H) as [Hnone Hl].
  rewrite Hflat in Hl. apply ledger_fields in Hl as (Ht & Hb & Hw & Hlc).
  destruct (step_frame _ _ _ _ H) as (_ & _ & _ & _ & Hmax & _ & Hib & Hr).
  split; [now apply close_position_flat|].
  split; [rewrite Hr, Hb; field; exact Hib|].
  do 6 (split; [assumption|]).
  split; [intros Hle; rewrite Hmax; now apply py_max_le|].
  intros s0 a0 r0 p Hp Ha0 H0.
  destruct (step_close_action _ _ _ _ Ha0 H0) as [_ Hl0].
  rewrite Hp in Hl0. destruct Hl0 as (price & time & Hprice & Hl0).
  apply ledger_fields in Hl0 as (_ & Hb0 & _).
  destruct (after_close_fields s0
              (closed_trade (S (current_step s0)) p price time))
    as (Hbal & _).
  rewrite Hbal in Hb0. cbn [pnl closed_trade] in Hb0.
  destruct (step_frame _ _ _ _ H0) as (_ & _ & _ & _ & _ & _ & Hib0 & Hr0).
  exists price. split; [exact Hprice|]. split.
  - rewrite Hb0. reflexivity.
  - rewrite Hr0, Hb0. field. exact Hib0.
Qed.

(** The zig-zag engine after Buy then Close: a flat book on which Close
    is issued again. *)
Lemma close_step_on_flat_book_witness :
  step_reward (result_of (run zigzag_env [1; 3]%Z) 3) == 0 /\
  balance (run zigzag_env [1; 3; 3]%Z) = balance (run zigzag_env [1; 3]%Z).
Proof.
  assert (E : step (run zigzag_env [1; 3]%Z) 3
              = Ok (run zigzag_env [1; 3; 3]%Z,
                    result_of (run zigzag_env [1; 3]%Z) 3))
    by (vm_compute; reflexivity).
  assert (F : current_position (run zigzag_env [1; 3]%Z) = None)
    by (vm_compute; reflexivity).
  destruct (close_step_on_flat_book _ _ 3 _ F eq_refl E)
    as (_ & Hr & Hb & _).
  split; assumption.
Defined.

(** C2 as stated fails: on the freshly built zig-zag engine (no position)
    a Close step returns reward 0, not -0.1; after Buy then Close the
    second Close returns 0 as well; and after Hold, Buy, Close (a
    winning trade) a further Close moves the peak balance from 10000 to
    the new balance. *)
Lemma close_penalty_counterexample :
  current_position zigzag_env = None /\
  (exists s' r,
     step zigzag_env 3 = Ok (s', r) /\
     step_reward r == 0 /\ ~ step_reward r == - (1 # 10)) /\
  (exists s1 r1 s2 r2,
     step (run zigzag_env [1]%Z) 3 = Ok (s1, r1) /\
     step s1 3 = Ok (s2, r2) /\
     step_reward r1 == - (402 # 100000) /\
     step_reward r2 == 0 /\ ~ step_reward r2 == - (1 # 10)) /\
  (exists s' r,
     current_position (run zigzag_env [0; 1; 3]%Z) = None /\
     step (run zigzag_env [0; 1; 3]%Z) 3 = Ok (s', r) /\
     max_balance (run zigzag_env [0; 1; 3]%Z) == 10000 /\
     max_balance s' == 100297 # 10).
Proof.
  split; [vm_compute; reflexivity|]. split; [|split].
  - exists (run zigzag_env [3]%Z), (result_of zigzag_env 3).
    split; [vm_compute; reflexivity|].
    split; [vm_compute; reflexivity|]. vm_compute. discriminate.
  - exists (run zigzag_env [1; 3]%Z), (result_of (run zigzag_env [1]%Z) 3),
      (run zigzag_env [1; 3; 3]%Z), (result_of (run zigzag_env [1; 3]%Z) 3).
    split; [vm_compute; reflexivity|].
    split; [vm_compute; reflexivity|].
    split; [vm_compute; reflexivity|].
    split; [vm_compute; reflexivity|]. vm_compute. discriminate.
  - exists (run zigzag_env [0; 1; 3; 3]%Z),
      (result_of (run zigzag_env [0; 1; 3]%Z) 3).
    split; [vm_compute; reflexivity|].
    split; [vm_compute; reflexivity|].
    split; vm_compute; reflexivity.
Qed.

Lemma hold_scaled_reward_differs (t : Trade) (ib : Q) :
  ~ ib == 0 -> ~ pnl t == 0 ->
  ~ pnl t / ib == hold_scaled_reward t ib.
Proof.
  intros Hib Hp E. unfold hold_scaled_reward in E.
  set (x := pnl t / ib) in *.
  assert (Hx : ~ x == 0).
  { intros Hx. apply Hp.
    transitivity (x * ib); [unfold x; field; exact Hib|].
    rewrite Hx. ring. }
  unfold py_min in E.
  destruct (Qltb (inject_Z (hold_time t) / 20) 1).
  - assert (E2 : x * (1 - 5 * inject_Z (hold_time t)) == 0).
    { transitivity (x - x * 100 * (inject_Z (hold_time t) / 20));
        [field | rewrite <- E; ring]. }
    apply Qmult_integral in E2 as [E2|E2]; [now apply Hx|].
    assert (E3 : inject_Z (1 + - (5 * hold_time t)) == inject_Z 0)
      by (rewrite inject_Z_plus, inject_Z_opp, inject_Z_mult; exact E2).
    apply (proj1 (inject_Z_injective _ _)) in E3. lia.
  - assert (E2 : x * 99 == 0) by (transitivity (x * 100 * 1 - x); [ring | rewrite <- E; ring]).
    apply Qmult_integral in E2 as [E2|E2]; [now apply Hx|].
    discriminate E2.
Qed.

(** C4.  The reward [step] returns is (balance - previousBalance) /
    initialBalance, previousBalance being the balance at the start of
    the step.  The unrealised P/L handed to [calculate_reward] is not
    used, and a step that closes no trade returns 0 whatever the open
    position is worth.  A step that closes a trade returns its P/L over
    the initial balance, which is not the hold-time-scaled value the
    close operation computes (the two values differ whenever the
    realised P/L is not 0). *)
Theorem step_reward_is_realized_return
    (s s' : TradingEnv) (a : Z) (r : StepResult)
    (H : step s a = Ok (s', r)) :
  step_reward r = (balance s' - balance s) / initial_balance s /\
  previous_balance s' = balance s /\
  reward s' = step_reward r /\
  (forall u1 u2, calculate_reward s' u1 = calculate_reward s' u2) /\
  (trades s' = trades s -> step_reward r == 0) /\
  (forall t,
     trades s' = trades s ++ [t] ->
     step_reward r == pnl t / initial_balance s /\
     (~ pnl t == 0 ->
      ~ step_reward r == hold_scaled_reward t (initial_balance s))) /\
  (forall sx sx' p v,
     current_position sx = Some p ->
     _close_position sx = Ok (sx', v) ->
     exists t,
       trades sx' = trades sx ++ [t] /\
       v = hold_scaled_reward t (initial_balance sx)).
Proof.
  destruct (step_frame _ _ _ _ H) as (_ & _ & _ & Hprev & _ & Hrw & Hib & Hr).
  do 3 (split; [assumption|]).
  split; [reflexivity|].
  assert (Hcases :
    (trades s' = trades s /\ balance s' = balance s) \/
    (exists t0, trades s' = trades s ++ [t0] /\
                balance s' = balance s + pnl t0)).
  { destruct (step_ledger _ _ _ _ H) as [Hl _|pos price time _ _ Hl _ _].
    - left. apply ledger_fields in Hl. tauto.
    - right.
      set (t0 := closed_trade (S (current_step s)) pos price time) in *.
      apply ledger_fields in Hl as (Ht & Hb & _).
      destruct (after_close_fields s t0) as (B & T & _).
      exists t0. split; congruence. }
  split; [|split].
  - intros Ht. destruct Hcases as [[_ Hb]|(t0 & Ht0 & _)].
    + rewrite Hr, Hb. field. exact Hib.
    + rewrite Ht0 in Ht. apply (f_equal (@length Trade)) in Ht.
      rewrite length_app in Ht. cbn in Ht. lia.
  - intros t Ht. destruct Hcases as [[Ht0 _]|(t0 & Ht0 & Hb)].
    + rewrite Ht0 in Ht. apply (f_equal (@length Trade)) in Ht.
      rewrite length_app in Ht. cbn in Ht. lia.
    + rewrite Ht0 in Ht. apply app_inv_head in Ht. injection Ht as ->.
      assert (E : step_reward r == pnl t / initial_balance s)
        by (rewrite Hr, Hb; field; exact Hib).
      split; [exact E|].
      intros Hp. rewrite E. now apply hold_scaled_reward_differs.
  - intros sx sx' p v Hp Hc.
    destruct (close_position_open _ _ _ _ Hp Hc)
      as (price & time & _ & _ & _ & Hs & Hv).
    exists (closed_trade (current_step sx) p price time).
    split; [|exact Hv]. rewrite Hs. apply after_close_fields.
Qed.

(** The zig-zag engine holding a long position: a Hold step, then the
    Close step that realises the loss. *)
Lemma step_reward_is_realized_return_witness :
  step_reward (result_of (run zigzag_env [1]%Z) 0) == 0 /\
  step_reward (result_of (run zigzag_env [1; 0]%Z) 3)
  = (balance (run zigzag_env [1; 0; 3]%Z) - balance (run zigzag_env [1; 0]%Z))
    / initial_balance (run zigzag_env [1; 0]%Z).
Proof.
  assert (E1 : step (run zigzag_env [1]%Z) 0
               = Ok (run zigzag_env [1; 0]%Z,
                     result_of (run zigzag_env [1]%Z) 0))
    by (vm_compute; reflexivity).
  assert (E2 : step (run zigzag_env [1; 0]%Z) 3
               = Ok (run zigzag_env [1; 0; 3]%Z,
                     result_of (run zigzag_env [1; 0]%Z) 3))
    by (vm_compute; reflexivity).
  split.
  - destruct (step_reward_is_realized_return _ _ _ _ E1)
      as (_ & _ & _ & _ & Hz & _).
    apply Hz. vm_compute. reflexivity.
  - destruct (step_reward_is_realized_return _ _ _ _ E2) as (Hr & _).
    exact Hr.
Defined.

(** ** Termination and forced liquidation *)

Lemma is_done_iff (sm : TradingEnv) (d : Q) :
  is_done sm d = true <->
  (Z.of_nat (data_length sm) - 1 <= Z.of_nat (current_step sm))%Z \/
  balance sm <= 0 \/ (1 # 2) <= d.
Proof.
  unfold is_done, end_of_data, MAX_DRAWDOWN.
  rewrite !orb_true_iff, Z.leb_le, !Qleb_le. tauto.
Qed.

(** C6.  [step] evaluates the terminal conditions on the state [sm]
    reached once the cursor has advanced, the peak balance has been
    raised to the balance the step started with, and the action has been
    applied.  It reports terminated = true exactly when the cursor has
    reached the last usable index, or the balance is <= 0, or the
    drawdown (peak - balance) / peak is >= 0.5 (0.5 included).  When it
    does, the book is flat on return: a position open at that moment has
    been closed at the current close, its P/L added to the balance and
    its record appended to the trade history. *)
Theorem termination_and_forced_close
    (s s' : TradingEnv) (a : Z) (r : StepResult)
    (H : step s a = Ok (s', r)) :
  exists sm u d,
    step_apply s a = Ok (sm, u) /\
    current_step sm = S (current_step s) /\
    data_length sm = data_length s /\
    max_balance sm = py_max (balance s) (max_balance s) /\
    d = (max_balance sm - balance sm) / max_balance sm /\
    (terminated r = true <->
       (Z.of_nat (data_length sm) - 1 <= Z.of_nat (current_step sm))%Z \/
       balance sm <= 0 \/ (1 # 2) <= d) /\
    (terminated r = true ->
       current_position s' = None /\
       match current_position sm with
       | Some pos =>
           exists price time,
             nth_error (p_close (prices sm)) (current_step sm) = Some price /\
             trades s' =
               trades sm ++ [closed_trade (current_step sm) pos price time] /\
             balance s' =
               balance sm + profit_points_of pos price * lot_size pos
       | None => trades s' = trades sm /\ balance s' = balance sm
       end).
Proof.
  pose proof (step_spec _ _ _ _ H)
    as (sm & u & d & sc & Happ & Hd & Hterm & Hliq & _ & _ & Hacc & _ & Hcore).
  exists sm, u, d. split; [exact Happ|].
  pose proof (step_apply_spec _ _ _ _ Happ) as (raw & s2 & _ & Hdis & Hman).
  apply manage_position_spec in Hman as (Hm & _).
  assert (Hst : static_of sm = static_of (advance s)).
  { rewrite (static_of_account _ _ Hm).
    eapply static_of_dispatched; eassumption. }
  unfold static_of in Hst. cbn in Hst.
  injection Hst as _ _ _ Hdl _ _ _ _ Hcur _ _ Hmax.
  rewrite Nat.add_1_r in Hcur.
  do 3 (split; [assumption|]).
  unfold drawdown in Hd. apply py_div_Ok in Hd as [_ Hd].
  split; [exact Hd|].
  rewrite Hterm. split; [apply is_done_iff|].
  intros Hdone.
  apply ledger_of_account in Hacc. apply ledger_fields in Hacc as (Ht & Hb & _).
  cbn in Ht, Hb.
  destruct Hliq as [[Hno|Hflat] ->|pos v _ Hpos Hc].
  - congruence.
  - split; [apply (position_core_None _ _ Hcore Hflat)|].
    rewrite Hflat. split; assumption.
  - destruct (close_position_open _ _ _ _ Hpos Hc)
      as (price & time & Hp & _ & _ & Hsc & _).
    destruct (after_close_fields sm
                (closed_trade (current_step sm) pos price time))
      as (B & T & P & _).
    rewrite <- Hsc in B, T, P. cbn [pnl closed_trade] in B.
    split; [apply (position_core_None _ _ Hcore P)|].
    rewrite Hpos. exists price, time.
    split; [exact Hp|]. split; congruence.
Qed.

(** The crash engine after Buy then Close has lost half its balance; a
    further Buy opens a position on a drawdown of exactly 0.5, and the
    step closes it again. *)
Lemma termination_and_forced_close_witness :
  (exists d, drawdown (mid_of (run crash_env [1; 3]%Z) 1) = Ok d /\ d == 1 # 2) /\
  open_positions (mid_of (run crash_env [1; 3]%Z) 1) = 1%nat /\
  terminated (result_of (run crash_env [1; 3]%Z) 1) = true /\
  current_position (run crash_env [1; 3; 1]%Z) = None /\
  length (trades (run crash_env [1; 3; 1]%Z)) = 2%nat.
Proof.
  assert (E : step (run crash_env [1; 3]%Z) 1
              = Ok (run crash_env [1; 3; 1]%Z,
                    result_of (run crash_env [1; 3]%Z) 1))
    by (vm_compute; reflexivity).
  destruct (termination_and_forced_close _ _ _ _ E)
    as (sm & u & d & Happ & _ & _ & _ & Hd & Hiff & Hclose).
  assert (Hsm : sm = mid_of (run crash_env [1; 3]%Z) 1)
    by (unfold mid_of; now rewrite Happ).
  assert (Hd2 : drawdown sm = Ok d /\ d == 1 # 2).
  { rewrite Hd, Hsm. split; vm_compute; reflexivity. }
  assert (Hterm : terminated (result_of (run crash_env [1; 3]%Z) 1) = true).
  { apply Hiff. right. right. destruct Hd2 as [_ ->]. apply Qle_refl. }
  destruct (Hclose Hterm) as [Hnone Htr].
  split; [exists d; rewrite <- Hsm; exact Hd2|].
  split; [vm_compute; reflexivity|].
  split; [exact Hterm|]. split; [exact Hnone|].
  vm_compute. reflexivity.
Defined.

(** ** Opening a position *)

Lemma step_apply_functional (s sm sm' : TradingEnv) (a : Z) (u u' : Q) :
  step_apply s a = Ok (sm, u) -> step_apply s a = Ok (sm', u') -> sm' = sm.
Proof. congruence. Qed.

(** C7, as the code has it.  A Buy or Sell on a flat book records as
    entry price the close at the new cursor plus (long) or minus (short)
    the spread of the bar the cursor was on before the step, scaled by
    POINT_VALUE = 0.01.  The position is still in place when the step
    returns without terminating.  The spread is charged on entry only:
    a close records the raw close as exit price and realises
    (exit - entry) * lot for a long, (entry - exit) * lot for a short. *)
Theorem entry_price_is_close_plus_scaled_spread
    (s sm : TradingEnv) (a : Z) (u : Q)
    (Hflat : current_position s = None)
    (Ha : _process_action a = 1%Z \/ _process_action a = 2%Z)
    (H : step_apply s a = Ok (sm, u)) :
  exists pos price points,
    current_position sm = Some pos /\
    nth_error (p_close (prices s)) (S (current_step s)) = Some price /\
    nth_error (p_spread (prices s)) (current_step s) = Some points /\
    direction pos = (if (_process_action a =? 1)%Z then 1 else -1)%Z /\
    entry_price pos =
      price + (if (_process_action a =? 1)%Z then points * POINT_VALUE
               else - (points * POINT_VALUE)) /\
    (forall s' r,
       step s a = Ok (s', r) -> terminated r = false ->
       exists v, current_position s' = Some (set_current_profit_pips v pos)) /\
    (forall sx sx' p v,
       current_position sx = Some p ->
       _close_position sx = Ok (sx', v) ->
       exists t exit,
         nth_error (p_close (prices sx)) (current_step sx) = Some exit /\
         trades sx' = trades sx ++ [t] /\
         t_position t = p /\
         exit_price t = exit /\
         pnl t = (if (direction p =? 1)%Z then exit - entry_price p
                  else entry_price p - exit) * lot_size p /\
         balance sx' = balance sx + pnl t).
Proof.
  pose proof (step_apply_spec _ _ _ _ H) as (raw & s2 & Hraw & Hdis & Hman).
  apply manage_position_spec in Hman as (_ & _ & Hcore & _).
  assert (Hopen : exists price atr time,
             nth_error (p_close (prices s)) (S (current_step s)) = Some price /\
             s2 = set_trade_metrics
                    (set_current_direction
                       (if (_process_action a =? 1)%Z then 1%Z else (-1)%Z)
                       (trade_metrics (advance s)))
                    (set_current_position
                       (Some (opened_position (advance s) (_process_action a)
                                (raw * POINT_VALUE) price atr time))
                       (advance s))).
  { destruct Hdis as [K _|r0 _ He|v K _]; [destruct Ha; congruence| |destruct Ha; congruence].
    assert (E : current_position (advance s) = None) by exact Hflat.
    destruct (execute_trade_flat _ _ _ _ _ E He)
      as (price & atr & time & Hp & _ & _ & _ & _ & Hs2).
    cbn in Hp. rewrite Nat.add_1_r in Hp. eauto. }
  destruct Hopen as (price & atr & time & Hprice & Hs2).
  set (pos0 := opened_position (advance s) (_process_action a)
                 (raw * POINT_VALUE) price atr time) in *.
  assert (E2 : current_position s2 = Some pos0) by (rewrite Hs2; reflexivity).
  destruct (position_core_Some _ _ _ Hcore E2) as [v0 Hv0].
  exists (set_current_profit_pips v0 pos0), price, raw.
  split; [exact Hv0|]. split; [exact Hprice|]. split; [exact Hraw|].
  split; [reflexivity|]. split; [reflexivity|]. split.
  - intros s' r Hstep Hterm.
    apply step_spec in Hstep
      as (sm' & u' & d & sc & Happ & _ & Ht & Hliq & _ & _ & _ & _ & Hc').
    assert (sm' = sm) by (eapply step_apply_functional; eassumption).
    subst sm'.
    assert (sc = sm).
    { destruct Hliq as [_ ->|p v Hd _ _]; [reflexivity|congruence]. }
    subst sc.
    destruct (position_core_Some _ _ _ Hc' Hv0) as [v1 Hv1].
    exists v1. exact Hv1.
  - intros sx sx' p v Hp Hc.
    destruct (close_position_open _ _ _ _ Hp Hc)
      as (exit & tm & Hexit & _ & _ & Hs & _).
    destruct (after_close_fields sx
                (closed_trade (current_step sx) p exit tm))
      as (B & T & _).
    rewrite <- Hs in B, T.
    exists (closed_trade (current_step sx) p exit tm), exit.
    repeat split; assumption.
Qed.

(** A Buy on the freshly built zig-zag engine. *)
Lemma entry_price_is_close_plus_scaled_spread_witness :
  exists pos,
    current_position (mid_of zigzag_env 1) = Some pos /\
    entry_price pos == 10402 # 100.
Proof.
  assert (E : step_apply zigzag_env 1
              = Ok (mid_of zigzag_env 1,
                    snd (value_of (zigzag_env, 0) (step_apply zigzag_env 1))))
    by (vm_compute; reflexivity).
  assert (F : current_position zigzag_env = None) by (vm_compute; reflexivity).
  destruct (entry_price_is_close_plus_scaled_spread _ _ 1 _ F
              (or_introl eq_refl) E)
    as (pos & price & points & Hpos & Hprice & Hpoints & _ & Hentry & _).
  exists pos. split; [exact Hpos|].
  rewrite Hentry.
  assert (price = 104) by (vm_compute in Hprice; congruence).
  assert (points = 2) by (vm_compute in Hpoints; congruence).
  subst. vm_compute. reflexivity.
Defined.

(** C7 as stated fails: on the zig-zag engine the close at the new
    cursor is 104, the spread of the bar before the step is 2 points and
    the spread of the bar at the new cursor is 3 points; a Buy records
    104.02, which is neither 104 + 2 nor 104 + 3. *)
Lemma entry_price_counterexample :
  current_position zigzag_env = None /\
  nth_error (p_close (prices zigzag_env)) 1 = Some 104 /\
  nth_error (p_spread (prices zigzag_env)) 0 = Some 2 /\
  nth_error (p_spread (prices zigzag_env)) 1 = Some 3 /\
  match current_position (run zigzag_env [1]%Z) with
  | Some pos =>
      entry_price pos == 10402 # 100 /\
      ~ entry_price pos == 104 + 2 /\
      ~ entry_price pos == 104 + 3
  | None => False
  end.
Proof.
  do 4 (split; [vm_compute; reflexivity|]).
  vm_compute. split; [reflexivity|]. split; discriminate.
Qed.

(** ** Lot size *)

Lemma Qltb_comp (a a' b b' : Q) :
  a == a' -> b == b' -> Qltb a b = Qltb a' b'.
Proof.
  intros Ha Hb. unfold Qltb. now rewrite (Qcompare_comp a a' Ha b b' Hb).
Qed.

Lemma round_half_even_comp (x y : Q) :
  x == y -> round_half_even x = round_half_even y.
Proof.
  intros H. unfold round_half_even.
  assert (Hf : Qfloor x = Qfloor y) by now apply Qfloor_comp.
  rewrite Hf.
  assert (Hr : x - inject_Z (Qfloor y) == y - inject_Z (Qfloor y))
    by now rewrite H.
  rewrite (Qltb_comp _ _ _ _ Hr (Qeq_refl (1 # 2))).
  rewrite (Qltb_comp _ _ _ _ (Qeq_refl (1 # 2)) Hr).
  reflexivity.
Qed.

Lemma py_round2_comp (x y : Q) : x == y -> py_round2 x = py_round2 y.
Proof.
  intros H. unfold py_round2.
  assert (E : x * 100 == y * 100) by now rewrite H.
  now rewrite (round_half_even_comp _ _ E).
Qed.

Lemma lot_clamp (x : Q) :
  MIN_LOTS <= py_max MIN_LOTS (py_min MAX_LOTS x) <= MAX_LOTS.
Proof.
  unfold py_max, py_min.
  destruct (Qltb x MAX_LOTS) eqn:E1.
  - apply Qltb_lt in E1.
    destruct (Qltb MIN_LOTS x) eqn:E2.
    + apply Qltb_lt in E2. split; apply Qlt_le_weak; assumption.
    + split; [apply Qle_refl | discriminate].
  - destruct (Qltb MIN_LOTS MAX_LOTS) eqn:E2.
    + split; [discriminate | apply Qle_refl].
    + discriminate E2.
Qed.

(** C3, as the code has it.  An open on a flat book sizes the position
    as clamp(round(balance / balancePerLot, 2), MIN_LOTS = 0.01,
    MAX_LOTS = 100); with a balance of 10000 and balancePerLot = 1000
    that is 10000 / 1000 = 10, so lot_size == 10.0. *)
Theorem lot_size_of_open
    (s s' : TradingEnv) (dir : Z) (sp z : Q)
    (Hflat : current_position s = None)
    (Hb : balance s == 10000)
    (Hl : BALANCE_PER_LOT s == 1000)
    (H : _execute_trade s dir sp = Ok (s', z)) :
  exists pos,
    current_position s' = Some pos /\
    lot_size pos =
      py_max MIN_LOTS
        (py_min MAX_LOTS (py_round2 (balance s / BALANCE_PER_LOT s))) /\
    MIN_LOTS <= lot_size pos <= MAX_LOTS /\
    lot_size pos = 10.
Proof.
  destruct (execute_trade_flat _ _ _ _ _ Hflat H)
    as (price & atr & time & _ & _ & _ & _ & _ & Hs').
  exists (opened_position s dir sp price atr time).
  split; [rewrite Hs'; reflexivity|]. split; [reflexivity|].
  split; [apply lot_clamp|].
  cbn [lot_size opened_position].
  assert (E : balance s / BALANCE_PER_LOT s == 10)
    by (rewrite Hb, Hl; reflexivity).
  rewrite (py_round2_comp _ _ E). reflexivity.
Qed.

(** The freshly built zig-zag engine: balance 10000, balancePerLot 1000. *)
Lemma lot_size_of_open_witness :
  exists pos,
    current_position
      (fst (value_of (zigzag_env, 0)
              (_execute_trade (advance zigzag_env) 1 (2 # 100)))) = Some pos /\
    lot_size pos = 10.
Proof.
  assert (E : _execute_trade (advance zigzag_env) 1 (2 # 100)
              = Ok (value_of (zigzag_env, 0)
                      (_execute_trade (advance zigzag_env) 1 (2 # 100))))
    by (vm_compute; reflexivity).
  destruct (value_of (zigzag_env, 0)
              (_execute_trade (advance zigzag_env) 1 (2 # 100))) as [s' z].
  assert (F : current_position (advance zigzag_env) = None)
    by (vm_compute; reflexivity).
  assert (Hb : balance (advance zigzag_env) == 10000)
    by (vm_compute; reflexivity).
  assert (Hl : BALANCE_PER_LOT (advance zigzag_env) == 1000)
    by (vm_compute; reflexivity).
  destruct (lot_size_of_open _ _ _ _ _ F Hb Hl E) as (pos & Hp & _ & _ & Hlot).
  exists pos. split; assumption.
Defined.

(** C3 as stated fails: with initialBalance = 10000 and balancePerLot =
    1000 a Buy on the fresh engine opens 10 lots, not 1. *)
Lemma lot_size_counterexample :
  initial_balance zigzag_env = 10000 /\
  BALANCE_PER_LOT zigzag_env = 1000 /\
  match current_position (run zigzag_env [1]%Z) with
  | Some pos => lot_size pos == 10 /\ ~ lot_size pos == 1
  | None => False
  end.
Proof.
  do 2 (split; [vm_compute; reflexivity|]).
  vm_compute. split; [reflexivity|discriminate].
Qed.

(** ** Break-even trades *)

Lemma Qlen_nonneg {A : Type} (xs : list A) : 0 <= Qlen xs.
Proof.
  unfold Qlen. change 0 with (inject_Z 0). rewrite <- Zle_Qle. lia.
Qed.

Lemma Qlen_pos {A : Type} (xs : list A) : xs <> [] -> 0 < Qlen xs.
Proof.
  intros H. unfold Qlen. change 0 with (inject_Z 0). rewrite <- Zlt_Qlt.
  destruct xs; [congruence | cbn; lia].
Qed.

Lemma Qlen_snoc {A : Type} (xs : list A) (x : A) :
  Qlen (xs ++ [x]) == Qlen xs + 1.
Proof.
  unfold Qlen. rewrite length_app, Nat.add_1_r, Nat2Z.inj_succ.
  unfold Z.succ. now rewrite inject_Z_plus.
Qed.

Lemma winning_trades_snoc (ts : list Trade) (t : Trade) :
  winning_trades (ts ++ [t]) =
  winning_trades ts ++ (if Qltb 0 (pnl t) then [t] else []).
Proof. unfold winning_trades. now rewrite filter_app. Qed.

Lemma losing_trades_snoc (ts : list Trade) (t : Trade) :
  losing_trades (ts ++ [t]) =
  losing_trades ts ++ (if Qleb (pnl t) 0 then [t] else []).
Proof. unfold losing_trades. now rewrite filter_app. Qed.

Lemma win_rate_of_snoc (ts : list Trade) (t : Trade) :
  win_rate_of (ts ++ [t]) = Qlen (winning_trades (ts ++ [t])) / Qlen (ts ++ [t]).
Proof. unfold win_rate_of. now destruct ts. Qed.

(** Adding a trade that is not a winner cannot raise the win rate, and
    lowers it when there was a winner. *)
Lemma win_rate_of_snoc_not_winner (ts : list Trade) (t : Trade) :
  Qltb 0 (pnl t) = false ->
  win_rate_of (ts ++ [t]) <= win_rate_of ts /\
  (winning_trades ts <> [] -> win_rate_of (ts ++ [t]) < win_rate_of ts).
Proof.
  intros Hw. rewrite win_rate_of_snoc, winning_trades_snoc, Hw, app_nil_r.
  destruct ts as [|t0 ts'] eqn:Ets.
  - cbn. split; [discriminate | congruence].
  - rewrite <- Ets. assert (Hne : ts <> []) by congruence.
    assert (Hn : 0 < Qlen ts) by now apply Qlen_pos.
    assert (Hn1 : 0 < Qlen (ts ++ [t])) by (rewrite Qlen_snoc; lra).
    assert (Hrate : win_rate_of ts = Qlen (winning_trades ts) / Qlen ts)
      by (rewrite Ets; reflexivity).
    rewrite Hrate.
    set (w := Qlen (winning_trades ts)).
    assert (Hw0 : 0 <= w) by apply Qlen_nonneg.
    assert (Hq : 0 <= w / Qlen ts)
      by (apply Qle_shift_div_l; [exact Hn | lra]).
    assert (Hexp : w / Qlen ts * Qlen (ts ++ [t]) == w + w / Qlen ts)
      by (rewrite Qlen_snoc; field; lra).
    split.
    + apply Qle_shift_div_r; [exact Hn1|]. rewrite Hexp. lra.
    + intros Hwin.
      assert (Hwpos : 0 < w) by now apply Qlen_pos.
      assert (Hqpos : 0 < w / Qlen ts)
        by (apply Qlt_shift_div_l; [exact Hn | lra]).
      apply Qlt_shift_div_r; [exact Hn1|]. rewrite Hexp. lra.
Qed.



(** ** Random start *)

Lemma randint_range (low high k : Z) (entropy : nat) :
  randint low high entropy = Ok k -> (low <= k < high)%Z.
Proof.
  unfold randint. destruct (low <? high)%Z eqn:E; [|discriminate].
  apply Z.ltb_lt in E. intros H. inv_ok.
  pose proof (Z.mod_pos_bound (Z.of_nat entropy) (high - low)). lia.
Qed.

Lemma reset_cursor (s s' : TradingEnv) (entropy : nat) (o : list fl) :
  reset s entropy = Ok (s', o) ->
  if random_start s then (current_step s' + 100 < data_length s)%nat
  else current_step s' = 0%nat.
Proof.
  unfold reset. intros H. apply bind_Ok in H as (start & Hstart & H).
  apply get_history_spec in H as (A & _). fields A.
  destruct (random_start s).
  - apply bind_Ok in Hstart as (k & Hk & Hs). apply randint_range in Hk.
    injection Hs as <-. lia.
  - injection Hstart as <-. assumption.
Qed.

(** C8, as the code has it.  With random start enabled, a reset that
    returns has drawn its start offset from the half-open integer
    interval [0, length - 100): the offset plus 100 is below the length,
    so at least 100 steps remain before the last usable index; every
    such offset is a possible outcome, and length - 100 is not.  With
    random start disabled the start offset is 0.  (The generator itself
    is not modelled, only the set of outcomes.) *)
Theorem random_start_offset_range
    (s s' : TradingEnv) (entropy : nat) (o : list fl)
    (Hrs : random_start s = true)
    (H : reset s entropy = Ok (s', o)) :
  (current_step s' + 100 < data_length s)%nat /\
  (100 <= data_length s - 1 - current_step s')%nat /\
  current_step s' <> (data_length s - 100)%nat /\
  (forall k,
     (k + 100 < data_length s)%nat ->
     (k < length (raw_data s))%nat ->
     exists s'' o'', reset s k = Ok (s'', o'') /\ current_step s'' = k) /\
  (forall sx e sx' ox,
     random_start sx = false ->
     reset sx e = Ok (sx', ox) ->
     current_step sx' = 0%nat).
Proof.
  pose proof (reset_cursor _ _ _ _ H) as Hc. rewrite Hrs in Hc.
  split; [exact Hc|]. split; [lia|]. split; [lia|]. split.
  - intros k Hk Hlen.
    destruct (getitem_lt (raw_data s) k Hlen) as [row Hrow].
    unfold reset. rewrite Hrs. unfold randint.
    assert (E : (0 <? Z.max 0 (Z.of_nat (data_length s) - 100))%Z = true)
      by (apply Z.ltb_lt; lia).
    rewrite E. cbn [bind].
    assert (Ek : Z.to_nat (0 + Z.of_nat k
                           mod (Z.max 0 (Z.of_nat (data_length s) - 100) - 0))
                 = k).
    { rewrite Z.mod_small by lia. lia. }
    rewrite Ek. unfold get_history. cbn. rewrite Hrow. cbn.
    eexists. eexists. split; reflexivity.
  - intros sx e sx' ox Hsx Hx.
    pose proof (reset_cursor _ _ _ _ Hx) as Hcx. now rewrite Hsx in Hcx.
Qed.

(** The 150-bar engine keeps 117 rows; entropy 5 starts it at row 5. *)
Lemma random_start_offset_range_witness :
  (current_step (fst (value_of (random_env, []) (reset random_env 5))) + 100
   < data_length random_env)%nat.
Proof.
  assert (E : reset random_env 5
              = Ok (value_of (random_env, []) (reset random_env 5)))
    by (vm_compute; reflexivity).
  destruct (value_of (random_env, []) (reset random_env 5)) as [s' o].
  assert (F : random_start random_env = true) by (vm_compute; reflexivity).
  destruct (random_start_offset_range _ _ _ _ F E) as (Hlt & _).
  exact Hlt.
Defined.

(** C8 as stated fails: on the 150-bar engine (117 usable rows) no draw
    starts an episode at the upper endpoint 117 - 100 = 17. *)
Lemma random_start_counterexample :
  random_start random_env = true /\
  data_length random_env = 117%nat /\
  ~ (exists entropy s' o,
       reset random_env entropy = Ok (s', o) /\ current_step s' = 17%nat).
Proof.
  assert (F : random_start random_env = true) by (vm_compute; reflexivity).
  assert (L : data_length random_env = 117%nat) by (vm_compute; reflexivity).
  split; [exact F|]. split; [exact L|].
  intros (entropy & s' & o & H & Hc).
  pose proof (reset_cursor _ _ _ _ H) as Hlt.
  rewrite F, L, Hc in Hlt. lia.
Qed.

(** On the smallest table construction accepts (133 bars, 100 usable
    rows) the interval is empty and a reset with random start raises,
    whatever the draw. *)
Lemma random_start_minimal_table_raises (entropy : nat) :
  data_length minimal_random_env = 100%nat /\
  reset minimal_random_env entropy = Raise RandintError.
Proof.
  split; reflexivity.
Qed.

(** ** Feature pipeline *)

Lemma length_col {A : Type} (n : nat) (f : nat -> A) : length (col n f) = n.
Proof. unfold col. now rewrite length_map, length_seq. Qed.

Lemma at_col (n i : nat) (f : nat -> fl) :
  (i < n)%nat -> at_ (col n f) i = f i.
Proof.
  intros H. unfold at_, col.
  rewrite (nth_indep _ NaN (f 0%nat)) by (now rewrite length_map, length_seq).
  rewrite map_nth, seq_nth by assumption. reflexivity.
Qed.

Lemma at_map (f : fl -> fl) (xs : list fl) (i : nat) :
  f NaN = NaN -> at_ (map f xs) i = f (at_ xs i).
Proof.
  intros H. unfold at_. rewrite <- H at 1. apply map_nth.
Qed.

Lemma at_overflow (xs : list fl) (i : nat) :
  (length xs <= i)%nat -> at_ xs i = NaN.
Proof. intros H. unfold at_. now apply nth_overflow. Qed.

Lemma length_observations (w : nat) (xs : list fl) (i : nat) :
  (length (observations w xs i) <= i + 1)%nat.
Proof.
  unfold observations, window.
  etransitivity; [apply filter_length_le|].
  rewrite length_firstn. lia.
Qed.

(** A rolling mean is undefined until its window has [min_periods]
    rows. *)
Lemma rolling_mean_warmup (w mp : nat) (xs : list fl) (i : nat) :
  (i + 1 < mp)%nat -> at_ (rolling_mean w mp xs) i = NaN.
Proof.
  intros H. destruct (Nat.lt_ge_cases i (length xs)) as [Hi|Hi].
  - unfold rolling_mean. rewrite at_col by assumption.
    pose proof (length_observations w xs i) as Ho.
    destruct (Nat.ltb_spec (length (observations w xs i)) mp); [reflexivity|lia].
  - apply at_overflow. unfold rolling_mean. now rewrite length_col.
Qed.

Lemma fdiv_NaN_r (x : fl) : fdiv x NaN = NaN.
Proof. now destruct x. Qed.

Lemma length_c_loss (data : list Bar) : length (c_loss data) = length data.
Proof.
  unfold c_loss, rolling_mean, c_delta.
  now rewrite length_col, length_map, length_col.
Qed.

Lemma length_c_rs (data : list Bar) : length (c_rs data) = length data.
Proof. unfold c_rs. cbv zeta. apply length_col. Qed.

Lemma c_rs_at (data : list Bar) (i : nat) :
  (i < length data)%nat ->
  at_ (c_rs data) i =
  if fne (at_ (c_loss data) i) (Fin 0)
  then fdiv (at_ (c_gain data) i) (at_ (c_loss data) i)
  else Fin 0.
Proof. intros H. unfold c_rs. cbv zeta. now rewrite at_col. Qed.

Lemma c_rsi_at (data : list Bar) (i : nat) :
  at_ (c_rsi data) i =
  fsub (Fin 100) (fdiv (Fin 100) (fadd (Fin 1) (at_ (c_rs data) i))).
Proof. unfold c_rsi. now rewrite at_map. Qed.

Lemma c_rsi_norm_at (data : list Bar) (i : nat) :
  at_ (c_rsi_norm data) i = fsub (fdiv (at_ (c_rsi data) i) (Fin 50)) (Fin 1).
Proof. unfold c_rsi_norm. now rewrite at_map. Qed.

(** C5.  The code where the 14-period average of the negative deltas
    is exactly zero: the gain/loss ratio is not computed by division
    but left at the zero it was initialised with, so the oscillator
    100 - 100 / (1 + ratio) is 0 there, not the 100 the claim states
    and that fourteen bars without a loss stand for, and the normalised
    feature value / 50 - 1 is -1. *)
Theorem zero_loss_average_gives_oscillator_zero
    (data : list Bar) (i : nat) (q : Q)
    (Hi : (i < length data)%nat)
    (Hloss : at_ (c_loss data) i = Fin q)
    (Hq : q == 0) :
  at_ (c_rs data) i = Fin 0 /\
  at_ (c_rsi data) i = Fin 0 /\
  at_ (c_rsi_norm data) i = Fin (-1).
Proof.
  assert (Hrs : at_ (c_rs data) i = Fin 0).
  { rewrite c_rs_at by assumption. rewrite Hloss. cbn.
    apply Qeqb_eq in Hq. now rewrite Hq. }
  assert (Hrsi : at_ (c_rsi data) i = Fin 0)
    by (rewrite c_rsi_at, Hrs; reflexivity).
  split; [exact Hrs|]. split; [exact Hrsi|].
  rewrite c_rsi_norm_at, Hrsi. reflexivity.
Qed.

(** Row 40 of a steadily rising market of 140 bars: no loss in the
    window. *)
Lemma zero_loss_average_gives_oscillator_zero_witness :
  at_ (c_rs (rising 140)) 40 = Fin 0 /\
  at_ (c_rsi (rising 140)) 40 = Fin 0 /\
  at_ (c_rsi_norm (rising 140)) 40 = Fin (-1).
Proof.
  apply (zero_loss_average_gives_oscillator_zero (rising 140) 40 0).
  - vm_compute. lia.
  - vm_compute. reflexivity.
  - reflexivity.
Defined.

(** The rising market of 140 bars, each close 1 above the one before.
    From row 14 on the loss average is exactly 0 and the gain average
    is 1; the oscillator is 0, not 100.  The table is accepted, and
    every one of the 107 feature rows the engine then observes carries
    the oscillator feature -1. *)
Lemma oscillator_on_rising_market :
  at_ (c_gain (rising 140)) 40 = Fin 1 /\
  at_ (c_loss (rising 140)) 40 = Fin 0 /\
  at_ (c_rsi (rising 140)) 40 = Fin 0 /\
  at_ (c_rsi (rising 140)) 40 <> Fin 100 /\
  exists p,
    _preprocess_data sqrt8 (rising 140) = Ok p /\
    length (features_df p) = 107%nat /\
    forallb (fun row =>
               match nth 1 row NaN with
               | Fin q => Qeqb q (-1)
               | _ => false
               end) (features_df p) = true.
Proof.
  split; [vm_compute; reflexivity|].
  split; [vm_compute; reflexivity|].
  split; [vm_compute; reflexivity|].
  split; [vm_compute; discriminate|].
  eexists. split; [vm_compute; reflexivity|].
  split; vm_compute; reflexivity.
Qed.

(** The sibling branch.  Where the loss average q is positive the
    ratio is computed by division and the oscillator is
    100 * g / (g + q) for a gain average g: with g > 0 it tends to 100,
    not to 0, as q tends to 0. *)
Lemma nonzero_loss_average_oscillator
    (data : list Bar) (i : nat) (g q : Q) :
  (i < length data)%nat ->
  at_ (c_gain data) i = Fin g ->
  at_ (c_loss data) i = Fin q ->
  0 <= g -> 0 < q ->
  exists r, at_ (c_rsi data) i = Fin r /\ r == 100 * g / (g + q).
Proof.
  intros Hi Hg Hl Hg0 Hq0.
  assert (Hqne : Qeqb q 0 = false).
  { destruct (Qeqb q 0) eqn:E; [|reflexivity].
    apply Qeqb_eq in E. lra. }
  assert (Hratio : 0 <= g / q) by (apply Qle_shift_div_l; lra).
  assert (Hden : Qeqb (Qred (1 + Qred (g / q))) 0 = false).
  { destruct (Qeqb (Qred (1 + Qred (g / q))) 0) eqn:E; [|reflexivity].
    apply Qeqb_eq in E. rewrite !Qred_correct in E. lra. }
  rewrite c_rsi_at, c_rs_at by assumption.
  rewrite Hl, Hg. cbn [fne]. rewrite Hqne. cbn [negb fdiv].
  rewrite Hqne. cbn [fadd fsub fdiv]. rewrite Hden. cbn [fneg fadd].
  eexists. split; [reflexivity|].
  rewrite !Qred_correct. field. lra.
Qed.

(** *** Warm-up and trimming *)

Lemma c_rsi_norm_warmup (data : list Bar) (i : nat) :
  (i < 13)%nat -> at_ (c_rsi_norm data) i = NaN.
Proof.
  intros H. rewrite c_rsi_norm_at, c_rsi_at.
  assert (Hrs : at_ (c_rs data) i = NaN).
  { destruct (Nat.lt_ge_cases i (length data)) as [Hi|Hi].
    - rewrite c_rs_at by assumption.
      assert (Hl : at_ (c_loss data) i = NaN)
        by (unfold c_loss; apply rolling_mean_warmup; lia).
      rewrite Hl. cbn. apply fdiv_NaN_r.
    - apply at_overflow. now rewrite length_c_rs. }
  rewrite Hrs. reflexivity.
Qed.

Lemma full_frame_length (sqrtQ : Q -> Q) (data : list Bar) :
  length (full_frame sqrtQ data) = length data.
Proof. unfold full_frame. cbv zeta. apply length_col. Qed.

Lemma filter_all {A : Type} (g : A -> bool) (l : list A) :
  (forall x, In x l -> g x = true) -> filter g l = l.
Proof.
  induction l as [|x l IH]; intros H; [reflexivity|].
  cbn. rewrite (H x (or_introl eq_refl)). f_equal.
  apply IH. intros y Hy. apply H. now right.
Qed.

Lemma filter_col_prefix {A : Type} (g : A -> bool) (h : nat -> A) (m n : nat) :
  (m <= n)%nat ->
  (forall i, (i < m)%nat -> g (h i) = true) ->
  (m <= length (filter g (col n h)))%nat.
Proof.
  intros Hmn Hg. unfold col.
  replace n with (m + (n - m))%nat by lia.
  rewrite seq_app, map_app, filter_app, length_app.
  rewrite filter_all.
  - rewrite length_map, length_seq. lia.
  - intros x Hx. apply in_map_iff in Hx as (i & <- & Hi).
    apply in_seq in Hi. apply Hg. lia.
Qed.

(** The first 13 rows of every table hold an undefined oscillator. *)
Lemma undefined_rows_warmup (sqrtQ : Q -> Q) (data : list Bar) :
  (Nat.min (length data) 13 <= undefined_rows sqrtQ data)%nat.
Proof.
  unfold undefined_rows, full_frame. cbv zeta.
  apply filter_col_prefix; [lia|].
  intros i Hi. unfold row_defined. cbn [snd forallb].
  rewrite c_rsi_norm_warmup by lia. cbn.
  now rewrite andb_false_r.
Qed.

Lemma trimmed_frame_length (sqrtQ : Q -> Q) (data : list Bar) :
  length (trimmed_frame sqrtQ data)
  = (length data - undefined_rows sqrtQ data - 20)%nat.
Proof.
  unfold trimmed_frame, dropna, undefined_rows.
  rewrite length_skipn.
  pose proof (filter_length row_defined (full_frame sqrtQ data)) as H.
  rewrite full_frame_length in H.
  change lookback with 20%nat. lia.
Qed.

(** The arrays a successful construction stores are aligned. *)
Lemma preprocess_Ok_lengths (sqrtQ : Q -> Q) (data : list Bar)
    (p : Preprocessed) :
  _preprocess_data sqrtQ data = Ok p ->
  length (features_df p) = length (trimmed_frame sqrtQ data) /\
  (100 <= length (features_df p))%nat /\
  length (atr_values p) = length (features_df p) /\
  length (p_close (pre_prices p)) = length (features_df p) /\
  length (p_high (pre_prices p)) = length (features_df p) /\
  length (p_low (pre_prices p)) = length (features_df p) /\
  length (p_spread (pre_prices p)) = length (features_df p) /\
  length (p_atr (pre_prices p)) = length (features_df p) /\
  length (valid_indices p) = length (features_df p).
Proof.
  unfold _preprocess_data. destruct data as [|b0 rest]; [discriminate|].
  set (tf := trimmed_frame sqrtQ (b0 :: rest)).
  set (atr := c_atr (b0 :: rest)).
  destruct (Nat.ltb_spec (length tf) 100) as [Hlt|Hge]; [discriminate|].
  destruct (is_unique (map bar_time (b0 :: rest))); [|discriminate].
  cbn [negb]. intros H. injection H as <-.
  cbv zeta.
  cbn [features_df atr_values pre_prices valid_indices p_close p_high p_low
       p_spread p_atr].
  unfold take_rows. rewrite !length_map. auto 10.
Qed.


(** ** A step on an aligned engine returns *)

Lemma ready_static (s s' : TradingEnv) :
  static_of s' = static_of s -> ready s -> ready s'.
Proof.
  unfold static_of, ready. intros H.
  injection H as -> -> -> _ -> _ -> _ -> _ _ _. exact (fun H => H).
Qed.

Lemma execute_trade_returns (s : TradingEnv) (dir : Z) (sp : Q) :
  ready s -> exists s' r, _execute_trade s dir sp = Ok (s', r).
Proof.
  intros (_ & Hc & Ha & Hi & _ & Hb). unfold _execute_trade.
  destruct (current_position s); [eauto|].
  destruct (getitem_lt _ _ Hc) as [price ->].
  destruct (getitem_lt _ _ Ha) as [atr ->].
  destruct (getitem_lt _ _ Hi) as [time ->].
  cbn [bind]. rewrite (py_div_nonzero _ _ Hb). cbn [bind]. eauto.
Qed.

Lemma close_position_returns (s : TradingEnv) :
  ready s -> exists s' v, _close_position s = Ok (s', v).
Proof.
  intros (_ & Hc & _ & Hi & Hib & _). unfold _close_position.
  destruct (current_position s) as [pos|]; [|eauto].
  destruct (getitem_lt _ _ Hc) as [price ->].
  destruct (getitem_lt _ _ Hi) as [time ->].
  cbn [bind].
  match goal with
  | |- exists s' v, bind (py_div ?a (initial_balance ?x)) _ = _ =>
      assert (E : initial_balance x = initial_balance s)
  end.
  { unfold update_trade_metrics.
    destruct (Qltb 0 _); cbn; now destruct (trades s ++ _). }
  rewrite E, (py_div_nonzero _ _ Hib). cbn [bind]. eauto.
Qed.

Lemma manage_position_returns (s : TradingEnv) :
  ready s -> exists s' u, _manage_position s = Ok (s', u).
Proof.
  intros (_ & Hc & _). unfold _manage_position.
  destruct (current_position s) as [pos|]; [|eauto].
  destruct (getitem_lt _ _ Hc) as [price ->]. cbn [bind]. eauto.
Qed.

Lemma get_history_returns (s : TradingEnv) :
  ready s -> exists s' o, get_history s = Ok (s', o).
Proof.
  intros Hr. pose proof Hr as (Hd & _ & _ & _ & Hib & _).
  unfold get_history.
  destruct (getitem_lt _ _ Hd) as [row ->]. cbn [bind].
  destruct (current_position s) as [pos|] eqn:E; [|eauto].
  destruct (manage_position_returns s Hr) as (s1 & u & Hm).
  rewrite Hm. cbn [bind].
  apply manage_position_spec in Hm as (A & _). fields A.
  match goal with H : initial_balance s1 = _ |- _ => rewrite H end.
  rewrite (py_div_nonzero _ _ Hib). cbn [bind]. eauto.
Qed.

Lemma py_max_pos (a b : Q) : 0 < b -> 0 < py_max a b.
Proof.
  intros H. unfold py_max. destruct (Qltb a b) eqn:E; [exact H|].
  apply Qltb_ge in E. lra.
Qed.

(** Before the last usable index every action is answered. *)
Lemma step_returns (s : TradingEnv) (a : Z) :
  well_formed s ->
  (S (current_step s) < data_length s)%nat ->
  exists s' r, step s a = Ok (s', r).
Proof.
  intros (Hd & Hc & Hsp & Hat & Hix & Hib & Hmax & Hbpl) Hcur.
  assert (Hadv : ready (advance s)).
  { unfold ready. cbn. rewrite Hd, Hc, Hat, Hix, Nat.add_1_r.
    repeat split; try assumption. lra. }
  assert (Hraw : exists raw, getitem (p_spread (prices s)) (current_step s) = Ok raw)
    by (apply getitem_lt; lia).
  destruct Hraw as [raw Hraw].
  assert (Hdis : exists s2, dispatched s a raw s2).
  { destruct (process_action_range a) as [K|[K|[K|K]]]; cbv zeta in K.
    - exists (advance s). now apply dispatch_hold.
    - destruct (execute_trade_returns (advance s) (_process_action a)
                  (raw * POINT_VALUE) Hadv) as (s2 & r0 & He).
      exists s2. eapply dispatch_open; [left; exact K|exact He].
    - destruct (execute_trade_returns (advance s) (_process_action a)
                  (raw * POINT_VALUE) Hadv) as (s2 & r0 & He).
      exists s2. eapply dispatch_open; [right; exact K|exact He].
    - destruct (close_position_returns (advance s) Hadv) as (s2 & v & Hcl).
      exists s2. eapply dispatch_close; [exact K|exact Hcl]. }
  destruct Hdis as [s2 Hdis].
  pose proof (static_of_dispatched _ _ _ _ Hdis) as Hst2.
  pose proof (ready_static _ _ Hst2 Hadv) as Hr2.
  destruct (manage_position_returns s2 Hr2) as (sm & u & Hman).
  assert (Happ : step_apply s a = Ok (sm, u)).
  { transitivity
      (s0 <- (if (_process_action a =? 1)%Z then
                '(s0, _) <- _execute_trade (advance s) 1 (raw * POINT_VALUE) ;;
                Ok s0
              else if (_process_action a =? 2)%Z then
                '(s0, _) <- _execute_trade (advance s) 2 (raw * POINT_VALUE) ;;
                Ok s0
              else if (_process_action a =? 3)%Z then
                '(s0, _) <- _close_position (advance s) ;; Ok s0
              else Ok (advance s)) ;;
       _manage_position s0).
    { unfold step_apply. rewrite Hraw. reflexivity. }
    destruct Hdis as [K ->|r0 K He|v K Hcl].
    - rewrite K. cbn [Z.eqb Pos.eqb bind]. exact Hman.
    - destruct K as [K|K]; rewrite K in *; cbn [Z.eqb Pos.eqb]; rewrite He;
        cbn [bind]; exact Hman.
    - rewrite K. cbn [Z.eqb Pos.eqb]. rewrite Hcl. cbn [bind]. exact Hman. }
  pose proof (manage_position_spec _ _ _ Hman) as (Hm & _).
  assert (Hstm : static_of sm = static_of (advance s))
    by (rewrite (static_of_account _ _ Hm); exact Hst2).
  pose proof (ready_static _ _ Hstm Hadv) as Hrm.
  assert (Hmaxm : max_balance sm = py_max (balance s) (max_balance s)).
  { unfold static_of in Hstm. cbn in Hstm.
    now injection Hstm as _ _ _ _ _ _ _ _ _ _ _ ?. }
  assert (Hdd : exists d, drawdown sm = Ok d).
  { unfold drawdown. rewrite py_div_nonzero; [eauto|].
    rewrite Hmaxm. pose proof (py_max_pos (balance s) _ Hmax). lra. }
  destruct Hdd as [d Hdd].
  assert (Hliq : exists sc,
             match current_position sm with
             | Some _ =>
                 if is_done sm d
                 then '(s0, _) <- _close_position sm ;; Ok s0
                 else Ok sm
             | None => Ok sm
             end = Ok sc /\ static_of sc = static_of sm).
  { destruct (current_position sm) eqn:E; [|eauto].
    destruct (is_done sm d); [|eauto].
    destruct (close_position_returns sm Hrm) as (sc & v & Hcl).
    exists sc. rewrite Hcl. split; [reflexivity|].
    eapply static_of_close; eassumption. }
  destruct Hliq as (sc & Hliq & Hstc).
  pose proof (ready_static _ _ Hstc Hrm) as Hrc.
  assert (Hrew : exists q, calculate_reward sc u = Ok q).
  { unfold calculate_reward. destruct Hrc as (_ & _ & _ & _ & Hi & _).
    rewrite (py_div_nonzero _ _ Hi). eauto. }
  destruct Hrew as [q Hrew].
  destruct (get_history_returns (set_reward q sc) Hrc) as (s' & o & Hh).
  unfold step. rewrite Happ. cbn [bind]. rewrite Hdd. cbn [bind].
  rewrite Hliq. cbn [bind]. rewrite Hrew. cbn [bind]. rewrite Hh. cbn [bind].
  eauto.
Qed.

Lemma well_formed_step (s s' : TradingEnv) (a : Z) (r : StepResult) :
  step s a = Ok (s', r) -> well_formed s -> well_formed s'.
Proof.
  intros H (Hd & Hc & Hsp & Hat & Hix & Hib & Hmax & Hbpl).
  destruct (step_frame _ _ _ _ H) as (Hf & _ & _ & _ & Hm & _).
  unfold well_formed. injection Hf as -> -> -> -> -> _ -> _. rewrite Hm.
  repeat split; try assumption. now apply py_max_pos.
Qed.

Lemma well_formed_reset (s s' : TradingEnv) (e : nat) (o : list fl) :
  reset s e = Ok (s', o) -> well_formed s -> well_formed s'.
Proof.
  intros H (Hd & Hc & Hsp & Hat & Hix & Hib & Hmax & Hbpl).
  unfold reset in H. apply bind_Ok in H as (start & _ & H).
  apply get_history_spec in H as (A & _). fields A.
  unfold well_formed.
  repeat match goal with H : _ s' = _ |- _ => rewrite H end.
  repeat split; assumption.
Qed.

Lemma well_formed_init (sqrtQ : Q -> Q) (data : list Bar) (ib bpl : Q)
    (rs : bool) (s : TradingEnv) :
  TradingEnv_init sqrtQ data ib bpl rs = Ok s ->
  0 < ib -> ~ bpl == 0 -> well_formed s.
Proof.
  unfold TradingEnv_init. intros H Hib Hbpl.
  apply bind_Ok in H as (p & Hp & H). injection H as <-.
  apply preprocess_Ok_lengths in Hp
    as (_ & _ & _ & Hc & _ & _ & Hs & Ha & Hi).
  unfold well_formed.
  cbn [raw_data prices original_index data_length initial_balance
       max_balance BALANCE_PER_LOT].
  repeat split; assumption.
Qed.

(** Every engine built with a positive initial balance and a non-zero
    balance per lot stays aligned. *)
Lemma reachable_well_formed (sqrtQ : Q -> Q) (s : TradingEnv) :
  reachable sqrtQ s ->
  0 < initial_balance s -> ~ BALANCE_PER_LOT s == 0 -> well_formed s.
Proof.
  induction 1 as [data ib bpl rs s Hinit|s e s' o Hr IH Hreset|s a s' r Hr IH Hstep];
    intros Hib Hbpl.
  - assert (E : initial_balance s = ib /\ BALANCE_PER_LOT s = bpl).
    { unfold TradingEnv_init in Hinit.
      apply bind_Ok in Hinit as (p & _ & H). injection H as <-. now split. }
    destruct E as [E1 E2]. rewrite E1 in Hib. rewrite E2 in Hbpl.
    eapply well_formed_init; eassumption.
  - apply (well_formed_reset _ _ _ _ Hreset).
    unfold reset in Hreset. apply bind_Ok in Hreset as (start & _ & H).
    apply get_history_spec in H as (A & _). fields A.
    apply IH; congruence.
  - apply (well_formed_step _ _ _ _ Hstep).
    destruct (step_frame _ _ _ _ Hstep) as (Hf & _).
    injection Hf as _ _ _ _ E1 _ E2 _.
    apply IH; congruence.
Qed.

(** ** Clean tables: every row after the warm-up is defined *)

Lemma fsat_weaken (P R : Q -> Prop) (x : fl) :
  (forall q, P q -> R q) -> fsat P x -> fsat R x.
Proof. intros H (q & -> & Hq). exists q. auto. Qed.

Lemma fsat_not_nan (P : Q -> Prop) (x : fl) : fsat P x -> isnan x = false.
Proof. now intros (q & -> & _). Qed.

Lemma fsat_Fin (P : Q -> Prop) (q : Q) : P q -> fsat P (Fin q).
Proof. intros H. exists q. auto. Qed.

Lemma fin_fadd (x y : fl) :
  fsat any_value x -> fsat any_value y -> fsat any_value (fadd x y).
Proof. intros (a & -> & _) (b & -> & _). eexists. split; [reflexivity|exact I]. Qed.

Lemma fin_fsub (x y : fl) :
  fsat any_value x -> fsat any_value y -> fsat any_value (fsub x y).
Proof. intros (a & -> & _) (b & -> & _). eexists. split; [reflexivity|exact I]. Qed.

Lemma fin_fmul (x y : fl) :
  fsat any_value x -> fsat any_value y -> fsat any_value (fmul x y).
Proof. intros (a & -> & _) (b & -> & _). eexists. split; [reflexivity|exact I]. Qed.

Lemma fin_fabs (x : fl) : fsat any_value x -> fsat any_value (fabs x).
Proof. intros (a & -> & _). eexists. split; [reflexivity|exact I]. Qed.

Lemma fin_fdiv (x y : fl) :
  fsat any_value x -> fsat nonzero y -> fsat any_value (fdiv x y).
Proof.
  intros (a & -> & _) (b & -> & Hb). cbn.
  apply Qeqb_neq in Hb. rewrite Hb. eexists. split; [reflexivity|exact I].
Qed.

Lemma fin_fmaximum (x y : fl) :
  fsat any_value x -> fsat any_value y -> fsat any_value (fmaximum x y).
Proof.
  intros (a & -> & _) (b & -> & _). cbn.
  destruct (Qltb a b); eexists; split; reflexivity || exact I.
Qed.

Lemma fin_fminimum (x y : fl) :
  fsat any_value x -> fsat any_value y -> fsat any_value (fminimum x y).
Proof.
  intros (a & -> & _) (b & -> & _). cbn.
  destruct (Qltb b a); eexists; split; reflexivity || exact I.
Qed.

Lemma fin_fclip (x : fl) (lo hi : Q) :
  fsat any_value x -> fsat any_value (fclip x (Fin lo) (Fin hi)).
Proof.
  intros H. unfold fclip.
  apply fin_fminimum; [apply fin_fmaximum; [exact H|]|]; now apply fsat_Fin.
Qed.

Lemma fin_fillna (v x : fl) :
  fsat any_value v -> nan_or any_value x -> fsat any_value (fillna v x).
Proof.
  intros Hv [->|Hx]; [exact Hv|].
  unfold fillna. now rewrite (fsat_not_nan _ _ Hx).
Qed.

(** [np.where(x < 1e-8, 1e-8, x)] keeps NaN and floors the rest. *)
Lemma floor_eps_nan_or (x : fl) :
  nan_or any_value x -> nan_or nonzero (floor_eps x).
Proof.
  intros [->|(a & -> & _)]; [now left|]. right.
  unfold floor_eps, eps. cbn.
  destruct (Qltb a (1 # 100000000)) eqn:E.
  - apply fsat_Fin. unfold nonzero. discriminate.
  - apply fsat_Fin. apply Qltb_ge in E. unfold nonzero. lra.
Qed.

Lemma nan_or_fsat (P : Q -> Prop) (x : fl) : fsat P x -> nan_or P x.
Proof. now right. Qed.

Lemma nan_or_fmul (x y : fl) :
  nan_or any_value x -> nan_or any_value y -> nan_or any_value (fmul x y).
Proof.
  intros [->|Hx] [->|Hy]; try (now left).
  - left. now destruct x.
  - right. now apply fin_fmul.
Qed.

Lemma nan_or_fadd (x y : fl) :
  nan_or any_value x -> nan_or any_value y -> nan_or any_value (fadd x y).
Proof.
  intros [->|Hx] [->|Hy]; try (now left).
  - left. now destruct x.
  - right. now apply fin_fadd.
Qed.

Lemma nan_or_fsub (x y : fl) :
  nan_or any_value x -> nan_or any_value y -> nan_or any_value (fsub x y).
Proof.
  intros [->|Hx] [->|Hy]; try (now left).
  - left. now destruct x.
  - right. now apply fin_fsub.
Qed.

Lemma nan_or_fabs (x : fl) : nan_or any_value x -> nan_or any_value (fabs x).
Proof. intros [->|Hx]; [now left|right; now apply fin_fabs]. Qed.

Lemma nan_or_fdiv (x y : fl) :
  nan_or any_value x -> nan_or nonzero y -> nan_or any_value (fdiv x y).
Proof.
  intros [->|Hx] [->|Hy]; try (now left).
  - left. now destruct x.
  - right. now apply fin_fdiv.
Qed.

Lemma firstn_In {A : Type} (n : nat) (l : list A) (x : A) :
  In x (firstn n l) -> In x l.
Proof.
  intros H. rewrite <- (firstn_skipn n l). apply in_or_app. now left.
Qed.

Lemma skipn_In {A : Type} (n : nat) (l : list A) (x : A) :
  In x (skipn n l) -> In x l.
Proof.
  intros H. rewrite <- (firstn_skipn n l). apply in_or_app. now right.
Qed.

Section Rolling.

Variable P : Q -> Prop.
Hypothesis P_zero : P 0.
Hypothesis P_add : forall a b, P a -> P b -> P (Qred (a + b)).
Hypothesis P_div :
  forall a k, P a -> (1 <= k)%nat -> P (Qred (a / inject_Z (Z.of_nat k))).

Lemma fsum_sat_acc (xs : list fl) (acc : Q) :
  P acc -> Forall (fsat P) xs -> fsat P (fold_left fadd xs (Fin acc)).
Proof.
  revert acc. induction xs as [|x xs IH]; intros acc Hacc Hxs.
  - now apply fsat_Fin.
  - inversion Hxs as [|? ? (q & -> & Hq) Hrest]; subst. cbn.
    apply IH; [now apply P_add | exact Hrest].
Qed.

Lemma fsum_sat (xs : list fl) : Forall (fsat P) xs -> fsat P (fsum xs).
Proof. intros H. now apply fsum_sat_acc. Qed.

Lemma observations_sat (w : nat) (xs : list fl) (i : nat) :
  Forall (nan_or P) xs -> Forall (fsat P) (observations w xs i).
Proof.
  intros H. unfold observations, window.
  apply Forall_forall. intros x Hx. apply filter_In in Hx as [Hin Hnan].
  apply firstn_In, skipn_In in Hin.
  rewrite Forall_forall in H. destruct (H x Hin) as [->|Hs]; [discriminate|exact Hs].
Qed.

Lemma fmean_sat (o : list fl) :
  Forall (fsat P) o -> (1 <= length o)%nat ->
  fsat P (fdiv (fsum o) (Fnat (length o))).
Proof.
  intros Ho Hlen. destruct (fsum_sat o Ho) as (s & -> & Hs).
  unfold Fnat. cbn.
  assert (E : Qeqb (inject_Z (Z.of_nat (length o))) 0 = false).
  { apply Qeqb_neq. intros E. change 0 with (inject_Z 0) in E.
    apply (proj1 (inject_Z_injective _ _)) in E. lia. }
  rewrite E. apply fsat_Fin. now apply P_div.
Qed.

(** A cell of a rolling mean over cells that are undefined or satisfy
    [P]: undefined below [min_periods] observations, a mean satisfying
    [P] otherwise. *)
Lemma rolling_mean_cell (w mp : nat) (xs : list fl) (i : nat) :
  Forall (nan_or P) xs -> (1 <= mp)%nat -> (i < length xs)%nat ->
  ((length (observations w xs i) < mp)%nat /\
   at_ (rolling_mean w mp xs) i = NaN) \/
  ((mp <= length (observations w xs i))%nat /\
   fsat P (at_ (rolling_mean w mp xs) i)).
Proof.
  intros Hxs Hmp Hi. unfold rolling_mean. rewrite at_col by assumption.
  destruct (Nat.ltb_spec (length (observations w xs i)) mp) as [Hlt|Hge].
  - left. auto.
  - right. split; [exact Hge|].
    apply fmean_sat; [now apply observations_sat | lia].
Qed.

Lemma rolling_mean_nan_or (w mp : nat) (xs : list fl) (i : nat) :
  Forall (nan_or P) xs -> (1 <= mp)%nat ->
  nan_or P (at_ (rolling_mean w mp xs) i).
Proof.
  intros Hxs Hmp. destruct (Nat.lt_ge_cases i (length xs)) as [Hi|Hi].
  - destruct (rolling_mean_cell w mp xs i Hxs Hmp Hi) as [[_ E]|[_ E]];
      [now left | now right].
  - left. apply at_overflow. unfold rolling_mean. now rewrite length_col.
Qed.

Lemma observations_full (w : nat) (xs : list fl) (i : nat) :
  Forall (fsat P) xs -> (i < length xs)%nat ->
  length (observations w xs i) = Nat.min w (i + 1).
Proof.
  intros Hxs Hi. unfold observations, window.
  rewrite filter_all.
  - rewrite length_firstn, length_skipn. lia.
  - intros x Hx. apply firstn_In, skipn_In in Hx.
    rewrite Forall_forall in Hxs. now rewrite (fsat_not_nan _ _ (Hxs x Hx)).
Qed.

(** Over finite cells the mean is defined as soon as the window holds
    [min_periods] rows. *)
Lemma rolling_mean_sat (w mp : nat) (xs : list fl) (i : nat) :
  Forall (fsat P) xs -> (1 <= mp)%nat -> (mp <= w)%nat ->
  (mp <= i + 1)%nat -> (i < length xs)%nat ->
  fsat P (at_ (rolling_mean w mp xs) i).
Proof.
  intros Hxs Hmp Hw Hi Hlen.
  assert (Hn : Forall (nan_or P) xs)
    by (eapply Forall_impl; [|exact Hxs]; intros x Hx; now right).
  destruct (rolling_mean_cell w mp xs i Hn Hmp Hlen) as [[Hlt _]|[_ E]];
    [|exact E].
  rewrite (observations_full w xs i Hxs Hlen) in Hlt. lia.
Qed.

End Rolling.

Lemma any_value_closed :
  any_value 0 /\
  (forall a b, any_value a -> any_value b -> any_value (Qred (a + b))) /\
  (forall a k, any_value a -> (1 <= k)%nat ->
               any_value (Qred (a / inject_Z (Z.of_nat k)))).
Proof. repeat split. Qed.

Lemma nonneg_closed :
  nonneg 0 /\
  (forall a b, nonneg a -> nonneg b -> nonneg (Qred (a + b))) /\
  (forall a k, nonneg a -> (1 <= k)%nat ->
               nonneg (Qred (a / inject_Z (Z.of_nat k)))).
Proof.
  unfold nonneg. split; [apply Qle_refl|]. split.
  - intros a b Ha Hb. rewrite Qred_correct. lra.
  - intros a k Ha Hk. rewrite Qred_correct.
    apply Qle_shift_div_l; [|lra].
    change 0 with (inject_Z 0). rewrite <- Zlt_Qlt. lia.
Qed.

Lemma Forall_col {A : Type} (R : A -> Prop) (n : nat) (f : nat -> A) :
  (forall i, (i < n)%nat -> R (f i)) -> Forall R (col n f).
Proof.
  intros H. unfold col. apply Forall_forall. intros x Hx.
  apply in_map_iff in Hx as (i & <- & Hi). apply in_seq in Hi.
  apply H. lia.
Qed.

Lemma Forall_at (R : fl -> Prop) (xs : list fl) (i : nat) :
  Forall R xs -> (i < length xs)%nat -> R (at_ xs i).
Proof.
  intros H Hi. rewrite Forall_forall in H. apply H. unfold at_.
  now apply nth_In.
Qed.

Lemma at_Forall (R : fl -> Prop) (xs : list fl) :
  (forall i, (i < length xs)%nat -> R (at_ xs i)) -> Forall R xs.
Proof.
  intros H. apply Forall_forall. intros x Hx.
  destruct (In_nth xs x NaN Hx) as (i & Hi & <-). now apply H.
Qed.

Lemma at_map_lt (f : fl -> fl) (xs : list fl) (i : nat) :
  (i < length xs)%nat -> at_ (map f xs) i = f (at_ xs i).
Proof.
  intros H. unfold at_.
  rewrite (nth_indep _ NaN (f NaN)) by now rewrite length_map.
  apply map_nth.
Qed.

Lemma length_rolling_mean (w mp : nat) (xs : list fl) :
  length (rolling_mean w mp xs) = length xs.
Proof. unfold rolling_mean. apply length_col. Qed.

Lemma floor_eps_fin (x : fl) : fsat any_value x -> fsat nonzero (floor_eps x).
Proof.
  intros H. destruct (floor_eps_nan_or x (nan_or_fsat _ _ H)) as [E|E];
    [|exact E].
  destruct H as (a & -> & _). unfold floor_eps in E. cbn in E.
  destruct (Qltb a _); discriminate.
Qed.

(** [np.nanmin] and [np.nanmax] of cells that are undefined or finite:
    both undefined, or finite with min <= max. *)
Lemma nan_fold_min_max (xs : list fl) (amin amax : fl) :
  Forall (nan_or any_value) xs ->
  (amin = NaN /\ amax = NaN) \/
  (exists a b, amin = Fin a /\ amax = Fin b /\ a <= b) ->
  let step pick acc x :=
    if isnan x then acc else if isnan acc then x else pick acc x in
  let lo := fold_left (step fminimum) xs amin in
  let hi := fold_left (step fmaximum) xs amax in
  ((lo = NaN /\ hi = NaN) /\ amin = NaN /\ Forall (fun x => x = NaN) xs) \/
  (exists a b, lo = Fin a /\ hi = Fin b /\ a <= b).
Proof.
  intros Hxs. revert amin amax.
  induction Hxs as [|x xs Hx Hrest IH]; intros amin amax Hacc; cbn zeta.
  - cbn. destruct Hacc as [[-> ->]|H]; [left; auto|right; exact H].
  - cbn [fold_left].
    destruct Hx as [->|(v & -> & _)].
    + cbn [isnan].
      destruct (IH amin amax Hacc) as [(E & Ea & Hall)|H]; [left|right; exact H].
      split; [exact E|]. split; [exact Ea|]. constructor; auto.
    + cbn [isnan]. right.
      assert (Hacc' :
        (exists a b,
           (if isnan amin then Fin v else fminimum amin (Fin v)) = Fin a /\
           (if isnan amax then Fin v else fmaximum amax (Fin v)) = Fin b /\
           a <= b)).
      { destruct Hacc as [[-> ->]|(a & b & -> & -> & Hab)]; cbn.
        - exists v, v. repeat split. apply Qle_refl.
        - destruct (Qltb v a) eqn:E1; destruct (Qltb b v) eqn:E2;
            try apply Qltb_lt in E1; try apply Qltb_lt in E2;
            try apply Qltb_ge in E1; try apply Qltb_ge in E2;
            eexists; eexists; (split; [reflexivity|]); (split; [reflexivity|]);
            lra. }
      destruct (IH _ _ (or_intror Hacc')) as [(_ & Ea & _)|H]; [|exact H].
      destruct Hacc' as (a & b & Ea' & _). congruence.
Qed.

Lemma nanmin_nanmax (xs : list fl) (i : nat) :
  Forall (nan_or any_value) xs ->
  fsat any_value (at_ xs i) ->
  exists a b, nanmin xs = Fin a /\ nanmax xs = Fin b /\ a <= b.
Proof.
  intros Hxs Hi.
  destruct (nan_fold_min_max xs NaN NaN Hxs (or_introl (conj eq_refl eq_refl)))
    as [(_ & _ & Hall)|H]; [|exact H].
  exfalso. destruct Hi as (q & Hq & _).
  destruct (Nat.lt_ge_cases i (length xs)) as [Hlt|Hge].
  - pose proof (Forall_at _ xs i Hall Hlt) as E. cbv beta in E. congruence.
  - rewrite at_overflow in Hq by assumption. discriminate.
Qed.

Section CleanTable.

Variable sqrtQ : Q -> Q.
Variable data : list Bar.
Hypothesis Hclean : Forall clean_bar data.

Let n : nat := length data.

Lemma fin_bar_col (f : Bar -> Q) :
  Forall (fsat any_value) (map (fun b => Fin (f b)) data).
Proof.
  apply Forall_forall. intros x Hx. apply in_map_iff in Hx as (b & <- & _).
  now apply fsat_Fin.
Qed.

Lemma nonzero_close : Forall (fsat nonzero) (c_close data).
Proof.
  unfold c_close. apply Forall_forall. intros x Hx.
  apply in_map_iff in Hx as (b & <- & Hb).
  rewrite Forall_forall in Hclean. destruct (Hclean b Hb) as (Hc & _).
  now apply fsat_Fin.
Qed.

Lemma length_bar_col (f : Bar -> Q) :
  length (map (fun b => Fin (f b)) data) = n.
Proof. apply length_map. Qed.

Lemma fin_close_at (i : nat) : (i < n)%nat -> fsat any_value (at_ (c_close data) i).
Proof.
  intros H. unfold c_close.
  apply Forall_at; [apply fin_bar_col|now rewrite length_map].
Qed.

Lemma fin_high_at (i : nat) : (i < n)%nat -> fsat any_value (at_ (c_high data) i).
Proof.
  intros H. unfold c_high.
  apply Forall_at; [apply fin_bar_col|now rewrite length_map].
Qed.

Lemma fin_low_at (i : nat) : (i < n)%nat -> fsat any_value (at_ (c_low data) i).
Proof.
  intros H. unfold c_low.
  apply Forall_at; [apply fin_bar_col|now rewrite length_map].
Qed.

Lemma nonzero_close_at (i : nat) :
  (i < n)%nat -> fsat nonzero (at_ (c_close data) i).
Proof.
  intros H. apply Forall_at; [apply nonzero_close|].
  unfold c_close. now rewrite length_map.
Qed.

(** *** Returns *)

Lemma fin_returns (i : nat) :
  (i < n)%nat -> fsat any_value (at_ (c_returns data) i).
Proof.
  intros H. unfold c_returns. cbv zeta. rewrite at_col by exact H.
  apply fin_fclip. destruct i as [|j]; [now apply fsat_Fin|].
  apply fin_fdiv; [apply fin_fsub; apply fin_close_at; lia|].
  apply nonzero_close_at. lia.
Qed.

(** *** True range and its average *)

Lemma fin_tr : Forall (fsat any_value) (c_tr data).
Proof.
  unfold c_tr. cbv zeta. apply Forall_col. intros i Hi.
  destruct i as [|j].
  - apply fin_fsub; [apply fin_high_at|apply fin_low_at]; exact Hi.
  - apply fin_fmaximum; [|apply fin_fmaximum; apply fin_fabs];
      apply fin_fsub;
      first [apply fin_high_at|apply fin_low_at|apply fin_close_at]; lia.
Qed.

Lemma length_c_tr : length (c_tr data) = n.
Proof. unfold c_tr. cbv zeta. apply length_col. Qed.

Lemma length_c_atr : length (c_atr data) = n.
Proof. unfold c_atr. now rewrite length_rolling_mean, length_c_tr. Qed.

Lemma fin_atr (i : nat) :
  (13 <= i)%nat -> (i < n)%nat -> fsat any_value (at_ (c_atr data) i).
Proof.
  intros H13 Hi. unfold c_atr, atr_period.
  destruct any_value_closed as (P0 & Pa & Pd).
  apply rolling_mean_sat; try assumption; try lia.
  - apply fin_tr.
  - now rewrite length_c_tr.
Qed.

Lemma nan_or_atr : Forall (nan_or any_value) (c_atr data).
Proof.
  apply at_Forall. intros i _. unfold c_atr, atr_period.
  destruct any_value_closed as (P0 & Pa & Pd).
  apply rolling_mean_nan_or; try assumption; try lia.
  eapply Forall_impl; [|apply fin_tr]. intros x Hx. now right.
Qed.

(** *** Momentum oscillator *)

Lemma fin_delta : Forall (fsat any_value) (c_delta data).
Proof.
  unfold c_delta. cbv zeta. apply Forall_col. intros i Hi.
  destruct i as [|j]; [now apply fsat_Fin|].
  apply fin_fillna; [now apply fsat_Fin|]. right.
  apply fin_fsub; apply fin_close_at; lia.
Qed.

Lemma length_c_delta : length (c_delta data) = n.
Proof. unfold c_delta. cbv zeta. apply length_col. Qed.

Lemma nonneg_gains :
  Forall (fsat nonneg)
    (map (fun d => if flt (Fin 0) d then d else Fin 0) (c_delta data)).
Proof.
  apply Forall_forall. intros x Hx. apply in_map_iff in Hx as (d & <- & Hd).
  pose proof fin_delta as H. rewrite Forall_forall in H.
  destruct (H d Hd) as (q & -> & _). cbn [flt].
  destruct (Qltb 0 q) eqn:E.
  - apply fsat_Fin. apply Qltb_lt in E. unfold nonneg. lra.
  - apply fsat_Fin. unfold nonneg. apply Qle_refl.
Qed.

Lemma nonneg_losses :
  Forall (fsat nonneg)
    (map (fun d => if flt d (Fin 0) then fneg d else Fin 0) (c_delta data)).
Proof.
  apply Forall_forall. intros x Hx. apply in_map_iff in Hx as (d & <- & Hd).
  pose proof fin_delta as H. rewrite Forall_forall in H.
  destruct (H d Hd) as (q & -> & _). cbn [flt fneg].
  destruct (Qltb q 0) eqn:E.
  - apply fsat_Fin. apply Qltb_lt in E. unfold nonneg.
    rewrite Qred_correct. lra.
  - apply fsat_Fin. unfold nonneg. apply Qle_refl.
Qed.

Lemma nonneg_gain (i : nat) :
  (13 <= i)%nat -> (i < n)%nat -> fsat nonneg (at_ (c_gain data) i).
Proof.
  intros H13 Hi. unfold c_gain.
  destruct nonneg_closed as (P0 & Pa & Pd).
  apply rolling_mean_sat; try assumption; try lia.
  - apply nonneg_gains.
  - now rewrite length_map, length_c_delta.
Qed.

Lemma nonneg_loss (i : nat) :
  (13 <= i)%nat -> (i < n)%nat -> fsat nonneg (at_ (c_loss data) i).
Proof.
  intros H13 Hi. unfold c_loss.
  destruct nonneg_closed as (P0 & Pa & Pd).
  apply rolling_mean_sat; try assumption; try lia.
  - apply nonneg_losses.
  - now rewrite length_map, length_c_delta.
Qed.

Lemma nonneg_rs (i : nat) :
  (13 <= i)%nat -> (i < n)%nat -> fsat nonneg (at_ (c_rs data) i).
Proof.
  intros H13 Hi. rewrite c_rs_at by exact Hi.
  destruct (nonneg_gain i H13 Hi) as (g & -> & Hg).
  destruct (nonneg_loss i H13 Hi) as (l & -> & Hl).
  cbn [fne fdiv]. destruct (Qeqb l 0) eqn:E; cbn [negb].
  - apply fsat_Fin. unfold nonneg. apply Qle_refl.
  - apply fsat_Fin. unfold nonneg in *. rewrite Qred_correct.
    apply Qeqb_neq in E.
    apply Qle_shift_div_l; [|lra].
    destruct (Qlt_le_dec 0 l) as [H|H]; [exact H|].
    exfalso. apply E. now apply Qle_antisym.
Qed.

Lemma fin_rsi_norm (i : nat) :
  (13 <= i)%nat -> (i < n)%nat -> fsat any_value (at_ (c_rsi_norm data) i).
Proof.
  intros H13 Hi. rewrite c_rsi_norm_at, c_rsi_at.
  destruct (nonneg_rs i H13 Hi) as (r & -> & Hr).
  apply fin_fsub; [|now apply fsat_Fin].
  apply fin_fdiv; [|apply fsat_Fin; unfold nonzero; discriminate].
  apply fin_fsub; [now apply fsat_Fin|].
  apply fin_fdiv; [now apply fsat_Fin|].
  cbn [fadd]. apply fsat_Fin. unfold nonzero, nonneg in *.
  rewrite Qred_correct. lra.
Qed.

(** *** Normalised volatility *)

Lemma length_c_atr_ratio : length (c_atr_ratio data) = n.
Proof. unfold c_atr_ratio. cbv zeta. apply length_col. Qed.

Lemma atr_ratio_at (i : nat) :
  (i < n)%nat ->
  at_ (c_atr_ratio data) i = fdiv (at_ (c_atr data) i) (at_ (c_close data) i).
Proof. intros H. unfold c_atr_ratio. cbv zeta. now rewrite at_col. Qed.

Lemma nan_or_atr_ratio : Forall (nan_or any_value) (c_atr_ratio data).
Proof.
  apply at_Forall. intros i Hi. rewrite length_c_atr_ratio in Hi.
  rewrite atr_ratio_at by exact Hi.
  apply nan_or_fdiv.
  - apply Forall_at; [apply nan_or_atr|now rewrite length_c_atr].
  - right. now apply nonzero_close_at.
Qed.

Lemma fin_atr_ratio (i : nat) :
  (13 <= i)%nat -> (i < n)%nat -> fsat any_value (at_ (c_atr_ratio data) i).
Proof.
  intros H13 Hi. rewrite atr_ratio_at by exact Hi.
  apply fin_fdiv; [now apply fin_atr|now apply nonzero_close_at].
Qed.

Lemma fin_atr_norm (i : nat) :
  (13 <= i)%nat -> (i < n)%nat -> fsat any_value (at_ (c_atr_norm data) i).
Proof.
  intros H13 Hi. unfold c_atr_norm. cbv zeta.
  rewrite at_map_lt by now rewrite length_c_atr_ratio.
  pose proof (fin_atr_ratio i H13 Hi) as Hr.
  destruct (nanmin_nanmax _ i nan_or_atr_ratio Hr) as (lo & hi & -> & -> & Hle).
  apply fin_fsub; [|now apply fsat_Fin].
  apply fin_fdiv.
  - apply fin_fmul; [now apply fsat_Fin|].
    apply fin_fsub; [exact Hr|now apply fsat_Fin].
  - unfold eps. cbn [fsub fneg fadd]. apply fsat_Fin. unfold nonzero.
    rewrite !Qred_correct. lra.
Qed.

(** *** Trend strength *)

Lemma fin_dm (f : Bar -> Q) (i : nat) (swap : bool) :
  (i < n)%nat ->
  let c := map (fun b => Fin (f b)) data in
  fsat any_value
    match i with
    | O => Fin 0
    | S j =>
        fmaximum (if swap then fsub (at_ c j) (at_ c i)
                  else fsub (at_ c i) (at_ c j)) (Fin 0)
    end.
Proof.
  intros Hi c. destruct i as [|j]; [now apply fsat_Fin|].
  assert (Hc : forall k, (k < n)%nat -> fsat any_value (at_ c k)).
  { intros k Hk. apply Forall_at; [apply fin_bar_col|].
    unfold c. now rewrite length_map. }
  apply fin_fmaximum; [|now apply fsat_Fin].
  destruct swap; apply fin_fsub; apply Hc; lia.
Qed.

Lemma fin_pdm : Forall (fsat any_value) (c_pdm data).
Proof.
  unfold c_pdm. cbv zeta. apply Forall_col. intros i Hi.
  exact (fin_dm bar_high i false Hi).
Qed.

Lemma fin_ndm : Forall (fsat any_value) (c_ndm data).
Proof.
  unfold c_ndm. cbv zeta. apply Forall_col. intros i Hi.
  exact (fin_dm bar_low i true Hi).
Qed.

Lemma fin_smoothed (xs : list fl) :
  Forall (nan_or any_value) xs ->
  Forall (fsat any_value)
    (map (fillna (Fin 0)) (rolling_mean atr_period 1 xs)).
Proof.
  intros Hxs. apply Forall_forall. intros x Hx.
  apply in_map_iff in Hx as (y & <- & Hy).
  apply fin_fillna; [now apply fsat_Fin|].
  destruct (In_nth _ _ NaN Hy) as (i & _ & <-).
  destruct any_value_closed as (P0 & Pa & Pd).
  apply (rolling_mean_nan_or any_value P0 Pa Pd); [exact Hxs|lia].
Qed.

Lemma fin_as_nan_or (xs : list fl) :
  Forall (fsat any_value) xs -> Forall (nan_or any_value) xs.
Proof. intros H. eapply Forall_impl; [|exact H]. intros x Hx. now right. Qed.

Lemma length_smoothed (xs : list fl) :
  length (map (fillna (Fin 0)) (rolling_mean atr_period 1 xs)) = length xs.
Proof. now rewrite length_map, length_rolling_mean. Qed.

Lemma length_c_pdm : length (c_pdm data) = n.
Proof. unfold c_pdm. cbv zeta. apply length_col. Qed.

Lemma length_c_ndm : length (c_ndm data) = n.
Proof. unfold c_ndm. cbv zeta. apply length_col. Qed.

Lemma nan_or_atr_safe (i : nat) :
  (i < n)%nat -> nan_or nonzero (at_ (c_atr_safe data) i).
Proof.
  intros Hi. unfold c_atr_safe.
  rewrite at_map_lt by now rewrite length_c_atr.
  apply floor_eps_nan_or.
  apply Forall_at; [apply nan_or_atr|now rewrite length_c_atr].
Qed.

Lemma nan_or_pdi : Forall (nan_or any_value) (c_pdi data).
Proof.
  unfold c_pdi. cbv zeta. apply Forall_col. intros i Hi.
  apply nan_or_fmul; [|right; now apply fsat_Fin].
  apply nan_or_fdiv; [|now apply nan_or_atr_safe]. right.
  apply Forall_at.
  - unfold c_pdm_smooth. apply fin_smoothed, fin_as_nan_or, fin_pdm.
  - unfold c_pdm_smooth. now rewrite length_smoothed, length_c_pdm.
Qed.

Lemma nan_or_ndi : Forall (nan_or any_value) (c_ndi data).
Proof.
  unfold c_ndi. cbv zeta. apply Forall_col. intros i Hi.
  apply nan_or_fmul; [|right; now apply fsat_Fin].
  apply nan_or_fdiv; [|now apply nan_or_atr_safe]. right.
  apply Forall_at.
  - unfold c_ndm_smooth. apply fin_smoothed, fin_as_nan_or, fin_ndm.
  - unfold c_ndm_smooth. now rewrite length_smoothed, length_c_ndm.
Qed.

Lemma nan_or_dx : Forall (nan_or any_value) (c_dx data).
Proof.
  unfold c_dx. cbv zeta. apply Forall_col. intros i Hi.
  assert (Hp : nan_or any_value (at_ (c_pdi data) i)).
  { apply Forall_at; [apply nan_or_pdi|].
    unfold c_pdi. cbv zeta. now rewrite length_col. }
  assert (Hn : nan_or any_value (at_ (c_ndi data) i)).
  { apply Forall_at; [apply nan_or_ndi|].
    unfold c_ndi. cbv zeta. now rewrite length_col. }
  apply nan_or_fmul; [|right; now apply fsat_Fin].
  apply nan_or_fdiv.
  - now apply nan_or_fabs, nan_or_fsub.
  - now apply floor_eps_nan_or, nan_or_fadd.
Qed.

Lemma length_c_dx : length (c_dx data) = n.
Proof. unfold c_dx. cbv zeta. apply length_col. Qed.

Lemma fin_trend_strength (i : nat) :
  (i < n)%nat -> fsat any_value (at_ (c_trend_strength data) i).
Proof.
  intros Hi. unfold c_trend_strength, c_adx.
  rewrite at_map_lt by now rewrite length_smoothed, length_c_dx.
  apply fin_fclip. apply fin_fsub; [|now apply fsat_Fin].
  apply fin_fdiv; [|apply fsat_Fin; unfold nonzero; discriminate].
  apply Forall_at; [apply fin_smoothed, nan_or_dx|].
  now rewrite length_smoothed, length_c_dx.
Qed.

(** *** Bollinger band position *)

Lemma length_rolling_std (w mp : nat) (xs : list fl) :
  length (rolling_std sqrtQ w mp xs) = length xs.
Proof. unfold rolling_std. apply length_col. Qed.

Lemma Fnat_nonzero (k : nat) : (1 <= k)%nat -> fsat nonzero (Fnat k).
Proof.
  intros H. unfold Fnat. apply fsat_Fin. unfold nonzero. intros E.
  change 0 with (inject_Z 0) in E.
  apply (proj1 (inject_Z_injective _ _)) in E. lia.
Qed.

Lemma rolling_std_nan_or (w mp : nat) (xs : list fl) (i : nat) :
  Forall (fsat any_value) xs ->
  nan_or any_value (at_ (rolling_std sqrtQ w mp xs) i).
Proof.
  intros Hxs. destruct (Nat.lt_ge_cases i (length xs)) as [Hi|Hi].
  2:{ left. apply at_overflow. now rewrite length_rolling_std. }
  unfold rolling_std. rewrite at_col by exact Hi.
  set (o := observations w xs i).
  destruct ((length o <? mp)%nat || (length o <=? 1)%nat) eqn:E; [now left|].
  apply orb_false_iff in E as [_ E]. apply Nat.leb_gt in E.
  destruct any_value_closed as (P0 & Pa & Pd).
  assert (Ho : Forall (fsat any_value) o)
    by (apply (observations_sat any_value); now apply fin_as_nan_or).
  assert (Hm : fsat any_value (fdiv (fsum o) (Fnat (length o))))
    by (apply (fmean_sat any_value P0 Pa Pd); [exact Ho|lia]).
  set (m := fdiv (fsum o) (Fnat (length o))) in *.
  assert (Hss : fsat any_value
                  (fsum (map (fun x => fmul (fsub x m) (fsub x m)) o))).
  { apply (fsum_sat any_value P0 Pa). apply Forall_forall. intros y Hy.
    apply in_map_iff in Hy as (x & <- & Hx).
    rewrite Forall_forall in Ho.
    apply fin_fmul; apply fin_fsub; auto. }
  assert (Hv : fsat any_value
                 (fdiv (fsum (map (fun x => fmul (fsub x m) (fsub x m)) o))
                    (Fnat (length o - 1))))
    by (apply fin_fdiv; [exact Hss|apply Fnat_nonzero; lia]).
  destruct Hv as (v & -> & _). unfold fsqrt.
  destruct (Qltb v 0); [now left|right; now apply fsat_Fin].
Qed.

Lemma fin_boll_std (i : nat) :
  (i < n)%nat -> fsat any_value (at_ (c_boll_std sqrtQ data) i).
Proof.
  intros Hi. unfold c_boll_std.
  rewrite at_map_lt
    by (rewrite length_rolling_std; unfold c_close; now rewrite length_map).
  apply fin_fillna; [now apply fsat_Fin|].
  apply rolling_std_nan_or. unfold c_close. apply fin_bar_col.
Qed.

Lemma fin_ma20 (i : nat) :
  (i < n)%nat -> fsat any_value (at_ (c_ma20 data) i).
Proof.
  intros Hi. unfold c_ma20. cbv zeta.
  assert (Hl : length (c_close data) = n) by (unfold c_close; apply length_map).
  rewrite at_map_lt by now rewrite length_rolling_mean, Hl.
  destruct any_value_closed as (P0 & Pa & Pd).
  assert (Hc : fsat any_value (at_ (rolling_mean 20 1 (c_close data)) i)).
  { apply (rolling_mean_sat any_value P0 Pa Pd); try lia.
    unfold c_close. apply fin_bar_col. }
  unfold fillna. now rewrite (fsat_not_nan _ _ Hc).
Qed.

Lemma fin_volatility_breakout (i : nat) :
  (i < n)%nat -> fsat any_value (at_ (c_volatility_breakout sqrtQ data) i).
Proof.
  intros Hi. unfold c_volatility_breakout. cbv zeta.
  rewrite at_col by exact Hi.
  pose proof (fin_ma20 i Hi) as Hma.
  pose proof (fin_boll_std i Hi) as Hsd.
  pose proof (fin_close_at i Hi) as Hc.
  assert (H2 : fsat any_value (fmul (at_ (c_boll_std sqrtQ data) i) (Fin 2)))
    by (apply fin_fmul; [exact Hsd|now apply fsat_Fin]).
  assert (Hup : fsat any_value
                  (fadd (at_ (c_ma20 data) i)
                     (fmul (at_ (c_boll_std sqrtQ data) i) (Fin 2))))
    by now apply fin_fadd.
  assert (Hlo : fsat any_value
                  (fsub (at_ (c_ma20 data) i)
                     (fmul (at_ (c_boll_std sqrtQ data) i) (Fin 2))))
    by now apply fin_fsub.
  apply fin_fclip.
  match goal with
  | |- fsat _ (if fne ?band _ then _ else _) =>
      assert (Hband : fsat nonzero band)
        by (apply floor_eps_fin; now apply fin_fsub);
      destruct (fne band (Fin 0))
  end.
  - apply fin_fdiv; [now apply fin_fsub|exact Hband].
  - now apply fsat_Fin.
Qed.

(** *** Candle pattern *)

Lemma bar_at (i : nat) :
  (i < n)%nat ->
  exists b,
    clean_bar b /\
    at_ (c_close data) i = Fin (bar_close b) /\
    at_ (c_open data) i = Fin (bar_open b) /\
    at_ (c_high data) i = Fin (bar_high b) /\
    at_ (c_low data) i = Fin (bar_low b).
Proof.
  intros Hi. destruct (nth_error data i) as [b|] eqn:E.
  2:{ apply nth_error_None in E. unfold n in Hi. lia. }
  exists b. split.
  - rewrite Forall_forall in Hclean. apply Hclean.
    eapply nth_error_In; exact E.
  - unfold at_, c_close, c_open, c_high, c_low.
    repeat split; apply nth_error_nth; rewrite nth_error_map, E; reflexivity.
Qed.

Lemma fin_candle_pattern (i : nat) :
  (i < n)%nat -> fsat any_value (at_ (c_candle_pattern data) i).
Proof.
  intros Hi. unfold c_candle_pattern. cbv zeta. rewrite at_col by exact Hi.
  destruct (bar_at i Hi) as (b & (_ & Hlo & Hlc & Hoh & Hch) & -> & -> & -> & ->).
  set (c := bar_close b) in *. set (o := bar_open b) in *.
  set (h := bar_high b) in *. set (l := bar_low b) in *.
  apply fin_fclip.
  apply fin_fdiv; [|apply fsat_Fin; unfold nonzero; discriminate].
  apply fin_fadd.
  - apply fin_fdiv; [apply fin_fsub; now apply fsat_Fin|].
    unfold eps. cbn [fsub fneg fadd]. apply fsat_Fin. unfold nonzero.
    rewrite !Qred_correct. lra.
  - apply fin_fdiv.
    + apply fin_fsub; apply fin_fsub;
        first [now apply fsat_Fin
              |apply fin_fmaximum; now apply fsat_Fin
              |apply fin_fminimum; now apply fsat_Fin].
    + unfold eps. cbn [fmaximum fminimum flt].
      destruct (Qltb c o) eqn:E1; destruct (Qltb o c) eqn:E2;
        cbn [fsub fneg fadd]; apply fsat_Fin; unfold nonzero;
        rewrite !Qred_correct;
        try apply Qltb_lt in E1; try apply Qltb_lt in E2;
        try apply Qltb_ge in E1; try apply Qltb_ge in E2; lra.
Qed.

(** *** Rows *)

Lemma row_defined_after_warmup (i : nat) :
  (13 <= i)%nat -> (i < n)%nat ->
  row_defined
    (i, [ at_ (c_returns data) i; at_ (c_rsi_norm data) i;
          at_ (c_atr_norm data) i; at_ (c_volatility_breakout sqrtQ data) i;
          at_ (c_trend_strength data) i; at_ (c_candle_pattern data) i ])
  = true.
Proof.
  intros H13 Hi. unfold row_defined. cbn [snd forallb].
  rewrite (fsat_not_nan _ _ (fin_returns i Hi)).
  rewrite (fsat_not_nan _ _ (fin_rsi_norm i H13 Hi)).
  rewrite (fsat_not_nan _ _ (fin_atr_norm i H13 Hi)).
  rewrite (fsat_not_nan _ _ (fin_volatility_breakout i Hi)).
  rewrite (fsat_not_nan _ _ (fin_trend_strength i Hi)).
  rewrite (fsat_not_nan _ _ (fin_candle_pattern i Hi)).
  reflexivity.
Qed.

End CleanTable.

Lemma filter_none {A : Type} (g : A -> bool) (l : list A) :
  (forall x, In x l -> g x = false) -> filter g l = [].
Proof.
  induction l as [|x l IH]; intros H; [reflexivity|].
  cbn. rewrite (H x (or_introl eq_refl)).
  apply IH. intros y Hy. apply H. now right.
Qed.

Lemma filter_col_exact {A : Type} (g : A -> bool) (h : nat -> A) (m n : nat) :
  (m <= n)%nat ->
  (forall i, (i < m)%nat -> g (h i) = true) ->
  (forall i, (m <= i)%nat -> (i < n)%nat -> g (h i) = false) ->
  length (filter g (col n h)) = m.
Proof.
  intros Hmn Ht Hf. unfold col.
  replace n with (m + (n - m))%nat by lia.
  rewrite seq_app, map_app, filter_app, length_app.
  rewrite filter_all, filter_none.
  - rewrite length_map, length_seq. cbn. lia.
  - intros x Hx. apply in_map_iff in Hx as (i & <- & Hi).
    apply in_seq in Hi. apply Hf; lia.
  - intros x Hx. apply in_map_iff in Hx as (i & <- & Hi).
    apply in_seq in Hi. apply Ht. lia.
Qed.

(** On a clean table the warm-up rows are the only undefined ones. *)
Lemma undefined_rows_clean (sqrtQ : Q -> Q) (data : list Bar) :
  Forall clean_bar data ->
  undefined_rows sqrtQ data = Nat.min (length data) 13.
Proof.
  intros Hclean. unfold undefined_rows, full_frame. cbv zeta.
  apply filter_col_exact; [lia| |].
  - intros i Hi. unfold row_defined. cbn [snd forallb].
    rewrite c_rsi_norm_warmup by lia. cbn.
    now rewrite andb_false_r.
  - intros i H13 Hi.
    rewrite (row_defined_after_warmup sqrtQ data Hclean i); [reflexivity|lia|lia].
Qed.

(** What [_preprocess_data] does with a table.  Rows holding an
    undefined value are dropped first, and the 20-bar look-back is then
    cut from what remains: (input length) - (rows with an undefined
    value) - 20 rows are kept.  Below 100 kept rows the insufficient-data
    error is raised; otherwise a table that repeats a timestamp raises
    in the label lookup, and a table with distinct timestamps is
    accepted, the feature rows, the ATR values, the four price arrays
    and the index all having the kept length.  The first 13 rows of any
    table hold an undefined value (the 14-period averages have no full
    window there), so every table of fewer than 133 rows is rejected.
    On a clean table (every close non-zero, open and close inside
    [low, high]) these are the only undefined rows. *)
Lemma preprocess_outcome
    (sqrtQ : Q -> Q) (data : list Bar) (Hne : data <> []) :
  let kept := (length data - undefined_rows sqrtQ data - 20)%nat in
  (Nat.min (length data) 13 <= undefined_rows sqrtQ data)%nat /\
  ((kept < 100)%nat ->
   _preprocess_data sqrtQ data = Raise (InsufficientData kept)) /\
  ((100 <= kept)%nat -> is_unique (map bar_time data) = false ->
   _preprocess_data sqrtQ data = Raise InvalidIndexError) /\
  ((100 <= kept)%nat -> is_unique (map bar_time data) = true ->
   exists p,
     _preprocess_data sqrtQ data = Ok p /\
     length (features_df p) = kept /\
     length (atr_values p) = kept /\
     length (p_close (pre_prices p)) = kept /\
     length (p_high (pre_prices p)) = kept /\
     length (p_low (pre_prices p)) = kept /\
     length (p_spread (pre_prices p)) = kept /\
     length (p_atr (pre_prices p)) = kept /\
     length (valid_indices p) = kept) /\
  ((length data < 133)%nat ->
   exists k, (k < 100)%nat /\
             _preprocess_data sqrtQ data = Raise (InsufficientData k)) /\
  (Forall clean_bar data ->
   undefined_rows sqrtQ data = Nat.min (length data) 13).
Proof.
  destruct data as [|b0 rest]; [congruence|].
  remember (b0 :: rest) as data eqn:Ed.
  intros kept.
  pose proof (undefined_rows_warmup sqrtQ data) as Hw.
  pose proof (trimmed_frame_length sqrtQ data) as Hlen. fold kept in Hlen.
  assert (Hpre :
    _preprocess_data sqrtQ data =
    if (length (trimmed_frame sqrtQ data) <? 100)%nat
    then Raise (InsufficientData (length (trimmed_frame sqrtQ data)))
    else if negb (is_unique (map bar_time data)) then Raise InvalidIndexError
    else
      let valid_positions := map fst (trimmed_frame sqrtQ data) in
      let atr := take_rows (c_atr data) NaN valid_positions in
      let rows := take_rows data b0 valid_positions in
      Ok (mkPreprocessed (map snd (trimmed_frame sqrtQ data)) atr
            (mkPrices (map bar_close rows) (map bar_high rows)
               (map bar_low rows) (map bar_spread rows) atr)
            (map bar_time rows))).
  { rewrite Ed. reflexivity. }
  rewrite Hlen in Hpre.
  assert (Hsmall : (kept < 100)%nat ->
                   _preprocess_data sqrtQ data = Raise (InsufficientData kept)).
  { intros Hk. rewrite Hpre.
    destruct (Nat.ltb_spec kept 100); [reflexivity|lia]. }
  split; [exact Hw|]. split; [exact Hsmall|].
  split; [|split; [|split]].
  - intros Hk Hu. rewrite Hpre, Hu.
    destruct (Nat.ltb_spec kept 100); [lia|reflexivity].
  - intros Hk Hu. rewrite Hpre, Hu.
    destruct (Nat.ltb_spec kept 100); [lia|].
    eexists. split; [reflexivity|].
    cbv zeta.
    cbn [features_df atr_values pre_prices valid_indices p_close p_high p_low
         p_spread p_atr].
    unfold take_rows. rewrite !length_map, Hlen. auto 10.
  - intros Hn. exists kept.
    assert (Hk : (kept < 100)%nat) by (unfold kept; lia).
    split; [exact Hk|]. now apply Hsmall.
  - intros Hclean. exact (undefined_rows_clean sqrtQ data Hclean).
Qed.

(** C1.  The code on a table the claim covers.  The 120-bar zig-zag
    table has 120 rows, distinct timestamps and no missing value.  The
    only rows of its feature frame that hold an undefined value are the
    first 13 (the 14-period rolling means have no full window there),
    all of them inside the 20-bar look-back: the 100 rows after the
    look-back are complete, which is the feature series the claim
    promises.  [_preprocess_data] instead drops the 13 rows before it
    cuts the look-back from what remains (the comment above the call
    announces a forward fill, the call is dropna()), keeps 87 rows and
    raises the insufficient-data error. *)
Theorem clean_120_bar_table_is_rejected :
  length (zigzag 120) = 120%nat /\
  is_unique (map bar_time (zigzag 120)) = true /\
  map fst (filter (fun r => negb (row_defined r))
             (full_frame sqrt8 (zigzag 120))) = seq 0 13 /\
  length (skipn lookback (full_frame sqrt8 (zigzag 120))) = 100%nat /\
  forallb row_defined (skipn lookback (full_frame sqrt8 (zigzag 120)))
  = true /\
  length (dropna (full_frame sqrt8 (zigzag 120))) = 107%nat /\
  _preprocess_data sqrt8 (zigzag 120) = Raise (InsufficientData 87).
Proof.
  split; [vm_compute; reflexivity|].
  split; [vm_compute; reflexivity|].
  split; [vm_compute; reflexivity|].
  split; [vm_compute; reflexivity|].
  split; [vm_compute; reflexivity|].
  split; vm_compute; reflexivity.
Qed.

(** The same market is accepted once the table has 133 rows, with
    exactly 100 feature rows; a table that repeats a timestamp is not,
    whatever its length. *)
Lemma preprocess_133_rows :
  (exists p,
     _preprocess_data sqrt8 (zigzag 133) = Ok p /\
     length (features_df p) = 100%nat) /\
  _preprocess_data sqrt8 (zigzag 132) = Raise (InsufficientData 99) /\
  _preprocess_data sqrt8 (zigzag 133 ++ [mkBar 0 100 101 99 100 2])
  = Raise InvalidIndexError.
Proof.
  split; [|split; vm_compute; reflexivity].
  assert (Hne : zigzag 133 <> []) by (vm_compute; discriminate).
  destruct (preprocess_outcome sqrt8 (zigzag 133) Hne)
    as (_ & _ & _ & Hok & _ & _).
  assert (Hu : undefined_rows sqrt8 (zigzag 133) = 13%nat)
    by (vm_compute; reflexivity).
  assert (Hl : length (zigzag 133) = 133%nat) by (vm_compute; reflexivity).
  rewrite Hu, Hl in Hok. cbn [Nat.sub] in Hok.
  destruct (Hok (le_n 100)) as (p & Hp & Hf & _);
    [vm_compute; reflexivity|].
  exists p. split; assumption.
Qed.

(** * Further properties of the engine *)

(** ** The ledger invariant *)

Lemma Qsum_snoc (xs : list Q) (x : Q) : Qsum (xs ++ [x]) = Qsum xs + x.
Proof. unfold Qsum. now rewrite fold_left_app. Qed.

Lemma Qleb_negb_Qltb (a b : Q) : Qleb a b = negb (Qltb b a).
Proof.
  unfold Qleb, Qltb. rewrite <- (Qcompare_antisym a b).
  now destruct (a ?= b).
Qed.

Lemma metrics_of_direction (ts : list Trade) (d d' : Z) :
  set_current_direction d' (metrics_of ts d) = metrics_of ts d'.
Proof. now destruct ts. Qed.

Lemma position_ok_set_pips (cursor : nat) (p : Position) (v : Q) :
  position_ok cursor (set_current_profit_pips v p) <-> position_ok cursor p.
Proof. reflexivity. Qed.

Lemma position_ok_later (c c' : nat) (p : Position) :
  (c <= c')%nat -> position_ok c p -> position_ok c' p.
Proof. intros H (Hd & Hl & He). repeat split; try tauto. lia. Qed.

Lemma open_direction_core (s s' : TradingEnv) :
  position_core s' = position_core s -> open_direction s' = open_direction s.
Proof.
  unfold position_core, open_direction. intros H.
  destruct (current_position s') as [p'|], (current_position s) as [p|];
    try discriminate; [|reflexivity].
  cbn in H. injection H as H _. exact H.
Qed.

(** The invariant depends on the account, the metrics and the position
    without its pip figure. *)
Lemma book_invariant_frame (s s' : TradingEnv) :
  account_of s' = account_of s ->
  trade_metrics s' = trade_metrics s ->
  position_core s' = position_core s ->
  book_invariant s -> book_invariant s'.
Proof.
  intros A M C (Hw & Hl & Hb & Hm & Ht & Hts & Hp).
  pose proof (open_direction_core _ _ C) as Hd.
  fields A. unfold book_invariant.
  repeat match goal with H : _ s' = _ |- _ => rewrite H end.
  do 6 (split; [assumption|]).
  intros p' Hp'.
  destruct (current_position s) as [p|] eqn:E.
  - assert (Hc : position_core s = Some (set_current_profit_pips 0 p))
      by (unfold position_core; now rewrite E).
    rewrite <- C in Hc. unfold position_core in Hc. rewrite Hp' in Hc.
    cbn in Hc. injection Hc as H1 H2 H3 H4 H5 H6.
    destruct (Hp p eq_refl) as (Hdir & Hlot & Hent).
    unfold position_ok. rewrite H1, H3, H5. auto.
  - apply (position_core_None _ _ C) in E. congruence.
Qed.

Lemma book_invariant_advance (s : TradingEnv) :
  book_invariant s -> book_invariant (advance s).
Proof.
  intros (Hw & Hl & Hb & Hm & Ht & Hts & Hp).
  unfold book_invariant.
  do 3 (split; [assumption|]).
  split.
  { cbn. unfold py_max. destruct (Qltb (balance s) (max_balance s)) eqn:E;
      [exact Hm|]. apply Qltb_ge in E. lra. }
  do 2 (split; [assumption|]).
  intros p E. cbn in E |- *.
  apply position_ok_later with (current_step s); [lia|]. now apply Hp.
Qed.

Lemma book_invariant_set_reward (s : TradingEnv) (r : Q) :
  book_invariant s -> book_invariant (set_reward r s).
Proof. exact (fun H => H). Qed.

Lemma book_invariant_execute (s s' : TradingEnv) (dir : Z) (sp r : Q) :
  _execute_trade s dir sp = Ok (s', r) ->
  book_invariant s -> book_invariant s'.
Proof.
  intros H Hinv. destruct (current_position s) as [p|] eqn:E.
  - rewrite (execute_trade_open s dir sp p E) in H. now inv_ok.
  - destruct (execute_trade_flat _ _ _ _ _ E H)
      as (price & atr & time & _ & _ & _ & _ & _ & Hs').
    subst s'. destruct Hinv as (Hw & Hl & Hb & Hm & Ht & Hts & Hp).
    unfold book_invariant.
    do 4 (split; [assumption|]).
    split.
    { unfold open_direction. cbn. rewrite Ht. apply metrics_of_direction. }
    split; [assumption|].
    intros p Hp'. cbn in Hp'. injection Hp' as <-.
    unfold position_ok, opened_position. cbn.
    split; [destruct (dir =? 1)%Z; auto|].
    split; [apply lot_clamp|lia].
Qed.

Lemma closed_trade_ok (cursor : nat) (pos : Position) (price : Q) (time : Z) :
  position_ok cursor pos -> trade_ok (closed_trade cursor pos price time).
Proof.
  intros (Hd & Hl & He). unfold trade_ok, closed_trade.
  cbn [t_position exit_step hold_time pnl exit_price profit_pips].
  split; [unfold position_ok; tauto|].
  split; [reflexivity|]. split; [lia|]. split.
  - unfold profit_points_of.
    destruct Hd as [E | E]; rewrite E; cbn [Z.eqb Pos.eqb].
    + change (inject_Z 1) with 1. ring.
    + change (inject_Z (-1)) with (- (1)). ring.
  - unfold PIP_VALUE. field.
Qed.

Lemma book_invariant_after_close
    (s : TradingEnv) (pos : Position) (price : Q) (time : Z) :
  current_position s = Some pos ->
  book_invariant s ->
  book_invariant
    (after_close s (closed_trade (current_step s) pos price time)).
Proof.
  intros E (Hw & Hl & Hb & Hm & Ht & Hts & Hp).
  set (t := closed_trade (current_step s) pos price time).
  destruct (after_close_fields s t) as (B & T & P & C & F & M).
  injection F as F1 F2 F3 F4 F5 F6 F7 F8 F9 F10 F11 F12 F13.
  assert (Hcount :
    win_count (after_close s t) = length (winning_trades (trades s ++ [t])) /\
    loss_count (after_close s t) = length (losing_trades (trades s ++ [t]))).
  { rewrite winning_trades_snoc, losing_trades_snoc, !length_app.
    rewrite Qleb_negb_Qltb.
    destruct (Qltb 0 (pnl t)); injection C as -> ->; cbn [negb length];
      split; lia. }
  destruct Hcount as [Hw' Hl'].
  unfold book_invariant, open_direction.
  rewrite B, T, P, M, F7, F9, Hw', Hl'.
  split; [reflexivity|]. split; [reflexivity|].
  split; [rewrite map_app; cbn [map]; rewrite Qsum_snoc, Hb; ring|].
  split; [assumption|].
  split; [unfold metrics_of; now destruct (trades s)|].
  split.
  - apply Forall_app. split; [assumption|].
    constructor; [|constructor]. apply closed_trade_ok. now apply Hp.
  - discriminate.
Qed.

Lemma book_invariant_close (s s' : TradingEnv) (v : Q) :
  _close_position s = Ok (s', v) ->
  book_invariant s -> book_invariant s'.
Proof.
  intros H Hinv. destruct (current_position s) as [p|] eqn:E.
  - destruct (close_position_open _ _ _ _ E H)
      as (price & time & _ & _ & _ & Hs' & _).
    subst s'. now apply book_invariant_after_close.
  - rewrite (close_position_flat s E) in H. now inv_ok.
Qed.

Lemma book_invariant_step (s s' : TradingEnv) (a : Z) (r : StepResult) :
  step s a = Ok (s', r) -> book_invariant s -> book_invariant s'.
Proof.
  intros H Hs.
  apply step_spec in H
    as (sm & u & d & sc & Happ & _ & _ & Hliq & _ & _ & Hacc & Hmet & Hcore).
  apply step_apply_spec in Happ as (raw & s2 & _ & Hdis & Hman).
  apply (book_invariant_frame _ _ Hacc Hmet Hcore).
  apply book_invariant_set_reward.
  assert (H2 : book_invariant s2).
  { apply book_invariant_advance in Hs.
    destruct Hdis as [_ ->|r0 _ He|v _ Hc].
    - exact Hs.
    - eapply book_invariant_execute; eassumption.
    - eapply book_invariant_close; eassumption. }
  assert (Hm : book_invariant sm).
  { apply manage_position_spec in Hman as (A & M & C & _).
    now apply (book_invariant_frame _ _ A M C). }
  destruct Hliq as [_ ->|pos v _ _ Hc]; [assumption|].
  eapply book_invariant_close; eassumption.
Qed.

Lemma book_invariant_reset (s s' : TradingEnv) (e : nat) (o : list fl) :
  reset s e = Ok (s', o) -> book_invariant s'.
Proof.
  unfold reset. intros H. apply bind_Ok in H as (start & _ & H).
  apply get_history_spec in H as (A & M & C & _).
  apply (book_invariant_frame _ _ A M C).
  unfold book_invariant, open_direction. cbn.
  split; [reflexivity|]. split; [reflexivity|].
  split; [unfold Qsum; cbn; ring|]. split; [apply Qle_refl|].
  split; [reflexivity|]. split; [constructor|discriminate].
Qed.

Lemma book_invariant_init (sqrtQ : Q -> Q) (data : list Bar) (ib bpl : Q)
    (rs : bool) (s : TradingEnv) :
  TradingEnv_init sqrtQ data ib bpl rs = Ok s -> book_invariant s.
Proof.
  unfold TradingEnv_init. intros H.
  apply bind_Ok in H as (p & _ & H). injection H as <-.
  unfold book_invariant, open_direction. cbn.
  split; [reflexivity|]. split; [reflexivity|].
  split; [unfold Qsum; cbn; ring|]. split; [apply Qle_refl|].
  split; [reflexivity|]. split; [constructor|discriminate].
Qed.

Lemma reachable_book_invariant (sqrtQ : Q -> Q) (s : TradingEnv) :
  reachable sqrtQ s -> book_invariant s.
Proof.
  induction 1.
  - eapply book_invariant_init; eassumption.
  - eapply book_invariant_reset; eassumption.
  - eapply book_invariant_step; eassumption.
Qed.

Lemma reachable_run (sqrtQ : Q -> Q) (s : TradingEnv) (actions : list Z) :
  reachable sqrtQ s -> reachable sqrtQ (run s actions).
Proof.
  revert s. induction actions as [|a rest IH]; intros s H; [exact H|].
  cbn [run]. destruct (step s a) as [[s' r]|] eqn:E; [|exact H].
  apply IH. eapply reach_step; eassumption.
Qed.

Lemma reachable_crash_env : reachable sqrt8 crash_env.
Proof. eapply reach_init. exact crash_env_built. Qed.

Lemma reachable_zigzag_env : reachable sqrt8 zigzag_env.
Proof. eapply reach_init. exact zigzag_env_built. Qed.

Lemma late_env_built : run zigzag_env (repeat 0%Z 98) = late_env.
Proof. vm_compute. reflexivity. Qed.

(** ** Order of the trade history *)

Lemma ForallOrdPairs_snoc {A : Type} (R : A -> A -> Prop) (l : list A) (a : A) :
  ForallOrdPairs R l -> Forall (fun x => R x a) l ->
  ForallOrdPairs R (l ++ [a]).
Proof.
  induction 1 as [|x l Hx Hl IH]; intros Ha; cbn.
  - constructor; constructor.
  - inversion Ha as [|? ? Hxa Hla]; subst.
    constructor; [|now apply IH].
    apply Forall_app. split; [exact Hx|]. constructor; [exact Hxa|constructor].
Qed.

Lemma history_before_frame (b : nat) (s s' : TradingEnv) :
  account_of s' = account_of s ->
  position_core s' = position_core s ->
  history_before b s -> history_before b s'.
Proof.
  intros A C (Ho & Hc & Hp). fields A. unfold history_before.
  repeat match goal with H : _ s' = _ |- _ => rewrite H end.
  split; [exact Ho|]. split; [exact Hc|].
  intros p' Hp'.
  destruct (current_position s) as [p|] eqn:E.
  - assert (Hc' : position_core s = Some (set_current_profit_pips 0 p))
      by (unfold position_core; now rewrite E).
    rewrite <- C in Hc'. unfold position_core in Hc'. rewrite Hp' in Hc'.
    cbn in Hc'. injection Hc' as H1 H2 H3 H4 H5 H6.
    rewrite H5. now apply Hp.
  - apply (position_core_None _ _ C) in E. congruence.
Qed.

Lemma history_before_later (b b' : nat) (s : TradingEnv) :
  (b <= b')%nat -> history_before b s -> history_before b' s.
Proof.
  intros Hb (Ho & Hc & Hp). split; [exact Ho|]. split; [|exact Hp].
  eapply Forall_impl; [|exact Hc]. cbn. intros t Ht. lia.
Qed.

Lemma history_before_execute (s s' : TradingEnv) (dir : Z) (sp r : Q) :
  _execute_trade s dir sp = Ok (s', r) ->
  history_before (current_step s) s ->
  history_before (current_step s') s' /\ current_step s' = current_step s.
Proof.
  intros H Hinv. destruct (current_position s) as [p|] eqn:E.
  - rewrite (execute_trade_open s dir sp p E) in H. inv_ok. now split.
  - destruct (execute_trade_flat _ _ _ _ _ E H)
      as (price & atr & time & _ & _ & _ & _ & _ & Hs').
    subst s'. destruct Hinv as (Ho & Hc & Hp). split; [|reflexivity].
    split; [exact Ho|]. split; [exact Hc|].
    intros p Hp'. cbn in Hp'. injection Hp' as <-. exact Hc.
Qed.

Lemma history_after_close
    (s : TradingEnv) (pos : Position) (price : Q) (time : Z) :
  current_position s = Some pos ->
  history_before (S (current_step s)) s ->
  chronological (after_close s (closed_trade (current_step s) pos price time)).
Proof.
  intros E (Ho & Hc & Hp).
  set (t := closed_trade (current_step s) pos price time).
  destruct (after_close_fields s t) as (B & T & P & C & F & M).
  injection F as F1 F2 F3 F4 F5 F6 F7 F8 F9 F10 F11 F12 F13.
  unfold chronological, history_before. rewrite T, P, F8.
  split; [|split; [|discriminate]].
  - apply ForallOrdPairs_snoc; [exact Ho|]. exact (Hp pos E).
  - apply Forall_app. split; [exact Hc|].
    constructor; [cbn; lia|constructor].
Qed.

Lemma chronological_close (s s' : TradingEnv) (v : Q) :
  _close_position s = Ok (s', v) ->
  chronological s -> chronological s'.
Proof.
  intros H Hinv. destruct (current_position s) as [p|] eqn:E.
  - destruct (close_position_open _ _ _ _ E H)
      as (price & time & _ & _ & _ & Hs' & _).
    subst s'. now apply history_after_close.
  - rewrite (close_position_flat s E) in H. now inv_ok.
Qed.

Lemma chronological_step (s s' : TradingEnv) (a : Z) (r : StepResult) :
  step s a = Ok (s', r) -> chronological s -> chronological s'.
Proof.
  intros H Hs.
  apply step_spec in H
    as (sm & u & d & sc & Happ & _ & _ & Hliq & _ & _ & Hacc & Hmet & Hcore).
  apply step_apply_spec in Happ as (raw & s2 & _ & Hdis & Hman).
  assert (Ecur' : current_step s' = current_step sc).
  { pose proof Hacc as A. fields A. assumption. }
  unfold chronological. rewrite Ecur'.
  apply (history_before_frame _ _ _ Hacc Hcore).
  assert (Hadv : history_before (current_step (advance s)) (advance s)).
  { destruct Hs as (Ho & Hc & Hp). cbn [advance current_step set_current_step].
    rewrite Nat.add_1_r. split; [exact Ho|]. split; [exact Hc|exact Hp]. }
  assert (H2 : chronological s2).
  { destruct Hdis as [_ ->|r0 _ He|v _ Hc].
    - eapply history_before_later; [|exact Hadv]. lia.
    - destruct (history_before_execute _ _ _ _ _ He Hadv) as [Hh Hcur].
      eapply history_before_later; [|exact Hh]. lia.
    - eapply chronological_close; [exact Hc|].
      eapply history_before_later; [|exact Hadv]. lia. }
  assert (Hm : chronological sm).
  { apply manage_position_spec in Hman as (A & M & C & _).
    assert (Ecur : current_step sm = current_step s2) by (fields A; assumption).
    unfold chronological. rewrite Ecur.
    now apply (history_before_frame _ _ _ A C). }
  assert (Hc : chronological sc).
  { destruct Hliq as [_ ->|pos v _ _ Hc]; [assumption|].
    eapply chronological_close; eassumption. }
  exact Hc.
Qed.

Lemma chronological_reset (s s' : TradingEnv) (e : nat) (o : list fl) :
  reset s e = Ok (s', o) -> chronological s'.
Proof.
  unfold reset. intros H. apply bind_Ok in H as (start & _ & H).
  apply get_history_spec in H as (A & M & C & _).
  assert (Ecur : current_step s' = start) by (fields A; assumption).
  unfold chronological. rewrite Ecur.
  apply (history_before_frame _ _ _ A C).
  split; [constructor|]. split; [constructor|discriminate].
Qed.

Lemma chronological_init (sqrtQ : Q -> Q) (data : list Bar) (ib bpl : Q)
    (rs : bool) (s : TradingEnv) :
  TradingEnv_init sqrtQ data ib bpl rs = Ok s -> chronological s.
Proof.
  unfold TradingEnv_init. intros H.
  apply bind_Ok in H as (p & _ & H). injection H as <-.
  split; [constructor|]. split; [constructor|discriminate].
Qed.

Lemma reachable_chronological (sqrtQ : Q -> Q) (s : TradingEnv) :
  reachable sqrtQ s -> chronological s.
Proof.
  induction 1.
  - eapply chronological_init; eassumption.
  - eapply chronological_reset; eassumption.
  - eapply chronological_step; eassumption.
Qed.

(** ** Bounds of the trade metrics *)

Lemma Qsum_sign (P : Q -> Prop) (xs : list Q) :
  P 0 -> (forall a b, P a -> P b -> P (a + b)) ->
  Forall P xs -> P (Qsum xs).
Proof.
  intros H0 Hadd. induction xs as [|x xs IH] using rev_ind; intros H.
  - exact H0.
  - rewrite Qsum_snoc. apply Forall_app in H as [H1 H2].
    inversion H2; subst. apply Hadd; [now apply IH|assumption].
Qed.

Lemma Forall_pnl_winning (ts : list Trade) :
  Forall (fun q => 0 <= q) (map pnl (winning_trades ts)).
Proof.
  apply Forall_map, Forall_forall. intros t Ht.
  apply filter_In in Ht as [_ Ht]. apply Qltb_lt in Ht. lra.
Qed.

Lemma Forall_pnl_losing (ts : list Trade) :
  Forall (fun q => q <= 0) (map pnl (losing_trades ts)).
Proof.
  apply Forall_map, Forall_forall. intros t Ht.
  apply filter_In in Ht as [_ Ht]. now apply Qleb_le in Ht.
Qed.

Lemma Qdiv_nonneg (a b : Q) : 0 <= a -> 0 < b -> 0 <= a / b.
Proof.
  intros Ha Hb. apply Qle_shift_div_l; [exact Hb|]. lra.
Qed.

Lemma Qdiv_nonpos (a b : Q) : a <= 0 -> 0 < b -> a / b <= 0.
Proof.
  intros Ha Hb. apply Qle_shift_div_r; [exact Hb|]. lra.
Qed.

Lemma win_rate_of_range (ts : list Trade) : 0 <= win_rate_of ts <= 1.
Proof.
  unfold win_rate_of. destruct ts as [|t ts]; [lra|].
  set (l := t :: ts).
  assert (Hl : 0 < Qlen l) by (apply Qlen_pos; discriminate).
  split.
  - apply Qdiv_nonneg; [apply Qlen_nonneg|exact Hl].
  - apply Qle_shift_div_r; [exact Hl|]. rewrite Qmult_1_l.
    unfold Qlen. rewrite <- Zle_Qle. apply inj_le.
    unfold winning_trades. apply filter_length_le.
Qed.

Lemma avg_profit_of_nonneg (ts : list Trade) : 0 <= avg_profit_of ts.
Proof.
  unfold avg_profit_of. pose proof (Forall_pnl_winning ts) as H.
  destruct (winning_trades ts) as [|w ws]; [lra|].
  apply Qdiv_nonneg; [|apply Qlen_pos; discriminate].
  apply (Qsum_sign (fun q => 0 <= q)); [lra| |exact H].
  intros a b Ha Hb. lra.
Qed.

Lemma avg_loss_of_nonpos (ts : list Trade) : avg_loss_of ts <= 0.
Proof.
  unfold avg_loss_of. pose proof (Forall_pnl_losing ts) as H.
  destruct (losing_trades ts) as [|w ws]; [lra|].
  apply Qdiv_nonpos; [|apply Qlen_pos; discriminate].
  apply (Qsum_sign (fun q => q <= 0)); [lra| |exact H].
  intros a b Ha Hb. lra.
Qed.

Lemma metrics_of_fields (ts : list Trade) (d : Z) :
  metrics_of ts d
  = mkMetrics (win_rate_of ts) (avg_profit_of ts) (avg_loss_of ts) d.
Proof. now destruct ts. Qed.

(** ** The exceptions of a step *)

Lemma getitem_ge {A : Type} (xs : list A) (i : nat) :
  (length xs <= i)%nat -> getitem xs i = Raise IndexError.
Proof.
  intros H. unfold getitem. now rewrite (proj2 (nth_error_None xs i) H).
Qed.

Lemma only_index_getitem {A : Type} (xs : list A) (i : nat) :
  only_index_error (getitem xs i).
Proof. unfold getitem. now destruct (nth_error xs i). Qed.

Lemma only_index_bind {A B : Type} (m : result A) (k : A -> result B) :
  only_index_error m ->
  (forall a, m = Ok a -> only_index_error (k a)) ->
  only_index_error (bind m k).
Proof. destruct m as [a|e]; cbn; auto. Qed.

Lemma only_index_div (a b : Q) : ~ b == 0 -> only_index_error (py_div a b).
Proof. intros H. now rewrite py_div_nonzero. Qed.

Lemma only_index_execute (s : TradingEnv) (dir : Z) (sp : Q) :
  ~ BALANCE_PER_LOT s == 0 -> only_index_error (_execute_trade s dir sp).
Proof.
  intros Hb. unfold _execute_trade. destruct (current_position s); [exact I|].
  apply only_index_bind; [apply only_index_getitem|intros price _].
  apply only_index_bind; [apply only_index_getitem|intros atr _].
  apply only_index_bind; [now apply only_index_div|intros q _].
  apply only_index_bind; [apply only_index_getitem|intros time _].
  exact I.
Qed.

Lemma only_index_close (s : TradingEnv) :
  ~ initial_balance s == 0 -> only_index_error (_close_position s).
Proof.
  intros Hi. unfold _close_position.
  destruct (current_position s) as [pos|]; [|exact I].
  apply only_index_bind; [apply only_index_getitem|intros price _].
  apply only_index_bind; [apply only_index_getitem|intros time _].
  apply only_index_bind; [|intros q _; exact I].
  match goal with
  | |- only_index_error (py_div _ (initial_balance ?x)) =>
      assert (E : initial_balance x = initial_balance s)
  end.
  { unfold update_trade_metrics.
    destruct (Qltb 0 _); cbn; now destruct (trades s ++ _). }
  rewrite E. now apply only_index_div.
Qed.

Lemma only_index_manage (s : TradingEnv) :
  only_index_error (_manage_position s).
Proof.
  unfold _manage_position. destruct (current_position s) as [pos|]; [|exact I].
  apply only_index_bind; [apply only_index_getitem|intros price _]. exact I.
Qed.

Lemma only_index_history (s : TradingEnv) :
  ~ initial_balance s == 0 -> only_index_error (get_history s).
Proof.
  intros Hi. unfold get_history.
  apply only_index_bind; [apply only_index_getitem|intros row _].
  destruct (current_position s) as [pos|]; [|exact I].
  apply only_index_bind; [apply only_index_manage|intros [s1 u] Hm].
  apply manage_position_spec in Hm as (A & _). fields A.
  apply only_index_bind; [|intros q _; exact I].
  apply only_index_div. congruence.
Qed.

Lemma only_index_step_apply (s : TradingEnv) (a : Z) :
  ~ initial_balance s == 0 -> ~ BALANCE_PER_LOT s == 0 ->
  only_index_error (step_apply s a).
Proof.
  intros Hi Hb. unfold step_apply.
  apply only_index_bind; [apply only_index_getitem|intros raw _].
  apply only_index_bind; [|intros s2 _; apply only_index_manage].
  destruct (_process_action a =? 1)%Z.
  { apply only_index_bind; [now apply only_index_execute|now intros [s2 v] _]. }
  destruct (_process_action a =? 2)%Z.
  { apply only_index_bind; [now apply only_index_execute|now intros [s2 v] _]. }
  destruct (_process_action a =? 3)%Z; [|exact I].
  apply only_index_bind; [now apply only_index_close|now intros [s2 v] _].
Qed.

(** The state on which the terminal conditions are evaluated has the
    tables and parameters of the state the step started from. *)
Lemma step_apply_static (s sm : TradingEnv) (a : Z) (u : Q) :
  step_apply s a = Ok (sm, u) -> static_of sm = static_of (advance s).
Proof.
  intros H. apply step_apply_spec in H as (raw & s2 & _ & Hdis & Hman).
  apply manage_position_spec in Hman as (Hm & _).
  rewrite (static_of_account _ _ Hm). eapply static_of_dispatched; eassumption.
Qed.

Lemma only_index_step (s : TradingEnv) (a : Z) :
  ~ initial_balance s == 0 -> ~ BALANCE_PER_LOT s == 0 -> 0 < max_balance s ->
  only_index_error (step s a).
Proof.
  intros Hi Hb Hmax. unfold step.
  apply only_index_bind; [now apply only_index_step_apply|intros [sm u] Happ].
  apply step_apply_static in Happ.
  assert (E : initial_balance sm = initial_balance s /\
              max_balance sm = py_max (balance s) (max_balance s)).
  { unfold static_of in Happ. cbn in Happ.
    now injection Happ as _ _ _ _ _ _ ? _ _ _ _ ?. }
  destruct E as [Ei Em].
  apply only_index_bind.
  { unfold drawdown. apply only_index_div. rewrite Em.
    pose proof (py_max_pos (balance s) _ Hmax). lra. }
  intros d _.
  apply only_index_bind.
  { destruct (current_position sm); [|exact I].
    destruct (is_done sm d); [|exact I].
    apply only_index_bind; [|now intros [s2 v] _].
    apply only_index_close. now rewrite Ei. }
  intros sc Hliq.
  assert (Eic : initial_balance sc = initial_balance s).
  { rewrite <- Ei. destruct (current_position sm) eqn:Ep.
    - destruct (is_done sm d).
      + apply bind_Ok in Hliq as ([s2 v] & Hc & Hk). injection Hk as <-.
        pose proof (static_of_close _ _ _ Hc) as Hst.
        unfold static_of in Hst. now injection Hst as _ _ _ _ _ _ ? _ _ _ _ _.
      + now injection Hliq as <-.
    - now injection Hliq as <-. }
  apply only_index_bind.
  { unfold calculate_reward. apply only_index_div. now rewrite Eic. }
  intros q _.
  apply only_index_bind; [|now intros [s2 o] _].
  apply only_index_history. cbn. now rewrite Eic.
Qed.

(** A step that returns has read the feature row after the cursor. *)
Lemma step_Ok_in_range (s s' : TradingEnv) (a : Z) (r : StepResult) :
  step s a = Ok (s', r) -> (S (current_step s) < length (raw_data s))%nat.
Proof.
  intros H. pose proof (step_frame _ _ _ _ H) as (Hf & Hcur & _).
  injection Hf as Hraw _.
  unfold step in H.
  apply bind_Ok in H as ([sm u] & _ & H).
  apply bind_Ok in H as (d & _ & H).
  apply bind_Ok in H as (sc & _ & H).
  apply bind_Ok in H as (q & _ & H).
  apply bind_Ok in H as ([s2 o] & Hh & H).
  injection H as <- _.
  pose proof (get_history_spec _ _ _ Hh) as (A & _ & _ & (row & Hrow) & _).
  fields A. cbn in Hrow.
  assert (Hlt : (current_step sc < length (raw_data sc))%nat).
  { apply nth_error_Some. congruence. }
  cbn in *. congruence.
Qed.

(** ** Truncation, redundant orders, and what [reset] keeps *)

Lemma step_truncated (s s' : TradingEnv) (a : Z) (r : StepResult) :
  step s a = Ok (s', r) -> truncated r = end_of_data s'.
Proof.
  unfold step. intros H.
  apply bind_Ok in H as ([sm u] & _ & H).
  apply bind_Ok in H as (d & _ & H).
  apply bind_Ok in H as (sc & _ & H).
  apply bind_Ok in H as (q & _ & H).
  apply bind_Ok in H as ([s2 o] & Hh & H).
  now injection H as <- <-.
Qed.

Lemma step_terminated_at_end (s s' : TradingEnv) (a : Z) (r : StepResult) :
  step s a = Ok (s', r) -> end_of_data s' = true -> terminated r = true.
Proof.
  intros H He. pose proof (step_frame _ _ _ _ H) as (Hf & Hcur & _).
  injection Hf as _ _ _ Hlen _ _ _ _.
  apply step_spec in H as (sm & u & d & sc & Happ & _ & Ht & _).
  apply step_apply_static in Happ.
  assert (E : data_length sm = data_length s /\
              current_step sm = S (current_step s)).
  { unfold static_of in Happ. cbn in Happ.
    injection Happ as _ _ _ ? _ _ _ _ ? _ _ _. rewrite Nat.add_1_r in *.
    now split. }
  destruct E as [E1 E2].
  rewrite Ht. unfold is_done. 
  assert (Hsm : end_of_data sm = end_of_data s').
  { unfold end_of_data. now rewrite E1, E2, Hlen, Hcur. }
  now rewrite Hsm, He.
Qed.

(** [step_apply] in terms of the advanced state. *)
Lemma step_apply_eq (s : TradingEnv) (a : Z) :
  step_apply s a =
  (raw <- getitem (p_spread (prices s)) (current_step s) ;;
   s0 <- (if (_process_action a =? 1)%Z then
            '(s0, _) <- _execute_trade (advance s) 1 (raw * POINT_VALUE) ;;
            Ok s0
          else if (_process_action a =? 2)%Z then
            '(s0, _) <- _execute_trade (advance s) 2 (raw * POINT_VALUE) ;;
            Ok s0
          else if (_process_action a =? 3)%Z then
            '(s0, _) <- _close_position (advance s) ;; Ok s0
          else Ok (advance s)) ;;
   _manage_position s0).
Proof. reflexivity. Qed.

Lemma step_apply_redundant_open (s : TradingEnv) (p : Position) (a : Z) :
  current_position s = Some p ->
  (_process_action a = 1 \/ _process_action a = 2)%Z ->
  step_apply s a = step_apply s 0.
Proof.
  intros Hp Ha. rewrite !step_apply_eq.
  destruct (getitem (p_spread (prices s)) (current_step s)) as [raw|e];
    [|reflexivity].
  cbn [bind].
  change (_process_action 0) with 0%Z. cbn [Z.eqb].
  destruct Ha as [E|E]; rewrite E; cbn [Z.eqb Pos.eqb];
    rewrite (execute_trade_open (advance s) _ _ p Hp); reflexivity.
Qed.

Lemma config_of_step (s s' : TradingEnv) (a : Z) (r : StepResult) :
  step s a = Ok (s', r) -> config_of s' = config_of s.
Proof.
  intros H. destruct (step_frame _ _ _ _ H) as (Hf & _).
  unfold config_of. now injection Hf as -> -> -> -> -> -> -> _.
Qed.

Lemma config_of_run (s : TradingEnv) (actions : list Z) :
  config_of (run s actions) = config_of s.
Proof.
  revert s. induction actions as [|a rest IH]; intros s; [reflexivity|].
  cbn [run]. destruct (step s a) as [[s' r]|] eqn:E; [|reflexivity].
  rewrite IH. eapply config_of_step; eassumption.
Qed.

Lemma reset_view_config (s1 s2 : TradingEnv) (e : nat) :
  config_of s1 = config_of s2 ->
  reset_view (reset s1 e) = reset_view (reset s2 e).
Proof.
  unfold config_of. intros H. injection H as H1 H2 H3 H4 H5 H6 H7.
  unfold reset. rewrite H6, H4.
  destruct (if random_start s2 then _ else _) as [start|err]; [|reflexivity].
  cbn [bind]. unfold get_history.
  cbn [raw_data current_step current_position set_current_step set_balance
       set_max_balance set_previous_balance set_trades set_current_position
       set_win_count set_loss_count set_episode_steps set_trade_metrics
       set_completed_episodes].
  rewrite H1. destruct (getitem (raw_data s2) start) as [row|err];
    [|reflexivity].
  cbn [bind reset_view]. unfold episode_of, config_of. cbn.
  now rewrite H1, H2, H3, H4, H5, H6, H7.
Qed.

(** ** Bounds of the feature columns, on every table *)

Lemma fclip_within (x : fl) (lo hi : Q) :
  lo <= hi -> nan_or (within lo hi) (fclip x (Fin lo) (Fin hi)).
Proof.
  intros H. unfold fclip, nan_or, fsat, within.
  destruct x as [q| | |]; cbn.
  - destruct (Qltb q lo) eqn:E1; cbn.
    + apply Qltb_lt in E1. destruct (Qltb hi lo) eqn:E2.
      * apply Qltb_lt in E2. lra.
      * right. exists lo. split; [reflexivity|lra].
    + apply Qltb_ge in E1. destruct (Qltb hi q) eqn:E2.
      * apply Qltb_lt in E2. right. exists hi. split; [reflexivity|lra].
      * apply Qltb_ge in E2. right. exists q. split; [reflexivity|lra].
  - right. exists hi. split; [reflexivity|lra].
  - destruct (Qltb hi lo) eqn:E2.
    + apply Qltb_lt in E2. lra.
    + right. exists lo. split; [reflexivity|lra].
  - now left.
Qed.

Lemma nan_or_defined (P : Q -> Prop) (x : fl) :
  nan_or P x -> isnan x = false -> fsat P x.
Proof. intros [->|H] E; [discriminate|exact H]. Qed.

Lemma nan_or_weaken (P R : Q -> Prop) (x : fl) :
  (forall q, P q -> R q) -> nan_or P x -> nan_or R x.
Proof.
  intros H [E|(q & E & Hq)]; [now left|right]. exists q. split; auto.
Qed.

Lemma nan_or_at (P : Q -> Prop) (xs : list fl) (i : nat) :
  Forall (nan_or P) xs -> nan_or P (at_ xs i).
Proof.
  intros H. destruct (Nat.lt_ge_cases i (length xs)) as [Hlt|Hge].
  - now apply Forall_at.
  - left. now apply at_overflow.
Qed.

Lemma at_col_cases (n i : nat) (f : nat -> fl) :
  at_ (col n f) i = f i \/ at_ (col n f) i = NaN.
Proof.
  destruct (Nat.lt_ge_cases i n) as [Hlt|Hge].
  - left. now apply at_col.
  - right. apply at_overflow. now rewrite length_col.
Qed.

Lemma returns_within (data : list Bar) (i : nat) :
  nan_or (within (- (1 # 10)) (1 # 10)) (at_ (c_returns data) i).
Proof.
  unfold c_returns. cbv zeta.
  destruct (at_col_cases (length data) i
              (fun i => fclip match i with
                              | O => Fin 0
                              | S j => fdiv (fsub (at_ (c_close data) i)
                                               (at_ (c_close data) j))
                                         (at_ (c_close data) j)
                              end (Fin (- (1 # 10))) (Fin (1 # 10))))
    as [E|E]; rewrite E; [|now left].
  apply fclip_within. lra.
Qed.

Lemma trend_strength_within (data : list Bar) (i : nat) :
  nan_or (within (-1) 1) (at_ (c_trend_strength data) i).
Proof.
  unfold c_trend_strength.
  destruct (Nat.lt_ge_cases i (length (c_adx data))) as [Hlt|Hge].
  - rewrite at_map_lt by exact Hlt. apply fclip_within. lra.
  - left. apply at_overflow. now rewrite length_map.
Qed.

Lemma volatility_breakout_within (sqrtQ : Q -> Q) (data : list Bar) (i : nat) :
  nan_or (within 0 1) (at_ (c_volatility_breakout sqrtQ data) i).
Proof.
  unfold c_volatility_breakout. cbv zeta.
  match goal with
  | |- nan_or _ (at_ (col ?n ?f) i) =>
      destruct (at_col_cases n i f) as [E|E]; rewrite E; [|now left]
  end.
  apply fclip_within. lra.
Qed.

Lemma candle_pattern_within (data : list Bar) (i : nat) :
  nan_or (within (-1) 1) (at_ (c_candle_pattern data) i).
Proof.
  unfold c_candle_pattern. cbv zeta.
  match goal with
  | |- nan_or _ (at_ (col ?n ?f) i) =>
      destruct (at_col_cases n i f) as [E|E]; rewrite E; [|now left]
  end.
  apply fclip_within. lra.
Qed.

(** *** The oscillator *)

Lemma nan_or_gain (data : list Bar) (i : nat) :
  nan_or nonneg (at_ (c_gain data) i).
Proof.
  unfold c_gain. destruct nonneg_closed as (P0 & Pa & Pd).
  apply rolling_mean_nan_or; try assumption; [|lia].
  eapply Forall_impl; [|apply nonneg_gains]. apply nan_or_fsat.
Qed.

Lemma nan_or_loss (data : list Bar) (i : nat) :
  nan_or nonneg (at_ (c_loss data) i).
Proof.
  unfold c_loss. destruct nonneg_closed as (P0 & Pa & Pd).
  apply rolling_mean_nan_or; try assumption; [|lia].
  eapply Forall_impl; [|apply nonneg_losses]. apply nan_or_fsat.
Qed.

Lemma nan_or_rs (data : list Bar) (i : nat) :
  nan_or nonneg (at_ (c_rs data) i).
Proof.
  destruct (Nat.lt_ge_cases i (length data)) as [Hi|Hi].
  2:{ left. apply at_overflow. now rewrite length_c_rs. }
  rewrite c_rs_at by exact Hi.
  destruct (nan_or_loss data i) as [->|(l & -> & Hl)].
  { cbn [fne]. rewrite fdiv_NaN_r. now left. }
  cbn [fne]. destruct (Qeqb l 0) eqn:E; cbn [negb].
  { right. apply fsat_Fin. unfold nonneg. apply Qle_refl. }
  destruct (nan_or_gain data i) as [->|(g & -> & Hg)]; [now left|].
  right. cbn [fdiv]. rewrite E. apply fsat_Fin.
  unfold nonneg in *. rewrite Qred_correct. apply Qeqb_neq in E.
  apply Qle_shift_div_l; [|lra].
  destruct (Qlt_le_dec 0 l) as [H|H]; [exact H|].
  exfalso. apply E. now apply Qle_antisym.
Qed.

Lemma rsi_norm_within (data : list Bar) (i : nat) :
  nan_or (within (-1) 1) (at_ (c_rsi_norm data) i).
Proof.
  rewrite c_rsi_norm_at, c_rsi_at.
  destruct (nan_or_rs data i) as [->|(r & -> & Hr)]; [now left|].
  right. unfold nonneg in Hr.
  assert (Hpos : 0 < 1 + r) by lra.
  cbn [fadd fdiv].
  assert (E1 : Qeqb (Qred (1 + r)) 0 = false).
  { apply Qeqb_neq. rewrite Qred_correct. lra. }
  rewrite E1. cbn [fsub fneg fadd fdiv].
  assert (E2 : Qeqb 50 0 = false) by reflexivity.
  rewrite E2. cbn [fadd]. apply fsat_Fin. unfold within.
  rewrite !Qred_correct.
  assert (Hq : 0 < 100 / (1 + r) <= 100).
  { split.
    - apply Qlt_shift_div_l; [exact Hpos|]. lra.
    - apply Qle_shift_div_r; [exact Hpos|]. lra. }
  set (q := 100 / (1 + r)) in *.
  split.
  - setoid_replace ((100 + - q) / 50 + - (1)) with (1 - q / 50) by field.
    assert (q / 50 <= 2) by (apply Qle_shift_div_r; lra). lra.
  - setoid_replace ((100 + - q) / 50 + - (1)) with (1 - q / 50) by field.
    assert (0 <= q / 50) by (apply Qle_shift_div_l; lra). lra.
Qed.

(** *** Min-max normalisation *)

Section NanFold.

Variable pick : fl -> fl -> fl.
Variable R : fl -> fl -> Prop.
Hypothesis pick_choice :
  forall a b, a <> NaN -> b <> NaN -> pick a b = a \/ pick a b = b.
Hypothesis pick_l : forall a b, a <> NaN -> b <> NaN -> R (pick a b) a.
Hypothesis pick_r : forall a b, a <> NaN -> b <> NaN -> R (pick a b) b.
Hypothesis R_refl : forall a, a <> NaN -> R a a.
Hypothesis R_trans : forall a b c, R a b -> R b c -> R a c.

Let fold_step (acc x : fl) : fl :=
  if isnan x then acc else if isnan acc then x else pick acc x.

Lemma fold_step_cases (acc x : fl) :
  (x = NaN /\ fold_step acc x = acc) \/
  (x <> NaN /\ acc = NaN /\ fold_step acc x = x) \/
  (x <> NaN /\ acc <> NaN /\ fold_step acc x = pick acc x).
Proof.
  unfold fold_step.
  destruct x; cbn; try (left; split; reflexivity);
    destruct acc; cbn;
    try (right; left; repeat split; discriminate || reflexivity);
    right; right; repeat split; discriminate.
Qed.

Lemma fold_step_defined (acc x : fl) :
  acc <> NaN \/ x <> NaN -> fold_step acc x <> NaN.
Proof.
  intros H.
  destruct (fold_step_cases acc x)
    as [(Ex & ->)|[(Hx & Ea & ->)|(Hx & Ha & ->)]].
  - destruct H; [assumption|contradiction].
  - exact Hx.
  - destruct (pick_choice acc x Ha Hx) as [->| ->]; assumption.
Qed.

Lemma fold_step_acc (acc x : fl) : acc <> NaN -> R (fold_step acc x) acc.
Proof.
  intros Ha.
  destruct (fold_step_cases acc x)
    as [(Ex & ->)|[(Hx & Ea & ->)|(Hx & _ & ->)]].
  - now apply R_refl.
  - contradiction.
  - now apply pick_l.
Qed.

Lemma fold_step_new (acc x : fl) : x <> NaN -> R (fold_step acc x) x.
Proof.
  intros Hx.
  destruct (fold_step_cases acc x)
    as [(Ex & ->)|[(_ & Ea & ->)|(_ & Ha & ->)]].
  - contradiction.
  - now apply R_refl.
  - now apply pick_r.
Qed.

Lemma nan_fold_acc (xs : list fl) (acc : fl) :
  acc <> NaN ->
  fold_left fold_step xs acc <> NaN /\ R (fold_left fold_step xs acc) acc.
Proof.
  revert acc. induction xs as [|x xs IH]; intros acc Ha; cbn [fold_left].
  - split; [exact Ha|now apply R_refl].
  - assert (Hd : fold_step acc x <> NaN) by (apply fold_step_defined; auto).
    destruct (IH _ Hd) as [H1 H2]. split; [exact H1|].
    eapply R_trans; [exact H2|]. now apply fold_step_acc.
Qed.

Lemma nan_fold_bound (xs : list fl) (acc x : fl) :
  In x xs -> x <> NaN ->
  fold_left fold_step xs acc <> NaN /\ R (fold_left fold_step xs acc) x.
Proof.
  revert acc. induction xs as [|y xs IH]; intros acc Hin Hx; [destruct Hin|].
  cbn [fold_left]. destruct Hin as [->|Hin].
  - assert (Hd : fold_step acc x <> NaN) by (apply fold_step_defined; auto).
    destruct (nan_fold_acc xs _ Hd) as [H1 H2]. split; [exact H1|].
    eapply R_trans; [exact H2|]. now apply fold_step_new.
  - now apply IH.
Qed.

End NanFold.

Lemma fle_refl (a : fl) : a <> NaN -> fle a a.
Proof. destruct a; cbn; try tauto. intros _. apply Qle_refl. Qed.

Lemma fle_trans (a b c : fl) : fle a b -> fle b c -> fle a c.
Proof.
  destruct a, b, c; cbn; try tauto. intros H1 H2. lra.
Qed.

Lemma fminimum_choice (a b : fl) :
  a <> NaN -> b <> NaN -> fminimum a b = a \/ fminimum a b = b.
Proof.
  intros Ha Hb. destruct a, b; cbn; try contradiction; auto.
  destruct (Qltb q0 q); auto.
Qed.

Lemma fmaximum_choice (a b : fl) :
  a <> NaN -> b <> NaN -> fmaximum a b = a \/ fmaximum a b = b.
Proof.
  intros Ha Hb. destruct a, b; cbn; try contradiction; auto.
  destruct (Qltb q q0); auto.
Qed.

Lemma fminimum_l (a b : fl) : a <> NaN -> b <> NaN -> fle (fminimum a b) a.
Proof.
  intros Ha Hb. destruct a, b; cbn; try contradiction; try exact I;
    try apply Qle_refl.
  destruct (Qltb q0 q) eqn:E; cbn; [apply Qltb_lt in E; lra|apply Qle_refl].
Qed.

Lemma fminimum_r (a b : fl) : a <> NaN -> b <> NaN -> fle (fminimum a b) b.
Proof.
  intros Ha Hb. destruct a, b; cbn; try contradiction; try exact I;
    try apply Qle_refl.
  destruct (Qltb q0 q) eqn:E; cbn; [apply Qle_refl|now apply Qltb_ge in E].
Qed.

Lemma fmaximum_l (a b : fl) : a <> NaN -> b <> NaN -> fle a (fmaximum a b).
Proof.
  intros Ha Hb. destruct a, b; cbn; try contradiction; try exact I;
    try apply Qle_refl.
  destruct (Qltb q q0) eqn:E; cbn; [apply Qltb_lt in E; lra|apply Qle_refl].
Qed.

Lemma fmaximum_r (a b : fl) : a <> NaN -> b <> NaN -> fle b (fmaximum a b).
Proof.
  intros Ha Hb. destruct a, b; cbn; try contradiction; try exact I;
    try apply Qle_refl.
  destruct (Qltb q q0) eqn:E; cbn; [apply Qle_refl|now apply Qltb_ge in E].
Qed.

(** [np.nanmin] and [np.nanmax] bracket every defined cell. *)
Lemma nanmin_nanmax_bracket (xs : list fl) (x : fl) :
  In x xs -> x <> NaN ->
  fle (nanmin xs) x /\ fle x (nanmax xs).
Proof.
  intros Hin Hx. split.
  - apply (nan_fold_bound fminimum fle fminimum_choice fminimum_l fminimum_r
             fle_refl fle_trans xs NaN x Hin Hx).
  - apply (nan_fold_bound fmaximum (fun a b => fle b a) fmaximum_choice
             fmaximum_l fmaximum_r fle_refl
             (fun a b c H1 H2 => fle_trans c b a H2 H1) xs NaN x Hin Hx).
Qed.

(** The normalisation of a bracketed cell is undefined or lies in
    [-1, 1]. *)
Lemma normalised_within (r lo hi : fl) :
  fle lo r -> fle r hi ->
  nan_or (within (-1) 1)
    (fsub (fdiv (fmul (Fin 2) (fsub r lo)) (fadd (fsub hi lo) eps)) (Fin 1)).
Proof.
  intros H1 H2.
  destruct r as [x| | |], lo as [l| | |], hi as [h| | |]; cbn in H1, H2;
    try contradiction; try (left; reflexivity);
    try (right; exists (-1); split; [reflexivity|unfold within; lra]).
  (* the finite case *)
  right. unfold eps. cbn [fsub fneg fadd fmul].
    assert (Hd : 0 < h - l + (1 # 100000000)) by lra.
    assert (E : Qeqb (Qred (Qred (h + Qred (- l)) + (1 # 100000000))) 0 = false).
    { apply Qeqb_neq. rewrite !Qred_correct. lra. }
    cbn [fdiv]. rewrite E. cbn [fadd]. apply fsat_Fin. unfold within.
    rewrite !Qred_correct.
    set (d := h + - l + (1 # 100000000)).
    assert (Hd' : 0 < d) by (unfold d; lra).
    assert (Hq : 0 <= 2 * (x + - l) / d <= 2).
    { split.
      - apply Qle_shift_div_l; [exact Hd'|]. lra.
      - apply Qle_shift_div_r; [exact Hd'|]. unfold d. lra. }
    lra.
Qed.

Lemma atr_norm_within (data : list Bar) (i : nat) :
  nan_or (within (-1) 1) (at_ (c_atr_norm data) i).
Proof.
  unfold c_atr_norm. cbv zeta.
  set (ratio := c_atr_ratio data).
  destruct (Nat.lt_ge_cases i (length ratio)) as [Hlt|Hge].
  2:{ left. apply at_overflow. now rewrite length_map. }
  rewrite at_map_lt by exact Hlt.
  assert (Hin : In (at_ ratio i) ratio) by (unfold at_; now apply nth_In).
  destruct (at_ ratio i) as [x| | |]; try (left; reflexivity);
    (destruct (nanmin_nanmax_bracket ratio _ Hin) as [H1 H2];
      [discriminate|now apply normalised_within]).
Qed.

(** *** Rows of the feature frame *)

Lemma trimmed_frame_rows (sqrtQ : Q -> Q) (data : list Bar) (row : list fl) :
  In row (map snd (trimmed_frame sqrtQ data)) ->
  forallb (fun x => negb (isnan x)) row = true /\
  exists i,
    row = [ at_ (c_returns data) i; at_ (c_rsi_norm data) i;
            at_ (c_atr_norm data) i; at_ (c_volatility_breakout sqrtQ data) i;
            at_ (c_trend_strength data) i; at_ (c_candle_pattern data) i ].
Proof.
  intros H. apply in_map_iff in H as ([k r] & <- & H).
  unfold trimmed_frame in H. apply skipn_In in H.
  unfold dropna in H. apply filter_In in H as [H Hdef].
  split; [exact Hdef|].
  unfold full_frame in H. cbv zeta in H. unfold col in H.
  apply in_map_iff in H as (i & E & _). injection E as _ <-.
  now exists i.
Qed.

Lemma feature_row_bounds (sqrtQ : Q -> Q) (data : list Bar) (row : list fl) :
  In row (map snd (trimmed_frame sqrtQ data)) -> feature_row_ok row.
Proof.
  intros H. apply trimmed_frame_rows in H as (Hdef & i & ->).
  cbn [forallb] in Hdef. rewrite !andb_true_iff, !negb_true_iff in Hdef.
  destruct Hdef as (D0 & D1 & D2 & D3 & D4 & D5 & _).
  destruct (nan_or_defined _ _ (returns_within data i) D0) as (r0 & -> & B0).
  destruct (nan_or_defined _ _ (rsi_norm_within data i) D1) as (r1 & -> & B1).
  destruct (nan_or_defined _ _ (atr_norm_within data i) D2) as (r2 & -> & B2).
  destruct (nan_or_defined _ _ (volatility_breakout_within sqrtQ data i) D3)
    as (r3 & -> & B3).
  destruct (nan_or_defined _ _ (trend_strength_within data i) D4)
    as (r4 & -> & B4).
  destruct (nan_or_defined _ _ (candle_pattern_within data i) D5)
    as (r5 & -> & B5).
  exists r0, r1, r2, r3, r4, r5. repeat split; assumption || apply B0
    || apply B1 || apply B2 || apply B3 || apply B4 || apply B5.
Qed.

Lemma preprocess_features (sqrtQ : Q -> Q) (data : list Bar)
    (p : Preprocessed) :
  _preprocess_data sqrtQ data = Ok p ->
  features_df p = map snd (trimmed_frame sqrtQ data).
Proof.
  unfold _preprocess_data. destruct data as [|b0 rest]; [discriminate|].
  remember (b0 :: rest) as data eqn:Ed.
  destruct (length (trimmed_frame sqrtQ data) <? 100)%nat; [discriminate|].
  destruct (is_unique (map bar_time data)); [|discriminate].
  cbn [negb]. intros H. now injection H as <-.
Qed.

Lemma preprocess_rows (sqrtQ : Q -> Q) (data : list Bar) (p : Preprocessed) :
  _preprocess_data sqrtQ data = Ok p -> Forall feature_row_ok (features_df p).
Proof.
  intros H. rewrite (preprocess_features _ _ _ H).
  apply Forall_forall. intros row Hrow.
  eapply feature_row_bounds; eassumption.
Qed.



(** *** Observations *)







(** ** The evaluation episode *)

Lemma reachable_data_length (sqrtQ : Q -> Q) (s : TradingEnv) :
  reachable sqrtQ s -> (100 <= data_length s)%nat.
Proof.
  induction 1 as [data ib bpl rs s Hinit|s e s' o Hr IH Hreset|s a s' r Hr IH Hstep].
  - unfold TradingEnv_init in Hinit.
    apply bind_Ok in Hinit as (p & Hp & H). injection H as <-.
    apply preprocess_Ok_lengths in Hp as (_ & Hlen & _). exact Hlen.
  - unfold reset in Hreset. apply bind_Ok in Hreset as (start & _ & H).
    apply get_history_spec in H as (A & _). fields A.
    match goal with E : data_length s' = _ |- _ => rewrite E end. exact IH.
  - pose proof (config_of_step _ _ _ _ Hstep) as Hc.
    unfold config_of in Hc. injection Hc as _ _ _ -> _ _ _. exact IH.
Qed.

(** A reset without random start returns, at row 0 and with the
    initial balance. *)
Lemma reset_fixed_start (s : TradingEnv) (entropy : nat) :
  well_formed s -> random_start s = false -> (0 < data_length s)%nat ->
  exists s' o,
    reset s entropy = Ok (s', o) /\
    current_step s' = 0%nat /\
    balance s' = initial_balance s /\
    config_of s' = config_of s.
Proof.
  intros (Hd & Hc & Hsp & Hat & Hix & Hib & Hmax & Hbpl) Hrs Hlen.
  unfold reset. rewrite Hrs. cbn [bind].
  match goal with
  | |- exists s' o, get_history ?x = _ /\ _ =>
      assert (Hready : ready x)
  end.
  { unfold ready. cbn. rewrite Hd, Hc, Hat, Hix.
    repeat split; try assumption. lra. }
  destruct (get_history_returns _ Hready) as (s' & o & Hh).
  exists s', o. split; [exact Hh|].
  apply get_history_spec in Hh as (A & _). fields A.
  unfold config_of. cbn in *.
  repeat split; congruence.
Qed.

Section EvalLoop.

Variable sqrtQ : Q -> Q.
Variable LstmState : Type.
Variable predict : list fl -> option LstmState -> Z * option LstmState.

Lemma eval_loop_returns (fuel : nat) :
  forall (env : TradingEnv) (ob : list fl) (lstm : option LstmState)
         (mb er : Q),
    reachable sqrtQ env ->
    0 < initial_balance env -> ~ BALANCE_PER_LOT env == 0 ->
    (S (current_step env) < data_length env)%nat ->
    (data_length env - 1 - current_step env <= fuel)%nat ->
    exists env' mb' er',
      eval_loop predict fuel env ob lstm mb er = Some (Ok (env', mb', er')) /\
      reachable sqrtQ env' /\
      config_of env' = config_of env /\
      er' == er + (balance env' - balance env) / initial_balance env /\
      mb <= mb' /\
      balance env' <= mb'.
Proof.
  induction fuel as [|fuel IH]; intros env ob lstm mb er Hr Hib Hbpl Hcur Hfuel;
    [lia|].
  cbn [eval_loop]. destruct (predict ob lstm) as [action lstm'].
  pose proof (reachable_well_formed _ _ Hr Hib Hbpl) as Hwf.
  destruct (step_returns env action Hwf Hcur) as (env1 & r & Hstep).
  rewrite Hstep.
  assert (Hr1 : reachable sqrtQ env1) by (eapply reach_step; eassumption).
  pose proof (config_of_step _ _ _ _ Hstep) as Hc1.
  pose proof (step_frame _ _ _ _ Hstep)
    as (_ & Hcur1 & _ & _ & _ & _ & Hnz & Hrew).
  pose proof (step_truncated _ _ _ _ Hstep) as Htr.
  assert (Hmax1 : mb <= py_max mb (balance env1) /\
                  balance env1 <= py_max mb (balance env1)).
  { unfold py_max. destruct (Qltb mb (balance env1)) eqn:E.
    - apply Qltb_lt in E. lra.
    - apply Qltb_ge in E. lra. }
  destruct (terminated r || truncated r) eqn:Hdone.
  - exists env1, (py_max mb (balance env1)), (er + step_reward r).
    split; [reflexivity|]. split; [exact Hr1|]. split; [exact Hc1|].
    split; [rewrite Hrew; reflexivity|exact Hmax1].
  - apply orb_false_iff in Hdone as [_ Hnt]. rewrite Htr in Hnt.
    unfold end_of_data in Hnt. apply Z.leb_gt in Hnt.
    pose proof Hc1 as Hc1'. unfold config_of in Hc1'.
    injection Hc1' as _ _ _ Edl Eb _ Ei.
    destruct (IH env1 (obs r) lstm' (py_max mb (balance env1))
                (er + step_reward r) Hr1)
      as (env' & mb' & er' & Hloop & Hr' & Hc' & Her & Hmb & Hbal);
      try (rewrite ?Ei, ?Eb; assumption); try lia.
    exists env', mb', er'. split; [exact Hloop|]. split; [exact Hr'|].
    split; [now rewrite Hc'|].
    split; [|split; [lra|exact Hbal]].
    rewrite Her, Ei, Hrew. field. lra.
Qed.

Lemma run_eval_episode_returns (fuel : nat) (env : TradingEnv) (entropy : nat) :
  reachable sqrtQ env ->
  0 < initial_balance env -> ~ BALANCE_PER_LOT env == 0 ->
  random_start env = false ->
  (data_length env <= fuel)%nat ->
  exists env' m,
    _run_eval_episode predict fuel env entropy = Some (Ok (env', m)) /\
    reachable sqrtQ env' /\
    config_of env' = config_of env /\
    m_reward m == m_return m /\
    m_return m == (balance env' - initial_balance env) / initial_balance env /\
    0 <= m_max_drawdown m /\
    m_balance m = balance env' /\
    m_trades m = trades env' /\
    (m_win_rate m, m_avg_profit m, m_avg_loss m, m_current_direction m)
    = (win_rate (trade_metrics env'), avg_profit (trade_metrics env'),
       avg_loss (trade_metrics env'), current_direction (trade_metrics env')).
Proof.
  intros Hr Hib Hbpl Hrs Hfuel.
  pose proof (reachable_well_formed _ _ Hr Hib Hbpl) as Hwf.
  pose proof (reachable_data_length _ _ Hr) as Hlen.
  destruct (reset_fixed_start env entropy Hwf Hrs) as
    (env0 & o & Hreset & Hcur0 & Hbal0 & Hc0); [lia|].
  assert (Hr0 : reachable sqrtQ env0) by (eapply reach_reset; eassumption).
  pose proof Hc0 as Hc0'. unfold config_of in Hc0'.
  injection Hc0' as _ _ _ Edl Eb _ Ei.
  destruct (eval_loop_returns fuel env0 o None (initial_balance env0) 0 Hr0)
    as (env' & mb' & er' & Hloop & Hr' & Hc' & Her & Hmb & Hbal);
    try (rewrite ?Ei, ?Eb; assumption); try lia.
  pose proof Hc' as Hc''. unfold config_of in Hc''.
  injection Hc'' as _ _ _ _ _ _ Ei'.
  unfold _run_eval_episode. rewrite Hreset, Hloop.
  assert (Hnz : ~ initial_balance env' == 0) by (rewrite Ei', Ei; lra).
  rewrite (py_div_nonzero _ _ Hnz). cbn [bind].
  assert (Hdd : exists d,
            (if Qltb (initial_balance env') mb'
             then py_div (mb' - balance env') mb' else Ok 0) = Ok d /\
            0 <= d).
  { destruct (Qltb (initial_balance env') mb') eqn:E.
    - apply Qltb_lt in E. rewrite Ei', Ei in E.
      assert (Hpos : 0 < mb') by lra.
      rewrite py_div_nonzero by lra. eexists. split; [reflexivity|].
      apply Qle_shift_div_l; [exact Hpos|]. lra.
    - exists 0. split; [reflexivity|lra]. }
  destruct Hdd as (d & -> & Hd). cbn [bind].
  eexists. eexists. split; [reflexivity|].
  cbn [m_reward m_return m_max_drawdown m_balance m_trades m_win_rate
       m_avg_profit m_avg_loss m_current_direction].
  split; [exact Hr'|]. split; [now rewrite Hc'|].
  split; [|split; [now rewrite Ei', Ei|split; [exact Hd|auto]]].
  rewrite Her, Hbal0, Ei', Ei. field. lra.
Qed.

End EvalLoop.

(** ** Trade quality, drawdown replay, exploration rate, windows *)

Lemma py_max_ge_l (a b : Q) : a <= py_max a b.
Proof.
  unfold py_max. destruct (Qltb a b) eqn:E; [apply Qltb_lt in E|]; lra.
Qed.

Lemma py_max_ge_r (a b : Q) : b <= py_max a b.
Proof.
  unfold py_max. destruct (Qltb a b) eqn:E; [|apply Qltb_ge in E]; lra.
Qed.

Lemma py_max_cases (a b : Q) : py_max a b = a \/ py_max a b = b.
Proof. unfold py_max. destruct (Qltb a b); auto. Qed.

Lemma py_min_le_l (a b : Q) : py_min a b <= a.
Proof.
  unfold py_min. destruct (Qltb b a) eqn:E; [apply Qltb_lt in E|]; lra.
Qed.

Lemma py_min_le_r (a b : Q) : py_min a b <= b.
Proof.
  unfold py_min. destruct (Qltb b a) eqn:E; [|apply Qltb_ge in E]; lra.
Qed.

Lemma py_min_cases (a b : Q) : py_min a b = a \/ py_min a b = b.
Proof. unfold py_min. destruct (Qltb b a); auto. Qed.

Lemma trade_quality_range (m : EvalMetrics) :
  0 <= m_win_rate m <= 1 -> 0 <= m_max_drawdown m ->
  exists q, _calculate_trade_quality m = Ok q /\ 0 <= q <= 1.
Proof.
  intros Hw Hd. unfold _calculate_trade_quality.
  assert (Hden : 0 < Qabs (m_avg_loss m) + (1 # 100000000)).
  { pose proof (Qabs_nonneg (m_avg_loss m)). lra. }
  rewrite py_div_nonzero by lra. cbn [bind].
  eexists. split; [reflexivity|].
  set (pf := py_max 0 (m_avg_profit m) / _).
  assert (Hpf : 0 <= pf).
  { unfold pf. apply Qle_shift_div_l; [exact Hden|].
    pose proof (py_max_ge_l 0 (m_avg_profit m)). lra. }
  assert (Hc : 0 <= py_min pf 4 / 4 <= 1).
  { split.
    - apply Qle_shift_div_l; [lra|].
      destruct (py_min_cases pf 4) as [-> | ->]; lra.
    - apply Qle_shift_div_r; [lra|]. pose proof (py_min_le_r pf 4). lra. }
  set (c := py_min pf 4 / 4) in *.
  assert (Hp : 0 <= py_max 0 (1 - m_max_drawdown m * 2) <= 1).
  { split; [apply py_max_ge_l|].
    destruct (py_max_cases 0 (1 - m_max_drawdown m * 2)) as [-> | ->]; lra. }
  set (p := py_max 0 (1 - m_max_drawdown m * 2)) in *.
  lra.
Qed.

Lemma fold_Qplus_shift (xs : list Q) (a : Q) :
  fold_left Qplus xs a == a + Qsum xs.
Proof.
  unfold Qsum. revert a. induction xs as [|x xs IH]; intros a; cbn.
  - ring.
  - rewrite (IH (a + x)), (IH (0 + x)). ring.
Qed.

Lemma replay_fold (ts : list Trade) :
  forall r m p,
    r <= m -> 0 <= p ->
    let '(r', m', p') := fold_left replay_step ts (r, m, p) in
    r' = fold_left Qplus (map pnl ts) r /\ m <= m' /\ r' <= m' /\ p <= p'.
Proof.
  induction ts as [|t ts IH]; intros r m p Hrm Hp.
  - cbn. repeat split; lra.
  - cbn [fold_left map]. unfold replay_step at 2.
    set (r1 := r + pnl t). set (m1 := py_max m r1).
    assert (H1 : m <= m1 /\ r1 <= m1)
      by (split; [apply py_max_ge_l|apply py_max_ge_r]).
    destruct (Qltb 0 m1) eqn:E.
    + set (p1 := py_max p ((m1 - r1) / m1)).
      assert (Hp1 : p <= p1) by apply py_max_ge_l.
      specialize (IH r1 m1 p1 (proj2 H1)).
      destruct (fold_left replay_step ts (r1, m1, p1)) as [[r' m'] p'].
      destruct IH as (A & B & C & D); [lra|].
      repeat split; try assumption; lra.
    + specialize (IH r1 m1 p (proj2 H1) Hp).
      destruct (fold_left replay_step ts (r1, m1, p)) as [[r' m'] p'].
      destruct IH as (A & B & C & D).
      repeat split; try assumption; lra.
Qed.

Lemma current_eps_value (s e : Q) (d t : Z) :
  (0 < d)%Z ->
  let cb := CustomEpsilonCallback s e d in
  (0 < decay_timesteps cb <= 40000)%Z /\
  current_eps cb t
  = Ok (s + py_min 1 (inject_Z t / inject_Z (decay_timesteps cb)) * (e - s)).
Proof.
  intros Hd cb.
  assert (Hc : (0 < decay_timesteps cb <= 40000)%Z).
  { unfold cb, CustomEpsilonCallback. cbn.
    destruct (40000 <? d)%Z eqn:E; [lia|apply Z.ltb_ge in E; lia]. }
  split; [exact Hc|].
  unfold current_eps. rewrite py_div_nonzero; [reflexivity|].
  change 0 with (inject_Z 0). rewrite inject_Z_injective. lia.
Qed.

Lemma ratio_monotone (t1 t2 d : Z) :
  (0 < d)%Z -> (t1 <= t2)%Z ->
  inject_Z t1 / inject_Z d <= inject_Z t2 / inject_Z d.
Proof.
  intros Hd Ht.
  assert (Hq : 0 < inject_Z d)
    by (change 0 with (inject_Z 0); rewrite <- Zlt_Qlt; exact Hd).
  apply Qle_shift_div_l; [exact Hq|].
  setoid_replace (inject_Z t1 / inject_Z d * inject_Z d) with (inject_Z t1)
    by (field; lra).
  now rewrite <- Zle_Qle.
Qed.

Lemma py_min_monotone (a x y : Q) : x <= y -> py_min a x <= py_min a y.
Proof.
  intros H. unfold py_min.
  destruct (Qltb x a) eqn:E1; destruct (Qltb y a) eqn:E2;
    try apply Qltb_lt in E1; try apply Qltb_lt in E2;
    try apply Qltb_ge in E1; try apply Qltb_ge in E2; lra.
Qed.

Lemma windows_from_S (iw ss start : Z) (k : nat) :
  windows_from iw ss start (S k)
  = mkWindow (start / ss)%Z start (start + iw)%Z (start + iw + ss)%Z
    :: windows_from iw ss (start + ss)%Z k.
Proof.
  unfold windows_from. cbn [seq map]. f_equal.
  - f_equal; f_equal; lia.
  - rewrite <- seq_shift, map_map. apply map_ext. intros j.
    replace (start + Z.of_nat (S j) * ss)%Z
      with (start + ss + Z.of_nat j * ss)%Z by lia.
    reflexivity.
Qed.

Lemma walk_forward_spec (total iw ss : Z) (fuel : nat) :
  (0 < ss)%Z ->
  forall start,
    (Z.to_nat ((total - iw - start) / ss) < fuel)%nat ->
    walk_forward_windows fuel total iw ss start
    = Some (Ok (windows_from iw ss start
                  (Z.to_nat ((total - iw - start) / ss)))).
Proof.
  intros Hss. induction fuel as [|fuel IH]; intros start Hfuel; [lia|].
  cbn [walk_forward_windows].
  destruct (start + iw + ss <=? total)%Z eqn:E.
  - apply Z.leb_le in E.
    assert (Hnz : (ss =? 0)%Z = false) by (apply Z.eqb_neq; lia).
    rewrite Hnz.
    assert (Hmin : (total <? start + iw + ss)%Z = false)
      by (apply Z.ltb_ge; lia).
    rewrite Hmin.
    assert (Hq : ((total - iw - start) / ss
                  = (total - iw - (start + ss)) / ss + 1)%Z).
    { replace (total - iw - start)%Z
        with (total - iw - (start + ss) + 1 * ss)%Z by lia.
      rewrite Z.div_add by lia. reflexivity. }
    assert (Hge : (0 <= (total - iw - (start + ss)) / ss)%Z)
      by (apply Z.div_pos; lia).
    rewrite Hq in Hfuel |- *.
    replace (Z.to_nat ((total - iw - (start + ss)) / ss + 1))
      with (S (Z.to_nat ((total - iw - (start + ss)) / ss))) in Hfuel |- *
      by lia.
    rewrite IH by lia. now rewrite windows_from_S.
  - apply Z.leb_gt in E.
    assert (Hq : ((total - iw - start) / ss <= 0)%Z).
    { destruct (Z.le_gt_cases 0 (total - iw - start)) as [H|H].
      - rewrite Z.div_small by lia. lia.
      - pose proof (Z.div_lt_upper_bound (total - iw - start) ss 0 Hss).
        lia. }
    replace (Z.to_nat ((total - iw - start) / ss)) with 0%nat by lia.
    reflexivity.
Qed.

Lemma nth_error_seq_inv (k j a : nat) :
  nth_error (seq 0 k) j = Some a -> a = j.
Proof.
  intros H.
  assert (Hlt : (j < length (seq 0 k))%nat)
    by (apply nth_error_Some; congruence).
  rewrite length_seq in Hlt.
  pose proof (nth_error_nth _ _ 0%nat H) as Hn.
  rewrite seq_nth in Hn by lia. lia.
Qed.

Lemma windows_from_nth (iw ss start : Z) (k j : nat) (w : Window) :
  nth_error (windows_from iw ss start k) j = Some w ->
  w = mkWindow ((start + Z.of_nat j * ss) / ss)%Z
        (start + Z.of_nat j * ss)%Z (start + Z.of_nat j * ss + iw)%Z
        (start + Z.of_nat j * ss + iw + ss)%Z.
Proof.
  unfold windows_from. rewrite nth_error_map.
  destruct (nth_error (seq 0 k) j) as [a|] eqn:E; [|discriminate].
  apply nth_error_seq_inv in E. subst a. cbn [option_map]. congruence.
Qed.

Lemma preprocess_short (sqrtQ : Q -> Q) (data : list Bar) :
  (length data < 133)%nat -> exists e, _preprocess_data sqrtQ data = Raise e.
Proof.
  intros Hlen. unfold _preprocess_data.
  destruct data as [|b0 rest]; [eauto|].
  remember (b0 :: rest) as data eqn:Ed.
  pose proof (trimmed_frame_length sqrtQ data) as Hk.
  pose proof (undefined_rows_warmup sqrtQ data) as Hw.
  destruct (Nat.ltb_spec (length (trimmed_frame sqrtQ data)) 100) as [_|Hge];
    [eauto|lia].
Qed.

Lemma length_iloc {A : Type} (data : list A) (start stop : Z) :
  (Z.of_nat (length (iloc data start stop)) <= Z.max 0 (stop - start))%Z.
Proof.
  unfold iloc. rewrite length_firstn. lia.
Qed.

(** ** The best-model bookkeeping *)

Lemma should_save_spec (best best1 : Best) (m : Performance) (saved : bool) :
  best_consistent best ->
  _should_save_model best m = (saved, best1) ->
  (saved = true <-> ~ below_best best (composite_score m)) /\
  exists b1 p1,
    best1 = Some (b1, p1) /\
    b1 = composite_score p1 /\
    composite_score m <= b1 /\
    (p1 = m \/ best = Some (b1, p1)) /\
    (forall x, below_best best x -> x <= b1) /\
    (forall x, x <= b1 -> below_best best x \/ x <= composite_score m).
Proof.
  intros Hc Es. unfold _should_save_model in Es.
  destruct best as [[b0 p0]|]; cbn in Hc |- *.
  - destruct (Qltb b0 (composite_score m)) eqn:E; injection Es as <- <-.
    + apply Qltb_lt in E. split; [split; [intros _; lra|reflexivity]|].
      exists (composite_score m), m.
      split; [reflexivity|]. split; [reflexivity|]. split; [lra|].
      split; [now left|]. split; intros x Hx; [lra|now right].
    + apply Qltb_ge in E. split; [split; [discriminate|intros H; lra]|].
      exists b0, p0.
      split; [reflexivity|]. split; [exact Hc|]. split; [exact E|].
      split; [now right|]. split; intros x Hx; [exact Hx|now left].
  - injection Es as <- <-. split; [split; [tauto|reflexivity]|].
    exists (composite_score m), m.
    split; [reflexivity|]. split; [reflexivity|]. split; [lra|].
    split; [now left|]. split; intros x Hx; [contradiction|now right].
Qed.

Lemma save_decisions_spec (ms : list Performance) :
  forall best,
    best_consistent best ->
    let '(flags, best') := save_decisions best ms in
    length flags = length ms /\
    (forall k m,
       nth_error ms k = Some m ->
       (nth k flags false = true <->
        Forall (fun x => composite_score x < composite_score m) (firstn k ms)
        /\ ~ below_best best (composite_score m))) /\
    best_consistent best' /\
    match best' with
    | None => ms = [] /\ best = None
    | Some (b, p) =>
        (In p ms \/ best = Some (b, p)) /\
        Forall (fun x => composite_score x <= b) ms /\
        (forall x, below_best best x -> x <= b)
    end.
Proof.
  induction ms as [|m rest IH]; intros best Hc.
  - cbn. split; [reflexivity|]. split; [|split; [exact Hc|]].
    + intros k m Hk. destruct k; discriminate.
    + destruct best as [[b p]|]; [|auto].
      split; [now right|]. split; [constructor|]. intros x Hx. exact Hx.
  - cbn [save_decisions].
    destruct (_should_save_model best m) as [saved best1] eqn:Es.
    destruct (should_save_spec _ _ _ _ Hc Es)
      as (Hsaved & b1 & p1 & -> & Hb1 & Hm1 & Hp1 & Hup & Hdown).
    specialize (IH (Some (b1, p1)) Hb1).
    destruct (save_decisions (Some (b1, p1)) rest) as [flags best'].
    destruct IH as (Hlen & Hflags & Hc' & Hbest).
    split; [cbn; now rewrite Hlen|]. split; [|split; [exact Hc'|]].
    + intros k x Hk. destruct k as [|k].
      * cbn in Hk. injection Hk as <-. cbn [nth firstn].
        rewrite Hsaved. split; [intros H; split; [constructor|exact H]|tauto].
      * cbn in Hk. cbn [nth firstn]. rewrite (Hflags k x Hk). cbn [below_best].
        split.
        -- intros [Hf Hn]. split.
           ++ constructor; [|exact Hf].
              destruct (Qlt_le_dec (composite_score m) (composite_score x))
                as [Hlt|Hle]; [exact Hlt|]. exfalso. apply Hn. lra.
           ++ intros Hbb. apply Hn. now apply Hup.
        -- intros [Hf Hn]. inversion Hf as [|? ? Hmx Hf']; subst.
           split; [exact Hf'|]. intros Hbb.
           destruct (Hdown _ Hbb) as [H|H]; [now apply Hn|lra].
    + destruct best' as [[b p]|]; [|destruct Hbest; discriminate].
      destruct Hbest as (Hin & Hall & Hbel). cbn in Hbel.
      split; [|split].
      * destruct Hin as [Hin|Hin]; [left; now right|].
        injection Hin as <- <-.
        destruct Hp1 as [->|Hp1]; [left; now left|now right].
      * constructor; [apply Hbel; exact Hm1|exact Hall].
      * intros x Hx. apply Hbel. now apply Hup.
Qed.

(** ** The pricing invariant *)

Lemma priced_frame (s s' : TradingEnv) :
  account_of s' = account_of s ->
  position_core s' = position_core s ->
  priced s -> priced s'.
Proof.
  intros A C (Ht & Hp). fields A. unfold priced.
  repeat match goal with H : _ s' = _ |- _ => rewrite H end.
  split; [exact Ht|]. intros p' Hp'.
  destruct (current_position s) as [p|] eqn:E.
  - assert (Hc : position_core s = Some (set_current_profit_pips 0 p))
      by (unfold position_core; now rewrite E).
    rewrite <- C in Hc. unfold position_core in Hc. rewrite Hp' in Hc.
    cbn in Hc. injection Hc as H1 H2 H3 H4 H5 H6.
    destruct (Hp p eq_refl) as [Hpp Hl].
    unfold priced_position in *. rewrite H1, H2, H3, H5. now split.
  - apply (position_core_None _ _ C) in E. congruence.
Qed.

Lemma priced_execute (s s' : TradingEnv) (dir : Z) (raw r : Q) :
  (1 <= current_step s)%nat ->
  nth_error (p_spread (prices s)) (current_step s - 1) = Some raw ->
  _execute_trade s dir (raw * POINT_VALUE) = Ok (s', r) ->
  priced s -> priced s'.
Proof.
  intros Hcur Hraw H Hinv. destruct (current_position s) as [p|] eqn:E.
  - rewrite (execute_trade_open s dir _ p E) in H. now inv_ok.
  - destruct (execute_trade_flat _ _ _ _ _ E H)
      as (price & atr & time & Hprice & _ & _ & _ & _ & Hs').
    subst s'. destruct Hinv as (Ht & _). split; [exact Ht|].
    intros p Hp. cbn in Hp. injection Hp as <-.
    split; [|reflexivity].
    split; [exact Hcur|]. exists price, raw.
    cbn [opened_position entry_step entry_price direction prices
         set_trade_metrics set_current_position].
    split; [exact Hprice|]. split; [exact Hraw|].
    destruct (dir =? 1)%Z; reflexivity.
Qed.

Lemma priced_close (s s' : TradingEnv) (v : Q) :
  _close_position s = Ok (s', v) -> priced s -> priced s'.
Proof.
  intros H (Ht & Hp). destruct (current_position s) as [p|] eqn:E.
  - destruct (close_position_open _ _ _ _ E H)
      as (price & time & Hprice & _ & _ & Hs' & _).
    subst s'. set (t := closed_trade (current_step s) p price time).
    destruct (after_close_fields s t) as (B & T & P & C & F & M).
    injection F as F1 F2 F3 F4 F5 F6 F7 F8 F9 F10 F11 F12 F13.
    unfold priced. rewrite T, P, F2. split; [|discriminate].
    apply Forall_app. split; [exact Ht|].
    constructor; [|constructor]. split; [exact (proj1 (Hp p eq_refl))|exact Hprice].
  - rewrite (close_position_flat s E) in H. inv_ok.
    split; [exact Ht|]. intros p0 Hp0. congruence.
Qed.

Lemma priced_step (s s' : TradingEnv) (a : Z) (r : StepResult) :
  step s a = Ok (s', r) -> priced s -> priced s'.
Proof.
  intros H Hs.
  apply step_spec in H
    as (sm & u & d & sc & Happ & _ & _ & Hliq & _ & _ & Hacc & Hmet & Hcore).
  apply step_apply_spec in Happ as (raw & s2 & Hraw & Hdis & Hman).
  apply (priced_frame _ _ Hacc Hcore).
  assert (Hadv : priced (advance s)) by exact Hs.
  assert (H2 : priced s2).
  { destruct Hdis as [_ ->|r0 _ He|v _ Hc].
    - exact Hadv.
    - eapply priced_execute; [| |exact He|exact Hadv].
      + cbn. lia.
      + cbn. now rewrite Nat.add_sub.
    - eapply priced_close; eassumption. }
  assert (Hm : priced sm).
  { apply manage_position_spec in Hman as (A & M & C & _).
    now apply (priced_frame _ _ A C). }
  assert (Hc : priced sc).
  { destruct Hliq as [_ ->|pos v _ _ Hc]; [assumption|].
    eapply priced_close; eassumption. }
  exact Hc.
Qed.

Lemma priced_reset (s s' : TradingEnv) (e : nat) (o : list fl) :
  reset s e = Ok (s', o) -> priced s'.
Proof.
  unfold reset. intros H. apply bind_Ok in H as (start & _ & H).
  apply get_history_spec in H as (A & M & C & _).
  apply (priced_frame _ _ A C). split; [constructor|discriminate].
Qed.

Lemma priced_init (sqrtQ : Q -> Q) (data : list Bar) (ib bpl : Q)
    (rs : bool) (s : TradingEnv) :
  TradingEnv_init sqrtQ data ib bpl rs = Ok s -> priced s.
Proof.
  unfold TradingEnv_init. intros H.
  apply bind_Ok in H as (p & _ & H). injection H as <-.
  split; [constructor|discriminate].
Qed.

Lemma reachable_priced (sqrtQ : Q -> Q) (s : TradingEnv) :
  reachable sqrtQ s -> priced s.
Proof.
  induction 1.
  - eapply priced_init; eassumption.
  - eapply priced_reset; eassumption.
  - eapply priced_step; eassumption.
Qed.

(** ** The observation *)

Lemma get_history_value (s s' : TradingEnv) (o : list fl) :
  get_history s = Ok (s', o) ->
  o = nth (current_step s) (raw_data s) [] ++ [Fin (unrealized_norm s)] /\
  (exists row, nth_error (raw_data s) (current_step s) = Some row) /\
  match current_position s with
  | None => current_position s' = None
  | Some p =>
      exists c,
        nth_error (p_close (prices s)) (current_step s) = Some c /\
        current_position s'
        = Some (set_current_profit_pips (profit_points_of p c / PIP_VALUE) p)
  end.
Proof.
  unfold get_history, unrealized_norm. intros H.
  apply bind_Ok in H as (row & Hrow & H). apply getitem_Ok in Hrow.
  rewrite (nth_error_nth _ _ [] Hrow).
  destruct (current_position s) as [p|] eqn:E.
  - apply bind_Ok in H as ([s1 u] & Hm & H).
    apply bind_Ok in H as (q & Hq & H). injection H as <- <-.
    unfold _manage_position in Hm. rewrite E in Hm.
    apply bind_Ok in Hm as (c & Hc & Hm). apply getitem_Ok in Hc.
    injection Hm as <- <-.
    apply py_div_Ok in Hq as [_ ->].
    rewrite (nth_error_nth _ _ 0 Hc).
    split; [reflexivity|]. split; [eauto|]. exists c. now split.
  - injection H as <- <-. split; [reflexivity|]. split; [eauto|exact E].
Qed.

Lemma unrealized_norm_set_pips (s : TradingEnv) (p : Position) (v : Q) :
  current_position s = Some p ->
  unrealized_norm (set_current_position (Some (set_current_profit_pips v p)) s)
  = unrealized_norm s.
Proof.
  intros E. unfold unrealized_norm. rewrite E. cbn.
  now rewrite profit_points_set_pips.
Qed.

Lemma get_history_norm (s s' : TradingEnv) (o : list fl) :
  get_history s = Ok (s', o) ->
  unrealized_norm s' = unrealized_norm s /\
  current_step s' = current_step s /\
  raw_data s' = raw_data s.
Proof.
  intros H. pose proof (get_history_spec _ _ _ H) as (A & _).
  apply get_history_value in H as (_ & _ & Hp). fields A.
  split; [|split; assumption].
  unfold unrealized_norm.
  repeat match goal with E : _ s' = _ |- _ => rewrite E end.
  destruct (current_position s) as [p|].
  - destruct Hp as (c & _ & ->). reflexivity.
  - now rewrite Hp.
Qed.

(** ** Which rows a feature cell depends on *)

Lemma firstn_seq_min (k a n : nat) :
  firstn k (seq a n) = seq a (Nat.min k n).
Proof.
  revert a n. induction k as [|k IH]; intros a n; [reflexivity|].
  destruct n as [|n]; [reflexivity|]. cbn. now rewrite IH.
Qed.

Lemma firstn_col {A : Type} (k n : nat) (f : nat -> A) :
  firstn k (col n f) = col (Nat.min k n) f.
Proof. unfold col. now rewrite firstn_map, firstn_seq_min. Qed.

Lemma col_ext {A : Type} (n : nat) (f g : nat -> A) :
  (forall j, (j < n)%nat -> f j = g j) -> col n f = col n g.
Proof.
  intros H. unfold col. apply map_ext_in. intros j Hj.
  apply in_seq in Hj. apply H. lia.
Qed.

Lemma prefix_length {A : Type} (k : nat) (xs ys : list A) :
  firstn k xs = firstn k ys ->
  Nat.min k (length xs) = Nat.min k (length ys).
Proof.
  intros H. apply (f_equal (@length A)) in H. now rewrite !length_firstn in H.
Qed.

Lemma nth_prefix {A : Type} (k j : nat) (xs : list A) (d : A) :
  (j < k)%nat -> nth j (firstn k xs) d = nth j xs d.
Proof.
  revert j xs. induction k as [|k IH]; intros j xs Hj; [lia|].
  destruct xs as [|x xs]; [reflexivity|].
  destruct j as [|j]; [reflexivity|]. cbn. apply IH. lia.
Qed.

Lemma prefix_at (i j : nat) (xs ys : list fl) :
  firstn (S i) xs = firstn (S i) ys -> (j <= i)%nat -> at_ xs j = at_ ys j.
Proof.
  intros H Hj. unfold at_.
  rewrite <- (nth_prefix (S i) j xs NaN) by lia.
  rewrite <- (nth_prefix (S i) j ys NaN) by lia.
  now rewrite H.
Qed.

Lemma prefix_map {A B : Type} (f : A -> B) (k : nat) (xs ys : list A) :
  firstn k xs = firstn k ys -> firstn k (map f xs) = firstn k (map f ys).
Proof. intros H. now rewrite !firstn_map, H. Qed.

Lemma prefix_col {A B : Type} (i : nat) (xs ys : list A) (f g : nat -> B) :
  firstn (S i) xs = firstn (S i) ys ->
  (forall j, (j <= i)%nat -> f j = g j) ->
  firstn (S i) (col (length xs) f) = firstn (S i) (col (length ys) g).
Proof.
  intros H Hfg. rewrite !firstn_col, (prefix_length _ _ _ H).
  apply col_ext. intros j Hj. apply Hfg. lia.
Qed.

Lemma window_prefix (w k j : nat) (xs : list fl) :
  (j < k)%nat -> window w (firstn k xs) j = window w xs j.
Proof.
  intros Hj. unfold window.
  rewrite skipn_firstn_comm, firstn_firstn. f_equal. lia.
Qed.

Lemma prefix_window (w i j : nat) (xs ys : list fl) :
  firstn (S i) xs = firstn (S i) ys -> (j <= i)%nat ->
  window w xs j = window w ys j.
Proof.
  intros H Hj.
  rewrite <- (window_prefix w (S i) j xs) by lia.
  rewrite <- (window_prefix w (S i) j ys) by lia.
  now rewrite H.
Qed.

Lemma prefix_rolling_mean (w mp i : nat) (xs ys : list fl) :
  firstn (S i) xs = firstn (S i) ys ->
  firstn (S i) (rolling_mean w mp xs) = firstn (S i) (rolling_mean w mp ys).
Proof.
  intros H. unfold rolling_mean. apply prefix_col; [exact H|].
  intros j Hj. unfold observations. now rewrite (prefix_window w i j xs ys H Hj).
Qed.

Lemma prefix_rolling_std (sqrtQ : Q -> Q) (w mp i : nat) (xs ys : list fl) :
  firstn (S i) xs = firstn (S i) ys ->
  firstn (S i) (rolling_std sqrtQ w mp xs)
  = firstn (S i) (rolling_std sqrtQ w mp ys).
Proof.
  intros H. unfold rolling_std. apply prefix_col; [exact H|].
  intros j Hj. unfold observations. now rewrite (prefix_window w i j xs ys H Hj).
Qed.

Section Causal.

Variable sqrtQ : Q -> Q.
Variables data data' : list Bar.
Variable i : nat.
Hypothesis Hsame : firstn (S i) data = firstn (S i) data'.

Lemma prefix_bar_col (f : Bar -> Q) :
  firstn (S i) (map (fun b => Fin (f b)) data)
  = firstn (S i) (map (fun b => Fin (f b)) data').
Proof. now apply prefix_map. Qed.

Lemma same_close (j : nat) :
  (j <= i)%nat -> at_ (c_close data) j = at_ (c_close data') j.
Proof. apply prefix_at, prefix_bar_col. Qed.

Lemma same_high (j : nat) :
  (j <= i)%nat -> at_ (c_high data) j = at_ (c_high data') j.
Proof. apply prefix_at, prefix_bar_col. Qed.

Lemma same_low (j : nat) :
  (j <= i)%nat -> at_ (c_low data) j = at_ (c_low data') j.
Proof. apply prefix_at, prefix_bar_col. Qed.

Lemma same_open (j : nat) :
  (j <= i)%nat -> at_ (c_open data) j = at_ (c_open data') j.
Proof. apply prefix_at, prefix_bar_col. Qed.

Lemma prefix_returns :
  firstn (S i) (c_returns data) = firstn (S i) (c_returns data').
Proof.
  unfold c_returns. cbv zeta. apply prefix_col; [exact Hsame|].
  intros [|j] Hj; [reflexivity|].
  now rewrite (same_close (S j)), (same_close j) by lia.
Qed.

Lemma prefix_delta :
  firstn (S i) (c_delta data) = firstn (S i) (c_delta data').
Proof.
  unfold c_delta. cbv zeta. apply prefix_col; [exact Hsame|].
  intros [|j] Hj; [reflexivity|].
  now rewrite (same_close (S j)), (same_close j) by lia.
Qed.

Lemma prefix_rsi_norm :
  firstn (S i) (c_rsi_norm data) = firstn (S i) (c_rsi_norm data').
Proof.
  unfold c_rsi_norm, c_rsi. do 2 apply prefix_map.
  unfold c_rs. cbv zeta. apply prefix_col; [exact Hsame|].
  intros j Hj.
  assert (Hg : at_ (c_gain data) j = at_ (c_gain data') j).
  { apply (prefix_at i); [|exact Hj]. unfold c_gain.
    apply prefix_rolling_mean, prefix_map, prefix_delta. }
  assert (Hl : at_ (c_loss data) j = at_ (c_loss data') j).
  { apply (prefix_at i); [|exact Hj]. unfold c_loss.
    apply prefix_rolling_mean, prefix_map, prefix_delta. }
  now rewrite Hg, Hl.
Qed.

Lemma prefix_tr : firstn (S i) (c_tr data) = firstn (S i) (c_tr data').
Proof.
  unfold c_tr. cbv zeta. apply prefix_col; [exact Hsame|].
  intros [|j] Hj.
  - now rewrite (same_high 0), (same_low 0) by lia.
  - now rewrite (same_high (S j)), (same_low (S j)), (same_close j) by lia.
Qed.

Lemma prefix_atr : firstn (S i) (c_atr data) = firstn (S i) (c_atr data').
Proof. unfold c_atr. apply prefix_rolling_mean, prefix_tr. Qed.

Lemma prefix_pdm : firstn (S i) (c_pdm data) = firstn (S i) (c_pdm data').
Proof.
  unfold c_pdm. cbv zeta. apply prefix_col; [exact Hsame|].
  intros [|j] Hj; [reflexivity|].
  now rewrite (same_high (S j)), (same_high j) by lia.
Qed.

Lemma prefix_ndm : firstn (S i) (c_ndm data) = firstn (S i) (c_ndm data').
Proof.
  unfold c_ndm. cbv zeta. apply prefix_col; [exact Hsame|].
  intros [|j] Hj; [reflexivity|].
  now rewrite (same_low (S j)), (same_low j) by lia.
Qed.

Lemma prefix_dx : firstn (S i) (c_dx data) = firstn (S i) (c_dx data').
Proof.
  assert (Hs : forall j, (j <= i)%nat ->
            at_ (c_atr_safe data) j = at_ (c_atr_safe data') j).
  { intros j Hj. apply (prefix_at i); [|exact Hj].
    unfold c_atr_safe. apply prefix_map, prefix_atr. }
  assert (Hp : forall j, (j <= i)%nat ->
            at_ (c_pdi data) j = at_ (c_pdi data') j).
  { intros j Hj. apply (prefix_at i); [|exact Hj].
    unfold c_pdi. cbv zeta. apply prefix_col; [exact Hsame|].
    intros k Hk. rewrite (Hs k Hk). f_equal. f_equal.
    apply (prefix_at i); [|exact Hk]. unfold c_pdm_smooth.
    apply prefix_map, prefix_rolling_mean, prefix_pdm. }
  assert (Hn : forall j, (j <= i)%nat ->
            at_ (c_ndi data) j = at_ (c_ndi data') j).
  { intros j Hj. apply (prefix_at i); [|exact Hj].
    unfold c_ndi. cbv zeta. apply prefix_col; [exact Hsame|].
    intros k Hk. rewrite (Hs k Hk). f_equal. f_equal.
    apply (prefix_at i); [|exact Hk]. unfold c_ndm_smooth.
    apply prefix_map, prefix_rolling_mean, prefix_ndm. }
  unfold c_dx. cbv zeta. apply prefix_col; [exact Hsame|].
  intros j Hj. now rewrite (Hp j Hj), (Hn j Hj).
Qed.

Lemma prefix_trend_strength :
  firstn (S i) (c_trend_strength data)
  = firstn (S i) (c_trend_strength data').
Proof.
  unfold c_trend_strength, c_adx.
  apply prefix_map, prefix_map, prefix_rolling_mean, prefix_dx.
Qed.

Lemma prefix_volatility_breakout :
  firstn (S i) (c_volatility_breakout sqrtQ data)
  = firstn (S i) (c_volatility_breakout sqrtQ data').
Proof.
  assert (Hc : firstn (S i) (c_close data) = firstn (S i) (c_close data'))
    by apply prefix_bar_col.
  unfold c_volatility_breakout. cbv zeta. apply prefix_col; [exact Hsame|].
  intros j Hj.
  assert (Hm : at_ (c_ma20 data) j = at_ (c_ma20 data') j).
  { apply (prefix_at i); [|exact Hj]. unfold c_ma20. cbv zeta.
    rewrite (same_close 0) by lia.
    apply prefix_map, prefix_rolling_mean, Hc. }
  assert (Hb : at_ (c_boll_std sqrtQ data) j = at_ (c_boll_std sqrtQ data') j).
  { apply (prefix_at i); [|exact Hj]. unfold c_boll_std.
    apply prefix_map, prefix_rolling_std, Hc. }
  now rewrite Hm, Hb, (same_close j) by lia.
Qed.

Lemma prefix_candle_pattern :
  firstn (S i) (c_candle_pattern data)
  = firstn (S i) (c_candle_pattern data').
Proof.
  unfold c_candle_pattern. cbv zeta. apply prefix_col; [exact Hsame|].
  intros j Hj.
  now rewrite (same_close j), (same_open j), (same_high j), (same_low j) by lia.
Qed.

End Causal.

(** * Properties of the ledger on every reachable engine *)





(** X3.  On every reachable engine the stored trade metrics are those
    of the current history: the win rate is the share of trades with a
    positive P/L (0 on an empty history), the average profit and the
    average loss are the means over the winning and the losing trades
    (0 when there are none), and the current direction is that of the
    open position (0 on a flat book).  Hence the win rate lies in
    [0, 1], the average profit is never negative and the average loss
    never positive. *)
Theorem stored_metrics_match_history
    (sqrtQ : Q -> Q) (s : TradingEnv) (H : reachable sqrtQ s) :
  win_rate (trade_metrics s) = win_rate_of (trades s) /\
  avg_profit (trade_metrics s) = avg_profit_of (trades s) /\
  avg_loss (trade_metrics s) = avg_loss_of (trades s) /\
  current_direction (trade_metrics s) = open_direction s /\
  0 <= win_rate (trade_metrics s) <= 1 /\
  0 <= avg_profit (trade_metrics s) /\
  avg_loss (trade_metrics s) <= 0.
Proof.
  destruct (reachable_book_invariant _ _ H) as (_ & _ & _ & _ & Hm & _).
  rewrite Hm, metrics_of_fields.
  cbn [win_rate avg_profit avg_loss current_direction].
  repeat split; try reflexivity.
  - apply win_rate_of_range.
  - apply win_rate_of_range.
  - apply avg_profit_of_nonneg.
  - apply avg_loss_of_nonpos.
Qed.

Lemma stored_metrics_match_history_witness :
  let s := run crash_env [2; 3; 1; 0; 3]%Z in
  win_rate (trade_metrics s) = win_rate_of (trades s) /\
  avg_profit (trade_metrics s) = avg_profit_of (trades s) /\
  avg_loss (trade_metrics s) = avg_loss_of (trades s) /\
  current_direction (trade_metrics s) = open_direction s /\
  0 <= win_rate (trade_metrics s) <= 1 /\
  0 <= avg_profit (trade_metrics s) /\
  avg_loss (trade_metrics s) <= 0.
Proof.
  apply (stored_metrics_match_history sqrt8).
  apply reachable_run, reachable_crash_env.
Defined.



(** X5.  The trade history of a reachable engine is in the order of the
    rows and free of overlap: every trade was entered strictly after
    the trade recorded before it was closed, no trade was closed beyond
    the cursor, and the open position, if any, was entered after every
    recorded trade was closed, at or before the cursor, with a direction
    of 1 or -1 and a lot size in [0.01, 100]. *)
Theorem history_is_chronological
    (sqrtQ : Q -> Q) (s : TradingEnv) (H : reachable sqrtQ s) :
  ForallOrdPairs
    (fun t1 t2 => (exit_step t1 < entry_step (t_position t2))%nat)
    (trades s) /\
  Forall (fun t => (exit_step t <= current_step s)%nat) (trades s) /\
  (forall p, current_position s = Some p ->
     Forall (fun t => (exit_step t < entry_step p)%nat) (trades s) /\
     (entry_step p <= current_step s)%nat /\
     (direction p = 1 \/ direction p = -1)%Z /\
     MIN_LOTS <= lot_size p <= MAX_LOTS).
Proof.
  destruct (reachable_chronological _ _ H) as (Ho & Hc & Hp).
  destruct (reachable_book_invariant _ _ H) as (_ & _ & _ & _ & _ & _ & Hq).
  split; [exact Ho|]. split.
  - eapply Forall_impl; [|exact Hc]. cbn. intros t Ht. lia.
  - intros p E. destruct (Hq p E) as (Hd & Hl & He).
    split; [now apply Hp|]. split; [exact He|]. split; [exact Hd|exact Hl].
Qed.

Lemma history_is_chronological_witness :
  let s := run crash_env [2; 3; 1; 0; 3; 2]%Z in
  ForallOrdPairs
    (fun t1 t2 => (exit_step t1 < entry_step (t_position t2))%nat)
    (trades s) /\
  Forall (fun t => (exit_step t <= current_step s)%nat) (trades s) /\
  (forall p, current_position s = Some p ->
     Forall (fun t => (exit_step t < entry_step p)%nat) (trades s) /\
     (entry_step p <= current_step s)%nat /\
     (direction p = 1 \/ direction p = -1)%Z /\
     MIN_LOTS <= lot_size p <= MAX_LOTS).
Proof.
  apply (history_is_chronological sqrt8).
  apply reachable_run, reachable_crash_env.
Defined.

(** * Properties of [step] and [reset] *)

(** X6.  On a reachable engine with a positive initial balance and a
    non-zero balance per lot, [step] returns for every action as long
    as a row is left after the cursor, and raises IndexError (and
    nothing else) once the cursor is on the last row or beyond. *)
Theorem step_returns_until_data_ends
    (sqrtQ : Q -> Q) (s : TradingEnv) (a : Z)
    (H : reachable sqrtQ s)
    (Hib : 0 < initial_balance s) (Hbpl : ~ BALANCE_PER_LOT s == 0) :
  ((S (current_step s) < data_length s)%nat ->
   exists s' r, step s a = Ok (s', r)) /\
  ((data_length s <= S (current_step s))%nat ->
   step s a = Raise IndexError).
Proof.
  pose proof (reachable_well_formed _ _ H Hib Hbpl) as Hwf.
  split; intros Hcur.
  - now apply step_returns.
  - destruct Hwf as (Hd & _ & _ & _ & _ & _ & Hmax & _).
    assert (Hi : ~ initial_balance s == 0) by lra.
    pose proof (only_index_step s a Hi Hbpl Hmax) as Herr.
    destruct (step s a) as [[s' r]|err] eqn:E.
    + apply step_Ok_in_range in E. lia.
    + cbn in Herr. now subst err.
Qed.

Lemma step_returns_until_data_ends_witness :
  ((S (current_step zigzag_env) < data_length zigzag_env)%nat ->
   exists s' r, step zigzag_env 1 = Ok (s', r)) /\
  ((data_length zigzag_env <= S (current_step zigzag_env))%nat ->
   step zigzag_env 1 = Raise IndexError).
Proof.
  apply (step_returns_until_data_ends sqrt8).
  - apply reachable_zigzag_env.
  - vm_compute. reflexivity.
  - vm_compute. discriminate.
Defined.

(** X7.  A step that reports truncated = true also reports
    terminated = true, and the step after it raises IndexError for
    every action; after a step that reports truncated = false the next
    step returns for every action, also when the step reported
    terminated = true. *)
Theorem truncation_ends_the_episode
    (sqrtQ : Q -> Q) (s s' : TradingEnv) (a : Z) (r : StepResult)
    (H : reachable sqrtQ s)
    (Hib : 0 < initial_balance s) (Hbpl : ~ BALANCE_PER_LOT s == 0)
    (Hstep : step s a = Ok (s', r)) :
  (truncated r = true ->
   terminated r = true /\ forall b, step s' b = Raise IndexError) /\
  (truncated r = false -> forall b, exists s'' r', step s' b = Ok (s'', r')).
Proof.
  assert (H' : reachable sqrtQ s') by (eapply reach_step; eassumption).
  pose proof (config_of_step _ _ _ _ Hstep) as Hc.
  unfold config_of in Hc. injection Hc as _ _ _ _ Eb _ Ei.
  assert (Hib' : 0 < initial_balance s') by now rewrite Ei.
  assert (Hbpl' : ~ BALANCE_PER_LOT s' == 0) by now rewrite Eb.
  pose proof (reachable_well_formed _ _ H' Hib' Hbpl') as Hwf.
  rewrite (step_truncated _ _ _ _ Hstep). split; intros Ht.
  - split; [eapply step_terminated_at_end; eassumption|].
    intros b. destruct Hwf as (Hd & _ & _ & _ & _ & _ & Hmax & _).
    assert (Hi : ~ initial_balance s' == 0) by lra.
    pose proof (only_index_step s' b Hi Hbpl' Hmax) as Herr.
    destruct (step s' b) as [[s2 r2]|err] eqn:E.
    + apply step_Ok_in_range in E. unfold end_of_data in Ht.
      apply Z.leb_le in Ht. lia.
    + cbn in Herr. now subst err.
  - intros b. apply step_returns; [exact Hwf|].
    unfold end_of_data in Ht. apply Z.leb_gt in Ht. lia.
Qed.

Lemma truncation_ends_the_episode_witness :
  (truncated (result_of late_env 0) = true ->
   terminated (result_of late_env 0) = true /\
   forall b, step (run late_env [0%Z]) b = Raise IndexError) /\
  (truncated (result_of late_env 0) = false ->
   forall b, exists s'' r', step (run late_env [0%Z]) b = Ok (s'', r')).
Proof.
  apply (truncation_ends_the_episode sqrt8 late_env (run late_env [0%Z]) 0
           (result_of late_env 0)).
  - rewrite <- late_env_built. apply reachable_run, reachable_zigzag_env.
  - vm_compute. reflexivity.
  - vm_compute. discriminate.
  - vm_compute. reflexivity.
Defined.

(** X8.  While a position is open, a Buy or a Sell is a Hold: the step
    returns the same state, observation, reward, flags and info as the
    step with action 0.  Actions are taken modulo 4, so this holds for
    every integer congruent to 1 or 2. *)
Theorem redundant_open_is_hold
    (s : TradingEnv) (p : Position) (a : Z)
    (Hp : current_position s = Some p)
    (Ha : (a mod 4 = 1 \/ a mod 4 = 2)%Z) :
  step s a = step s 0.
Proof.
  unfold step. now rewrite (step_apply_redundant_open s p a Hp Ha).
Qed.

Lemma redundant_open_is_hold_witness :
  step (run crash_env [1%Z]) 2 = step (run crash_env [1%Z]) 0 /\
  step (run crash_env [1%Z]) (-3) = step (run crash_env [1%Z]) 0.
Proof.
  split.
  - eapply redundant_open_is_hold; [vm_compute; reflexivity|now right].
  - eapply redundant_open_is_hold; [vm_compute; reflexivity|now left].
Defined.

(** X9.  [reset] forgets the episode: after any sequence of steps it
    returns the same observation, and leaves the same balances, cursor,
    empty history, flat book, counters and metrics, as a reset of the
    engine the steps started from (or raises the same error).  Only the
    episode counter and the last step's reward survive it. *)
Theorem reset_forgets_the_episode
    (s : TradingEnv) (actions : list Z) (entropy : nat) :
  reset_view (reset (run s actions) entropy) = reset_view (reset s entropy).
Proof.
  apply reset_view_config, config_of_run.
Qed.

(** * Properties of the feature frame and of the observations *)

(** X10.  Whatever the input table, every row of the feature frame
    that [_preprocess_data] returns holds six finite values inside the
    bounds its columns are documented with: returns in [-0.1, 0.1], rsi
    and atr in [-1, 1], volatility_breakout in [0, 1], trend_strength
    and candle_pattern in [-1, 1].  Infinite values (a close of 0) do
    not survive: they are clipped or end in an undefined cell, whose
    row is dropped. *)
Theorem feature_rows_are_bounded
    (sqrtQ : Q -> Q) (data : list Bar) (p : Preprocessed)
    (H : _preprocess_data sqrtQ data = Ok p) :
  Forall feature_row_ok (features_df p).
Proof.
  eapply preprocess_rows; eassumption.
Qed.

Lemma feature_rows_are_bounded_witness :
  exists p,
    _preprocess_data sqrt8 (zigzag 133) = Ok p /\
    Forall feature_row_ok (features_df p).
Proof.
  destruct (_preprocess_data sqrt8 (zigzag 133)) as [p|e] eqn:E.
  - exists p. split; [reflexivity|].
    exact (feature_rows_are_bounded sqrt8 (zigzag 133) p E).
  - exfalso. vm_compute in E. discriminate E.
Defined.



(** * Properties of the evaluation code around the engine *)

(** X12.  An evaluation episode on a reachable engine without random
    start (positive initial balance, non-zero balance per lot) ends
    within data_length steps for every policy and raises nothing.  The
    return it reports is (final balance - initial balance) / initial
    balance, the reported drawdown is never negative, the reported win
    rate lies in [0, 1], and balance, trades and trade metrics are
    those of the engine at the end of the episode, which is again a
    reachable engine on the same table. *)
Theorem eval_episode_ends_and_reports_the_engine
    (sqrtQ : Q -> Q) (LstmState : Type)
    (predict : list fl -> option LstmState -> Z * option LstmState)
    (fuel : nat) (env : TradingEnv) (entropy : nat)
    (H : reachable sqrtQ env)
    (Hib : 0 < initial_balance env) (Hbpl : ~ BALANCE_PER_LOT env == 0)
    (Hrs : random_start env = false)
    (Hfuel : (data_length env <= fuel)%nat) :
  exists env' m,
    _run_eval_episode predict fuel env entropy = Some (Ok (env', m)) /\
    reachable sqrtQ env' /\
    config_of env' = config_of env /\
    m_return m == (balance env' - initial_balance env) / initial_balance env /\
    0 <= m_max_drawdown m /\
    0 <= m_win_rate m <= 1 /\
    m_balance m = balance env' /\
    m_trades m = trades env' /\
    (m_win_rate m, m_avg_profit m, m_avg_loss m, m_current_direction m)
    = (win_rate (trade_metrics env'), avg_profit (trade_metrics env'),
       avg_loss (trade_metrics env'), current_direction (trade_metrics env')).
Proof.
  destruct (run_eval_episode_returns sqrtQ LstmState predict fuel env entropy
              H Hib Hbpl Hrs Hfuel)
    as (env' & m & Hrun & Hr' & Hc & _ & H1 & H2 & H3 & H4 & H5).
  assert (Hwr : 0 <= m_win_rate m <= 1).
  { injection H5 as -> _ _ _.
    destruct (reachable_book_invariant _ _ Hr') as (_ & _ & _ & _ & Hm & _).
    rewrite Hm, metrics_of_fields. apply win_rate_of_range. }
  exists env', m.
  split; [exact Hrun|]. split; [exact Hr'|]. split; [exact Hc|].
  split; [exact H1|]. split; [exact H2|]. split; [exact Hwr|].
  split; [exact H3|]. split; [exact H4|]. exact H5.
Qed.

Lemma eval_episode_ends_and_reports_the_engine_witness :
  exists env' m,
    _run_eval_episode (fun (_ : list fl) (st : option unit) => (1%Z, st))
      100 crash_env 0 = Some (Ok (env', m)) /\
    reachable sqrt8 env' /\
    config_of env' = config_of crash_env /\
    m_return m
    == (balance env' - initial_balance crash_env) / initial_balance crash_env /\
    0 <= m_max_drawdown m /\
    0 <= m_win_rate m <= 1 /\
    m_balance m = balance env' /\
    m_trades m = trades env' /\
    (m_win_rate m, m_avg_profit m, m_avg_loss m, m_current_direction m)
    = (win_rate (trade_metrics env'), avg_profit (trade_metrics env'),
       avg_loss (trade_metrics env'), current_direction (trade_metrics env')).
Proof.
  apply (eval_episode_ends_and_reports_the_engine sqrt8 unit
           (fun _ st => (1%Z, st)) 100 crash_env 0).
  - apply reachable_crash_env.
  - vm_compute. reflexivity.
  - vm_compute. discriminate.
  - vm_compute. reflexivity.
  - vm_compute. lia.
Defined.

(** X13.  For metrics with a win rate in [0, 1] and a drawdown that is
    not negative, [_calculate_trade_quality] returns a score in
    [0, 1], whatever the average profit and loss are: the division is
    guarded by the 1e-8 term and never fails. *)
Theorem trade_quality_is_a_unit_score
    (m : EvalMetrics)
    (Hw : 0 <= m_win_rate m <= 1) (Hd : 0 <= m_max_drawdown m) :
  exists q, _calculate_trade_quality m = Ok q /\ 0 <= q <= 1.
Proof.
  now apply trade_quality_range.
Qed.

Lemma trade_quality_is_a_unit_score_witness :
  exists q,
    _calculate_trade_quality
      (mkEvalMetrics (1 # 10) (3 # 10) (1 # 10) (1 # 2) 50 0 11000 [] 0)
    = Ok q /\ 0 <= q <= 1.
Proof.
  apply (trade_quality_is_a_unit_score
           (mkEvalMetrics (1 # 10) (3 # 10) (1 # 10) (1 # 2) 50 0 11000 [] 0));
    cbn; lra.
Defined.

(** X14.  The drawdown replay of the evaluation callback, run over the
    trade history of a reachable engine, ends on the engine's balance;
    the peak it tracks is at least the initial balance and at least
    that balance, and the period drawdown it reports is not negative. *)
Theorem replayed_balance_matches_engine
    (sqrtQ : Q -> Q) (s : TradingEnv) (H : reachable sqrtQ s) :
  let '(running_balance, max_balance, period_max_drawdown) :=
    replay_drawdown s in
  running_balance == balance s /\
  initial_balance s <= max_balance /\
  running_balance <= max_balance /\
  0 <= period_max_drawdown.
Proof.
  unfold replay_drawdown.
  pose proof (replay_fold (trades s) (initial_balance s) (initial_balance s) 0
                (Qle_refl _) (Qle_refl _)) as Hf.
  destruct (fold_left replay_step (trades s) _) as [[r m] p].
  destruct Hf as (Hr & Hm & Hrm & Hp).
  destruct (reachable_book_invariant _ _ H) as (_ & _ & Hb & _).
  repeat split; try assumption.
  rewrite Hr, fold_Qplus_shift, Hb. reflexivity.
Qed.

Lemma replayed_balance_matches_engine_witness :
  let '(running_balance, max_balance, period_max_drawdown) :=
    replay_drawdown (run crash_env [2; 3; 1; 0; 3]%Z) in
  running_balance == balance (run crash_env [2; 3; 1; 0; 3]%Z) /\
  initial_balance (run crash_env [2; 3; 1; 0; 3]%Z) <= max_balance /\
  running_balance <= max_balance /\
  0 <= period_max_drawdown.
Proof.
  apply (replayed_balance_matches_engine sqrt8).
  apply reachable_run, reachable_crash_env.
Defined.

(** X15.  The exploration rate of [CustomEpsilonCallback], built with
    a positive decay length and end_eps <= start_eps: the decay length
    is capped at 40000, the rate is defined at every step count, starts
    at start_eps, never exceeds start_eps, never rises with the step
    count, and no longer changes from 40000 steps on, whatever decay
    length was asked for. *)
Theorem exploration_rate_never_rises
    (s e : Q) (d : Z) (Hd : (0 < d)%Z) (Hse : e <= s) :
  let cb := CustomEpsilonCallback s e d in
  (decay_timesteps cb <= 40000)%Z /\
  (forall t, exists v, current_eps cb t = Ok v) /\
  (forall t v, (0 <= t)%Z -> current_eps cb t = Ok v -> v <= s) /\
  (forall t1 t2 v1 v2,
     (t1 <= t2)%Z ->
     current_eps cb t1 = Ok v1 -> current_eps cb t2 = Ok v2 -> v2 <= v1) /\
  (forall v, current_eps cb 0 = Ok v -> v == s) /\
  (forall t1 t2 v1 v2,
     (40000 <= t1)%Z -> (40000 <= t2)%Z ->
     current_eps cb t1 = Ok v1 -> current_eps cb t2 = Ok v2 -> v1 = v2).
Proof.
  intros cb.
  assert (Hv : forall t,
            (0 < decay_timesteps cb <= 40000)%Z /\
            current_eps cb t
            = Ok (s + py_min 1 (inject_Z t / inject_Z (decay_timesteps cb))
                      * (e - s)))
    by (intros t; apply (current_eps_value s e d t Hd)).
  destruct (Hv 0%Z) as [Hc _].
  assert (Hq : 0 < inject_Z (decay_timesteps cb))
    by (change 0 with (inject_Z 0); rewrite <- Zlt_Qlt; lia).
  assert (Hsat : forall t, (40000 <= t)%Z ->
            py_min 1 (inject_Z t / inject_Z (decay_timesteps cb)) = 1).
  { intros t Ht. unfold py_min.
    destruct (Qltb _ 1) eqn:E; [|reflexivity].
    apply Qltb_lt in E. exfalso.
    assert (Hr : 1 <= inject_Z t / inject_Z (decay_timesteps cb)).
    { apply Qle_shift_div_l; [exact Hq|]. rewrite Qmult_1_l.
      rewrite <- Zle_Qle. lia. }
    lra. }
  split; [lia|]. split; [|split; [|split; [|split]]].
  - intros t. destruct (Hv t) as [_ ->]. eauto.
  - intros t v Ht E. destruct (Hv t) as [_ E']. rewrite E' in E.
    assert (Ev : v = s + py_min 1 (inject_Z t / inject_Z (decay_timesteps cb))
                         * (e - s)) by congruence.
    rewrite Ev. clear Ev E E'.
    assert (Hp : 0 <= py_min 1 (inject_Z t / inject_Z (decay_timesteps cb))).
    { assert (Hr : 0 <= inject_Z t / inject_Z (decay_timesteps cb)).
      { apply Qle_shift_div_l; [exact Hq|]. rewrite Qmult_0_l.
        change 0 with (inject_Z 0). now rewrite <- Zle_Qle. }
      destruct (py_min_cases 1 (inject_Z t / inject_Z (decay_timesteps cb)))
        as [-> | ->]; lra. }
    remember (py_min 1 (inject_Z t / inject_Z (decay_timesteps cb))) as p
      eqn:Ep.
    clear Ep.
    assert (H1 : 0 <= p * (s - e)) by (apply Qmult_le_0_compat; lra).
    lra.
  - intros t1 t2 v1 v2 Ht E1 E2.
    destruct (Hv t1) as [_ E1']. destruct (Hv t2) as [_ E2'].
    rewrite E1' in E1. rewrite E2' in E2.
    assert (Ev1 : v1 = s + py_min 1 (inject_Z t1 / inject_Z (decay_timesteps cb))
                           * (e - s)) by congruence.
    assert (Ev2 : v2 = s + py_min 1 (inject_Z t2 / inject_Z (decay_timesteps cb))
                           * (e - s)) by congruence.
    rewrite Ev1, Ev2. clear Ev1 Ev2 E1 E2 E1' E2'.
    pose proof (py_min_monotone 1 _ _
                  (ratio_monotone t1 t2 (decay_timesteps cb) (proj1 Hc) Ht)) as Hm.
    remember (py_min 1 (inject_Z t1 / inject_Z (decay_timesteps cb))) as p1
      eqn:Ep1.
    remember (py_min 1 (inject_Z t2 / inject_Z (decay_timesteps cb))) as p2
      eqn:Ep2.
    clear Ep1 Ep2.
    assert (H1 : 0 <= (p2 - p1) * (s - e)) by (apply Qmult_le_0_compat; lra).
    lra.
  - intros v E. destruct (Hv 0%Z) as [_ E']. rewrite E' in E.
    assert (Ev : v = s + py_min 1 (inject_Z 0 / inject_Z (decay_timesteps cb))
                         * (e - s)) by congruence.
    rewrite Ev. clear Ev E E'.
    assert (Hz : py_min 1 (inject_Z 0 / inject_Z (decay_timesteps cb)) == 0).
    { unfold py_min.
      assert (Hr : inject_Z 0 / inject_Z (decay_timesteps cb) == 0)
        by (unfold Qdiv; change (inject_Z 0) with 0; ring).
      destruct (Qltb _ 1) eqn:E; [exact Hr|].
      apply Qltb_ge in E. rewrite Hr in E. lra. }
    rewrite Hz. ring.
  - intros t1 t2 v1 v2 Ht1 Ht2 E1 E2.
    destruct (Hv t1) as [_ E1']. destruct (Hv t2) as [_ E2'].
    rewrite E1' in E1. rewrite E2' in E2.
    rewrite (Hsat t1 Ht1) in E1. rewrite (Hsat t2 Ht2) in E2.
    congruence.
Qed.

Lemma exploration_rate_never_rises_witness :
  let cb := CustomEpsilonCallback (2 # 10) (2 # 100) 60000 in
  (decay_timesteps cb <= 40000)%Z /\
  (forall t, exists v, current_eps cb t = Ok v) /\
  (forall t v, (0 <= t)%Z -> current_eps cb t = Ok v -> v <= (2 # 10)) /\
  (forall t1 t2 v1 v2,
     (t1 <= t2)%Z ->
     current_eps cb t1 = Ok v1 -> current_eps cb t2 = Ok v2 -> v2 <= v1) /\
  (forall v, current_eps cb 0 = Ok v -> v == (2 # 10)) /\
  (forall t1 t2 v1 v2,
     (40000 <= t1)%Z -> (40000 <= t2)%Z ->
     current_eps cb t1 = Ok v1 -> current_eps cb t2 = Ok v2 -> v1 = v2).
Proof.
  apply (exploration_rate_never_rises (2 # 10) (2 # 100) 60000); [lia|lra].
Defined.

(** X16.  With a positive step size the walk-forward loop ends and
    visits floor((total - initial_window - start) / step_size) windows
    (none when that is not positive).  Window k trains on the
    initial_window rows from start + k * step_size and validates on
    exactly the step_size rows that follow: the cap of the validation
    end at the table length never applies, consecutive validation
    windows are adjacent and disjoint, and every window ends inside the
    table. *)
Theorem walk_forward_windows_tile
    (total initial_window step_size start : Z) (fuel : nat)
    (Hss : (0 < step_size)%Z)
    (Hfuel :
       (Z.to_nat ((total - initial_window - start) / step_size) < fuel)%nat) :
  let k := Z.to_nat ((total - initial_window - start) / step_size) in
  walk_forward_windows fuel total initial_window step_size start
  = Some (Ok (windows_from initial_window step_size start k)) /\
  Forall (fun w =>
            (w_train_end w - w_training_start w = initial_window /\
             w_val_end w - w_train_end w = step_size /\
             w_val_end w <= total)%Z)
    (windows_from initial_window step_size start k) /\
  (forall j w1 w2,
     nth_error (windows_from initial_window step_size start k) j = Some w1 ->
     nth_error (windows_from initial_window step_size start k) (S j)
     = Some w2 ->
     (w_training_start w2 = w_training_start w1 + step_size /\
      w_train_end w2 = w_val_end w1)%Z).
Proof.
  intros k. split; [now apply walk_forward_spec|]. split.
  - apply Forall_forall. intros w Hw. unfold windows_from in Hw.
    apply in_map_iff in Hw as (j & <- & Hj). apply in_seq in Hj.
    cbn [w_train_end w_training_start w_val_end].
    split; [lia|]. split; [lia|].
    assert (Hk : (Z.of_nat j + 1 <= (total - initial_window - start) / step_size)%Z)
      by (unfold k in Hj; lia).
    pose proof (Z.mul_div_le (total - initial_window - start) step_size Hss).
    nia.
  - intros j w1 w2 H1 H2.
    apply windows_from_nth in H1, H2. subst w1 w2.
    cbn [w_train_end w_training_start w_val_end]. lia.
Qed.

Lemma walk_forward_windows_tile_witness :
  let k := Z.to_nat ((10000 - 2688 - 0) / 1344) in
  walk_forward_windows 10 10000 2688 1344 0
  = Some (Ok (windows_from 2688 1344 0 k)) /\
  Forall (fun w =>
            (w_train_end w - w_training_start w = 2688 /\
             w_val_end w - w_train_end w = 1344 /\
             w_val_end w <= 10000)%Z)
    (windows_from 2688 1344 0 k) /\
  (forall j w1 w2,
     nth_error (windows_from 2688 1344 0 k) j = Some w1 ->
     nth_error (windows_from 2688 1344 0 k) (S j) = Some w2 ->
     (w_training_start w2 = w_training_start w1 + 1344 /\
      w_train_end w2 = w_val_end w1)%Z).
Proof.
  apply (walk_forward_windows_tile 10000 2688 1344 0 10); [lia|].
  vm_compute. lia.
Defined.

(** * Properties of the best-model bookkeeping *)

(** X17.  Over any sequence of evaluations, starting from the initial
    best score of minus infinity, [_should_save_model] answers True
    exactly for the evaluations whose composite score is strictly
    above every earlier one: the first evaluation is always saved, a
    tie keeps the earlier model, and the best kept at the end is an
    evaluation of the sequence whose score no other exceeds. *)
Theorem best_model_is_first_maximum (ms : list Performance) :
  let '(flags, best) := save_decisions None ms in
  length flags = length ms /\
  (forall k m,
     nth_error ms k = Some m ->
     (nth k flags false = true <->
      Forall (fun x => composite_score x < composite_score m)
        (firstn k ms))) /\
  match best with
  | None => ms = []
  | Some (b, p) =>
      In p ms /\ b = composite_score p /\
      Forall (fun x => composite_score x <= b) ms
  end.
Proof.
  pose proof (save_decisions_spec ms None I) as H.
  destruct (save_decisions None ms) as [flags best].
  destruct H as (Hlen & Hflags & Hc & Hbest).
  split; [exact Hlen|]. split.
  - intros k m Hk. rewrite (Hflags k m Hk). cbn. tauto.
  - destruct best as [[b p]|]; [|tauto].
    destruct Hbest as ([Hin|Hin] & Hall & _); [|discriminate].
    split; [exact Hin|]. split; [exact Hc|exact Hall].
Qed.

(** X18.  When the return on the combined data is below -1e-8, the
    consistency term works against the validation return: of two
    evaluations with the same combined metrics, the one with the higher
    validation return has the lower (or the same) consistency score and
    never the higher composite score. *)
Theorem validation_return_never_raises_score_when_combined_loses
    (v1 v2 c : EvalMetrics) (p1 p2 : Performance)
    (Hc : m_return c + (1 # 100000000) < 0)
    (Hv : m_return v1 <= m_return v2)
    (H1 : performance_of v1 c = Ok p1)
    (H2 : performance_of v2 c = Ok p2) :
  consistency (scores p2) <= consistency (scores p1) /\
  composite_score p2 <= composite_score p1.
Proof.
  unfold performance_of in H1, H2.
  rewrite py_div_nonzero in H1, H2 by lra. cbn [bind] in H1, H2.
  apply bind_Ok in H1 as (q1 & _ & H1). apply bind_Ok in H2 as (q2 & _ & H2).
  apply bind_Ok in H1 as (qc & Hqc & H1).
  apply bind_Ok in H2 as (qc' & Hqc' & H2).
  assert (qc' = qc) by congruence. subst qc'.
  injection H1 as <-. injection H2 as <-.
  unfold composite_score.
  cbn [combined scores consistency combined_quality].
  set (d := m_return c + (1 # 100000000)) in *.
  assert (Hd : m_return v2 / d <= m_return v1 / d).
  { assert (Hneg : 0 < - d) by lra.
    setoid_replace (m_return v2 / d) with (- m_return v2 / - d) by (field; lra).
    setoid_replace (m_return v1 / d) with (- m_return v1 / - d) by (field; lra).
    apply Qle_shift_div_l; [exact Hneg|].
    setoid_replace (- m_return v2 / - d * - d) with (- m_return v2)
      by (field; lra).
    lra. }
  split; [exact Hd|]. lra.
Qed.

Lemma validation_return_never_raises_score_when_combined_loses_witness :
  exists p1 p2,
    performance_of
      (mkEvalMetrics (1 # 10) 0 (1 # 10) (1 # 2) 50 (-40) 11000 [] 0)
      (mkEvalMetrics (- (1 # 10)) 0 (- (1 # 10)) (1 # 2) 50 (-60) 9000 [] 0)
    = Ok p1 /\
    performance_of
      (mkEvalMetrics (2 # 10) 0 (2 # 10) (1 # 2) 50 (-40) 12000 [] 0)
      (mkEvalMetrics (- (1 # 10)) 0 (- (1 # 10)) (1 # 2) 50 (-60) 9000 [] 0)
    = Ok p2 /\
    consistency (scores p2) <= consistency (scores p1) /\
    composite_score p2 <= composite_score p1.
Proof.
  eexists. eexists.
  split; [vm_compute; reflexivity|]. split; [vm_compute; reflexivity|].
  apply (validation_return_never_raises_score_when_combined_loses
           (mkEvalMetrics (1 # 10) 0 (1 # 10) (1 # 2) 50 (-40) 11000 [] 0)
           (mkEvalMetrics (2 # 10) 0 (2 # 10) (1 # 2) 50 (-40) 12000 [] 0)
           (mkEvalMetrics (- (1 # 10)) 0 (- (1 # 10)) (1 # 2) 50 (-60) 9000 [] 0)).
  - cbn. lra.
  - cbn. lra.
  - vm_compute. reflexivity.
  - vm_compute. reflexivity.
Defined.

(** * Further properties of the ledger and of the observation *)

(** X19.  The info dictionary of a step on a reachable engine agrees
    with the ledger it leaves: balance is the balance, total_pnl is the
    balance less the initial balance, the trade metrics are the
    stored ones, and the position entry is present exactly when a
    position is open, with its direction, entry price, lot size and
    pip figure and a hold time (cursor minus entry row) that is not
    negative.  A step that does not report terminated reports a
    drawdown below 50 (per cent), computed from the balances it
    leaves. *)
Theorem step_info_matches_ledger
    (sqrtQ : Q -> Q) (s s' : TradingEnv) (a : Z) (r : StepResult)
    (H : reachable sqrtQ s) (Hstep : step s a = Ok (s', r)) :
  info_balance (info r) = balance s' /\
  info_total_pnl (info r) = balance s' - initial_balance s' /\
  info_trade_metrics (info r) = trade_metrics s' /\
  match info_position (info r), current_position s' with
  | None, None => True
  | Some i, Some p =>
      pi_long i = (direction p =? 1)%Z /\
      pi_entry_price i = entry_price p /\
      pi_lot_size i = lot_size p /\
      pi_profit_pips i = current_profit_pips p /\
      pi_hold_time i
      = (Z.of_nat (current_step s') - Z.of_nat (entry_step p))%Z /\
      (0 <= pi_hold_time i)%Z
  | _, _ => False
  end /\
  (terminated r = false ->
   info_drawdown (info r) < 50 /\
   info_drawdown (info r)
   == (max_balance s' - balance s') / max_balance s' * 100).
Proof.
  assert (H' : reachable sqrtQ s') by (eapply reach_step; eassumption).
  destruct (reachable_book_invariant _ _ H') as (_ & _ & Hb & _ & _ & _ & Hpos).
  unfold step in Hstep.
  apply bind_Ok in Hstep as ([sm u] & Happ & Hstep).
  apply bind_Ok in Hstep as (d & Hd & Hstep).
  apply bind_Ok in Hstep as (sc & Hliq & Hstep).
  apply bind_Ok in Hstep as (q & Hrew & Hstep).
  apply bind_Ok in Hstep as ([s2 o] & Hh & Hstep).
  injection Hstep as -> <-.
  cbn [info info_balance info_total_pnl info_trade_metrics info_position
       info_drawdown terminated].
  split; [reflexivity|]. split; [reflexivity|]. split; [reflexivity|].
  split.
  - unfold position_info. destruct (current_position s') as [p|] eqn:E;
      [|exact I].
    cbn [pi_long pi_entry_price pi_lot_size pi_profit_pips pi_hold_time].
    repeat split. destruct (Hpos p eq_refl) as (_ & _ & He). lia.
  - intros Hnd.
    unfold drawdown in Hd. apply py_div_Ok in Hd as [Hmax ->].
    assert (Hlt : (max_balance sm - balance sm) / max_balance sm < 1 # 2).
    { unfold is_done in Hnd. apply orb_false_iff in Hnd as [_ Hnd].
      apply Qleb_gt in Hnd. exact Hnd. }
    split; [lra|].
    assert (Esc : sc = sm).
    { destruct (current_position sm); [|now injection Hliq].
      rewrite Hnd in Hliq. now injection Hliq. }
    subst sc.
    apply get_history_spec in Hh as (A & _). fields A. cbn in *.
    repeat match goal with E : _ s' = _ |- _ => rewrite E end.
    reflexivity.
Qed.

Lemma step_info_matches_ledger_witness :
  let s := run crash_env [1%Z] in
  let s' := run crash_env [1; 0]%Z in
  let r := result_of (run crash_env [1%Z]) 0 in
  info_balance (info r) = balance s' /\
  info_total_pnl (info r) = balance s' - initial_balance s' /\
  info_trade_metrics (info r) = trade_metrics s' /\
  match info_position (info r), current_position s' with
  | None, None => True
  | Some i, Some p =>
      pi_long i = (direction p =? 1)%Z /\
      pi_entry_price i = entry_price p /\
      pi_lot_size i = lot_size p /\
      pi_profit_pips i = current_profit_pips p /\
      pi_hold_time i
      = (Z.of_nat (current_step s') - Z.of_nat (entry_step p))%Z /\
      (0 <= pi_hold_time i)%Z
  | _, _ => False
  end /\
  (terminated r = false ->
   info_drawdown (info r) < 50 /\
   info_drawdown (info r)
   == (max_balance s' - balance s') / max_balance s' * 100).
Proof.
  apply (step_info_matches_ledger sqrt8 (run crash_env [1%Z])
           (run crash_env [1; 0]%Z) 0 (result_of (run crash_env [1%Z]) 0)).
  - apply reachable_run, reachable_crash_env.
  - vm_compute. reflexivity.
Defined.

(** X20.  Every trade recorded on a reachable engine is priced from the
    table: it was entered no earlier than row 1, at the close of its
    entry row plus (long) or minus (short) 0.01 times the spread of
    the row before, and closed at the close of its exit row with no
    spread adjustment.  An open position is priced the same way. *)
Theorem trades_are_priced_from_the_table
    (sqrtQ : Q -> Q) (s : TradingEnv) (H : reachable sqrtQ s) :
  Forall
    (fun t =>
       let p := t_position t in
       (1 <= entry_step p)%nat /\
       nth_error (p_close (prices s)) (exit_step t) = Some (exit_price t) /\
       exists c sp,
         nth_error (p_close (prices s)) (entry_step p) = Some c /\
         nth_error (p_spread (prices s)) (entry_step p - 1) = Some sp /\
         entry_price p
         = c + (if (direction p =? 1)%Z then sp * POINT_VALUE
                else - (sp * POINT_VALUE)))
    (trades s) /\
  (forall p,
     current_position s = Some p ->
     (1 <= entry_step p)%nat /\
     exists c sp,
       nth_error (p_close (prices s)) (entry_step p) = Some c /\
       nth_error (p_spread (prices s)) (entry_step p - 1) = Some sp /\
       entry_price p
       = c + (if (direction p =? 1)%Z then sp * POINT_VALUE
              else - (sp * POINT_VALUE))).
Proof.
  destruct (reachable_priced _ _ H) as (Ht & Hp).
  split.
  - rewrite Forall_forall in *. intros t Hin.
    destruct (Ht t Hin) as ((H1 & c & sp & Hc & Hsp & He) & Hx).
    cbv zeta. split; [exact H1|]. split; [exact Hx|].
    exists c, sp. split; [exact Hc|]. split; [exact Hsp|]. exact He.
  - intros p Hcur. exact (proj1 (Hp p Hcur)).
Qed.

Lemma trades_are_priced_from_the_table_witness :
  let s := run crash_env [2; 3; 1; 0; 3; 2]%Z in
  Forall
    (fun t =>
       let p := t_position t in
       (1 <= entry_step p)%nat /\
       nth_error (p_close (prices s)) (exit_step t) = Some (exit_price t) /\
       exists c sp,
         nth_error (p_close (prices s)) (entry_step p) = Some c /\
         nth_error (p_spread (prices s)) (entry_step p - 1) = Some sp /\
         entry_price p
         = c + (if (direction p =? 1)%Z then sp * POINT_VALUE
                else - (sp * POINT_VALUE)))
    (trades s) /\
  (forall p,
     current_position s = Some p ->
     (1 <= entry_step p)%nat /\
     exists c sp,
       nth_error (p_close (prices s)) (entry_step p) = Some c /\
       nth_error (p_spread (prices s)) (entry_step p - 1) = Some sp /\
       entry_price p
       = c + (if (direction p =? 1)%Z then sp * POINT_VALUE
              else - (sp * POINT_VALUE))).
Proof.
  apply (trades_are_priced_from_the_table sqrt8).
  apply reachable_run, reachable_crash_env.
Defined.

(** X21.  The observation [step] returns is the feature row under the
    new cursor followed by one entry: 0 when the book is flat on
    return, otherwise the unrealised P/L of the open position at the
    close under the cursor, (close - entry) x lot for a long and
    (entry - close) x lot for a short, over the initial balance and
    clipped to [-1, 1].  The observation of [reset] ends with 0. *)
Theorem observation_is_row_and_unrealized_pnl
    (s s' : TradingEnv) (a : Z) (r : StepResult)
    (H : step s a = Ok (s', r)) :
  current_step s' = S (current_step s) /\
  obs r
  = nth (current_step s') (raw_data s') [] ++ [Fin (unrealized_norm s')] /\
  (forall entropy s0 o,
     reset s entropy = Ok (s0, o) ->
     o = nth (current_step s0) (raw_data s0) [] ++ [Fin 0]).
Proof.
  pose proof (step_frame _ _ _ _ H) as (_ & Hcur & _).
  split; [exact Hcur|]. split.
  - unfold step in H.
    apply bind_Ok in H as ([sm u] & _ & H).
    apply bind_Ok in H as (d & _ & H).
    apply bind_Ok in H as (sc & _ & H).
    apply bind_Ok in H as (q & _ & H).
    apply bind_Ok in H as ([s2 o] & Hh & H).
    injection H as -> <-. cbn [obs].
    destruct (get_history_norm _ _ _ Hh) as (-> & -> & ->).
    now apply get_history_value in Hh as (-> & _).
  - intros e s0 o Hr. unfold reset in Hr.
    apply bind_Ok in Hr as (start & _ & Hr).
    destruct (get_history_norm _ _ _ Hr) as (_ & -> & ->).
    now apply get_history_value in Hr as (-> & _).
Qed.

Lemma observation_is_row_and_unrealized_pnl_witness :
  let s := run crash_env [1%Z] in
  let s' := run crash_env [1; 0]%Z in
  let r := result_of (run crash_env [1%Z]) 0 in
  current_step s' = S (current_step s) /\
  obs r
  = nth (current_step s') (raw_data s') [] ++ [Fin (unrealized_norm s')] /\
  (forall entropy s0 o,
     reset s entropy = Ok (s0, o) ->
     o = nth (current_step s0) (raw_data s0) [] ++ [Fin 0]).
Proof.
  apply (observation_is_row_and_unrealized_pnl (run crash_env [1%Z])
           (run crash_env [1; 0]%Z) 0 (result_of (run crash_env [1%Z]) 0)).
  vm_compute. reflexivity.
Defined.

(** * Look-ahead in the feature pipeline *)

(** X22.  Five of the six feature columns do not look ahead: on two
    tables that agree on rows 0 to i, the cells of row i of returns,
    rsi, volatility_breakout, trend_strength and candle_pattern are the
    same, whatever the later rows are.  The atr column does look
    ahead, through the minimum and the maximum it takes over the whole
    series: there are two tables that agree on rows 0 to 14 and differ
    in that cell of row 14. *)
Theorem features_do_not_look_ahead
    (sqrtQ : Q -> Q) (data data' : list Bar) (i : nat)
    (H : firstn (S i) data = firstn (S i) data') :
  at_ (c_returns data) i = at_ (c_returns data') i /\
  at_ (c_rsi_norm data) i = at_ (c_rsi_norm data') i /\
  at_ (c_volatility_breakout sqrtQ data) i
  = at_ (c_volatility_breakout sqrtQ data') i /\
  at_ (c_trend_strength data) i = at_ (c_trend_strength data') i /\
  at_ (c_candle_pattern data) i = at_ (c_candle_pattern data') i /\
  exists d d',
    firstn 15 d = firstn 15 d' /\
    at_ (c_atr_norm d) 14 <> at_ (c_atr_norm d') 14.
Proof.
  split; [apply (prefix_at i); [now apply prefix_returns|lia]|].
  split; [apply (prefix_at i); [now apply prefix_rsi_norm|lia]|].
  split; [apply (prefix_at i); [now apply prefix_volatility_breakout|lia]|].
  split; [apply (prefix_at i); [now apply prefix_trend_strength|lia]|].
  split; [apply (prefix_at i); [now apply prefix_candle_pattern|lia]|].
  exists (zigzag 16), (firstn 15 (zigzag 16) ++ [mkBar 15 100 200 50 100 2]).
  split; [vm_compute; reflexivity|]. vm_compute. discriminate.
Qed.

Lemma features_do_not_look_ahead_witness :
  at_ (c_returns (zigzag 40)) 30 = at_ (c_returns (zigzag 50)) 30 /\
  at_ (c_rsi_norm (zigzag 40)) 30 = at_ (c_rsi_norm (zigzag 50)) 30 /\
  at_ (c_volatility_breakout sqrt8 (zigzag 40)) 30
  = at_ (c_volatility_breakout sqrt8 (zigzag 50)) 30 /\
  at_ (c_trend_strength (zigzag 40)) 30
  = at_ (c_trend_strength (zigzag 50)) 30 /\
  at_ (c_candle_pattern (zigzag 40)) 30
  = at_ (c_candle_pattern (zigzag 50)) 30 /\
  exists d d',
    firstn 15 d = firstn 15 d' /\
    at_ (c_atr_norm d) 14 <> at_ (c_atr_norm d') 14.
Proof.
  apply (features_do_not_look_ahead sqrt8 (zigzag 40) (zigzag 50) 30).
  vm_compute. reflexivity.
Defined.

(** * The live driver *)

Ltac no_event :=
  cbn; split;
  [ intros ? Hin; repeat (destruct Hin as [Hin|Hin]; try discriminate);
    contradiction
  | intros ? Hin; repeat (destruct Hin as [Hin|Hin]; try discriminate);
    contradiction ].

(** X23.  With a timeframe that is not negative, a trading cycle never
    detects a data gap and never resets the recurrent states on that
    account, however far the new bar lies from the previous one: the
    previous bar index is overwritten with the new one before the gap
    is measured, so the measured gap is always one timeframe.  When a
    prediction is handed to the executor, the states the bot keeps are
    those of the model after the prediction. *)
Theorem gap_reset_never_fires
    (MarketData Prediction LstmStates : Type) (timeframe : Q)
    (bot : TradingBot LstmStates)
    (c : Collaborators MarketData Prediction LstmStates)
    (Htf : 0 <= timeframe) :
  let '(bot', log) := process_trading_cycle timeframe bot c in
  (forall d, ~ In (GapDetected Prediction d) log) /\
  (forall p,
     In (TradeExecuted p) log ->
     exists data st,
       fetch_data c = Returns (Some data) /\
       predict_single c data = Returns (p, st) /\
       lstm_states bot' = st).
Proof.
  assert (Hgap : forall current,
    Qltb (timeframe * 2 * 60) (Qabs (current - (current + timeframe * 60)))
    = false).
  { intros current. apply Qltb_ge. apply Qabs_Qle_condition. split; lra. }
  unfold process_trading_cycle.
  destruct (fetch_current_bar c) as [[index|]|]; [|no_event|no_event].
  destruct index as [|t0 rest]; [no_event|].
  destruct (same_bar (last_bar_index bot) (last (t0 :: rest) 0));
    [no_event|].
  destruct (fetch_data c) as [[data|]|]; [|no_event|no_event].
  cbn [last_bar_index]. rewrite Hgap.
  destruct (predict_single c data) as [[p st]|] eqn:Epred; [|no_event].
  destruct (execute_trade c p) as [u|]; [|no_event].
  cbn. split.
  - intros d Hin. repeat (destruct Hin as [Hin|Hin]; try discriminate).
    contradiction.
  - intros p' Hin. destruct Hin as [Hin|[Hin|[Hin|[]]]]; try discriminate.
    injection Hin as <-. exists data, st. repeat split. exact Epred.
Qed.

Lemma gap_reset_never_fires_witness :
  let '(bot', log) :=
    process_trading_cycle 15 (mkBot (Some 0) (Some tt))
      (mkCollaborators (Returns (Some [0; 900; 90000])) (Returns (Some tt))
         (fun _ => Returns (1%Z, Some tt)) (fun _ => Returns tt)) in
  (forall d, ~ In (GapDetected Z d) log) /\
  (forall p,
     In (TradeExecuted p) log ->
     exists data st,
       Returns (Some tt) = Returns (Some data) /\
       Returns (1%Z, Some tt) = Returns (p, st) /\
       lstm_states bot' = st).
Proof.
  apply (gap_reset_never_fires unit Z unit 15 (mkBot (Some 0) (Some tt))
           (mkCollaborators (Returns (Some [0; 900; 90000]))
              (Returns (Some tt)) (fun _ => Returns (1%Z, Some tt))
              (fun _ => Returns tt))).
  lra.
Defined.

(** * Walk-forward windows and the engine *)

(** X24.  A walk-forward run whose step size is below 133 rows cannot
    complete a pass: for every window of its schedule, constructing
    the validation engine on the step_size rows of that window raises
    (the insufficient-data error, the 13 warm-up rows and the 20-bar
    look-back leaving fewer than 100 rows).  A step size of one day of
    15-minute bars, 96 rows, is such a case. *)
Theorem short_validation_windows_are_rejected
    (sqrtQ : Q -> Q) (data : list Bar)
    (initial_window step_size start : Z) (k : nat) (ib bpl : Q)
    (Hss : (step_size < 133)%Z) :
  Forall
    (fun w =>
       exists e,
         TradingEnv_init sqrtQ (iloc data (w_train_end w) (w_val_end w))
           ib bpl false
         = Raise e)
    (windows_from initial_window step_size start k).
Proof.
  apply Forall_forall. intros w Hw. unfold windows_from in Hw.
  apply in_map_iff in Hw as (j & <- & _).
  cbn [w_train_end w_val_end]. unfold TradingEnv_init.
  match goal with
  | |- exists e, bind (_preprocess_data sqrtQ ?d) _ = _ =>
      destruct (preprocess_short sqrtQ d) as [e He]
  end.
  - pose proof (length_iloc data
                  (start + Z.of_nat j * step_size + initial_window)
                  (start + Z.of_nat j * step_size + initial_window + step_size))
      as Hl.
    lia.
  - exists e. now rewrite He.
Qed.

Lemma short_validation_windows_are_rejected_witness :
  Forall
    (fun w =>
       exists e,
         TradingEnv_init sqrt8 (iloc (zigzag 400) (w_train_end w) (w_val_end w))
           10000 1000 false
         = Raise e)
    (windows_from 192 96 0 2).
Proof.
  apply (short_validation_windows_are_rejected sqrt8 (zigzag 400) 192 96 0 2).
  lia.
Defined.
